(** * gocmd/flagset: a shallow embedding of the flag set and its resolution

    The development follows [flagset.go] of the repository: the Go string
    helpers the code calls, the three records the package works on
    ([Flag], [Arg], [Command]), the segmentation passes ([parseCommands],
    [parseArgs]), the three loops of [New] and the validation pass
    ([checkFlags]).  Pointers are positions: the flag set owns one list of
    flags and one list of arguments, and a [*Arg] held by a flag is the
    position of that argument in the list, so that a write through one
    flag is seen through every other flag that holds the same argument. *)

From Stdlib Require Import ZArith String Ascii List Bool Lia.
From stdpp Require Import base option list strings gmap pretty.

Local Open Scope Z_scope.
Local Open Scope string_scope.

(** ** The Go standard library, as far as the package uses it *)

Module GoStrings.

Definition dquote : ascii := "034"%char.
Definition squote : ascii := "039"%char.
Definition dash : ascii := "-"%char.
Definition equals : ascii := "="%char.

Definition rev (s : string) : string :=
  string_of_list_ascii (List.rev (list_ascii_of_string s)).

(** [strings.HasPrefix(s, p)]. *)
Definition HasPrefix (s p : string) : bool := String.prefix p s.

(** [strings.TrimLeft(s, cutset)], [strings.TrimRight] and [strings.Trim]
    for a cutset of one ASCII byte, the only form the package calls. *)
Fixpoint TrimLeft (s : string) (c : ascii) : string :=
  match s with
  | EmptyString => EmptyString
  | String a s' => if Ascii.eqb a c then TrimLeft s' c else s
  end.

Definition TrimRight (s : string) (c : ascii) : string :=
  rev (TrimLeft (rev s) c).

Definition Trim (s : string) (c : ascii) : string :=
  TrimLeft (TrimRight s c) c.

(** [strings.Index(s, sep)] for a separator of one byte; [-1] when absent. *)
Fixpoint Index (s : string) (c : ascii) : Z :=
  match s with
  | EmptyString => -1
  | String a s' =>
      if Ascii.eqb a c then 0
      else let r := Index s' c in if Z.eqb r (-1) then -1 else r + 1
  end.

(** [strings.SplitN(s, sep, 2)] for a separator of one byte: the text
    before the first separator and, when there is one, the text after. *)
Fixpoint SplitN2 (s : string) (c : ascii) : list string :=
  match s with
  | EmptyString => [EmptyString]
  | String a s' =>
      if Ascii.eqb a c then [EmptyString; s']
      else match SplitN2 s' c with
           | x :: r => String a x :: r
           | [] => [String a EmptyString]
           end
  end.

(** [strings.Join(elems, "")]. *)
Definition Join (l : list string) : string :=
  fold_right String.append EmptyString l.

(** [strings.Split(s, sep)] for a non-empty separator: cut at each
    occurrence found from the left, occurrences do not overlap.  [skip]
    counts the bytes of a separator still to pass over and [cur] is the
    piece being read, last byte first. *)
Fixpoint splitFrom (sep s : string) (skip : nat) (cur : list ascii) : list string :=
  match s with
  | EmptyString => [string_of_list_ascii (List.rev cur)]
  | String a s' =>
      match skip with
      | S n => splitFrom sep s' n cur
      | O =>
          if String.prefix sep s
          then string_of_list_ascii (List.rev cur)
                 :: splitFrom sep s' (Nat.pred (String.length sep)) []
          else splitFrom sep s' O (a :: cur)
      end
  end.

Definition Split (s sep : string) : list string := splitFrom sep s O [].

(** White space as [unicode.IsSpace] has it, in UTF-8: the six ASCII
    characters, U+0085, U+00A0, U+1680, U+2000 to U+200A, U+2028, U+2029,
    U+202F, U+205F and U+3000. *)
Definition bytes (l : list N) : string :=
  string_of_list_ascii (map ascii_of_N l).

Definition spaces : list string :=
  map bytes
    [ [9]; [10]; [11]; [12]; [13]; [32]; [194; 133]; [194; 160];
      [225; 154; 128];
      [226; 128; 128]; [226; 128; 129]; [226; 128; 130]; [226; 128; 131];
      [226; 128; 132]; [226; 128; 133]; [226; 128; 134]; [226; 128; 135];
      [226; 128; 136]; [226; 128; 137]; [226; 128; 138];
      [226; 128; 168]; [226; 128; 169]; [226; 128; 175];
      [226; 129; 159]; [227; 128; 128] ]%N.

Fixpoint dropBytes (n : nat) (s : string) : string :=
  match n, s with
  | S n', String _ s' => dropBytes n' s'
  | _, _ => s
  end.

Fixpoint trimLeading (sp : list string) (fuel : nat) (s : string) : string :=
  match fuel with
  | O => s
  | S fuel' =>
      match List.find (fun e => String.prefix e s) sp with
      | Some e => trimLeading sp fuel' (dropBytes (String.length e) s)
      | None => s
      end
  end.

(** [strings.TrimSpace(s)]. *)
Definition TrimSpace (s : string) : string :=
  let l := trimLeading spaces (String.length s) s in
  rev (trimLeading (map rev spaces) (String.length l) (rev l)).

End GoStrings.

Module Strconv.

Definition digit (c : ascii) : option Z :=
  let n := Z.of_N (N_of_ascii c) in
  if Z.leb 48 n && Z.leb n 57 then Some (n - 48) else None.

Fixpoint digits (s : string) (acc : Z) : option Z :=
  match s with
  | EmptyString => Some acc
  | String c s' =>
      match digit c with
      | Some d => digits s' (10 * acc + d)
      | None => None
      end
  end.

(** [strconv.ParseUint(s, 10, bitSize)]: [None] stands for any error
    (syntax or range), the callers do not tell them apart. *)
Definition ParseUint (s : string) (bitSize : Z) : option Z :=
  match s with
  | EmptyString => None
  | _ =>
      match digits s 0 with
      | Some n => if Z.leb n (2 ^ bitSize - 1) then Some n else None
      | None => None
      end
  end.

(** [strconv.ParseInt(s, 10, bitSize)]. *)
Definition ParseInt (s : string) (bitSize : Z) : option Z :=
  match s with
  | EmptyString => None
  | String c rest =>
      let neg := Ascii.eqb c "-" in
      let body := if Ascii.eqb c "+" || neg then rest else s in
      match ParseUint body bitSize with
      | None => None
      | Some un =>
          let cutoff := 2 ^ (bitSize - 1) in
          if neg
          then if Z.leb un cutoff then Some (- un) else None
          else if Z.ltb un cutoff then Some un else None
      end
  end.

End Strconv.

Import GoStrings.

(** ** The data model *)

(** The [kind] of a flag or of an argument: the strings ["arg"], ["command"]
    and ["argval"], and the empty string of an argument not yet classified. *)
Inductive Kind := KindNone | KindArg | KindCommand | KindArgval.

(** [valueBy]: the empty string, ["arg"], ["env"] or ["default"]. *)
Inductive ValueBy := ByNone | ByArg | ByEnv | ByDefault.

Definition Kind_eqb (a b : Kind) : bool :=
  match a, b with
  | KindNone, KindNone | KindArg, KindArg
  | KindCommand, KindCommand | KindArgval, KindArgval => true
  | _, _ => false
  end.

Definition ValueBy_eqb (a b : ValueBy) : bool :=
  match a, b with
  | ByNone, ByNone | ByArg, ByArg | ByEnv, ByEnv | ByDefault, ByDefault => true
  | _, _ => false
  end.

(** A Go [error] is its message. *)
Definition error := string.

(** [Flag], with the fields of the literal in [structFieldToFlag] (the
    declaration of the type is beside that of [supportedFlagTypes]).  A
    field index ([[]int]) is a list; the [nil] index of a
    top-level field is the empty list, as [fmt.Sprint] prints both alike.
    [f_args] holds the flag's [[]*Arg] as positions in the flag set's
    arguments; the [nil] slice is the empty list.  The [updatedBy] trail of
    the three records is a debugging aid that nothing reads: it is left out. *)
Record Flag := mkFlag {
  f_id : Z;
  f_name : string;
  f_short : string;
  f_long : string;
  f_command : string;
  f_description : string;
  f_required : bool;
  f_env : string;
  f_delimiter : string;
  f_valueDefault : string;
  f_valueType : string;
  f_valueBy : ValueBy;
  f_kind : Kind;
  f_fieldIndex : list nat;
  f_parentIndex : list nat;
  f_parentID : Z;
  f_commandID : Z;
  f_args : list nat;
  f_err : option error
}.

(** [Arg] (arg.go). *)
Record Arg := mkArg {
  a_id : Z;
  a_arg : string;
  a_name : string;
  a_value : string;
  a_dash : string;
  a_hasEq : bool;
  a_unnamed : bool;
  a_unset : bool;
  a_kind : Kind;
  a_flagID : Z;
  a_commandID : Z;
  a_parentID : Z;
  a_indexFrom : Z;
  a_indexTo : Z;
  a_err : option error
}.

(** [Command], with the fields of the literal in [parseCommands]. *)
Record Command := mkCommand {
  c_id : Z;
  c_command : string;
  c_flagID : Z;
  c_parentID : Z;
  c_argID : Z;
  c_indexFrom : Z;
  c_indexTo : Z
}.

(** Field writes. *)
Definition flag_valueBy (v : ValueBy) (f : Flag) : Flag :=
  mkFlag (f_id f) (f_name f) (f_short f) (f_long f) (f_command f)
    (f_description f) (f_required f) (f_env f) (f_delimiter f)
    (f_valueDefault f) (f_valueType f) v (f_kind f) (f_fieldIndex f)
    (f_parentIndex f) (f_parentID f) (f_commandID f) (f_args f) (f_err f).

Definition flag_err (e : option error) (f : Flag) : Flag :=
  mkFlag (f_id f) (f_name f) (f_short f) (f_long f) (f_command f)
    (f_description f) (f_required f) (f_env f) (f_delimiter f)
    (f_valueDefault f) (f_valueType f) (f_valueBy f) (f_kind f)
    (f_fieldIndex f) (f_parentIndex f) (f_parentID f) (f_commandID f)
    (f_args f) e.

Definition flag_parentID (p : Z) (f : Flag) : Flag :=
  mkFlag (f_id f) (f_name f) (f_short f) (f_long f) (f_command f)
    (f_description f) (f_required f) (f_env f) (f_delimiter f)
    (f_valueDefault f) (f_valueType f) (f_valueBy f) (f_kind f)
    (f_fieldIndex f) (f_parentIndex f) p (f_commandID f) (f_args f) (f_err f).

Definition flag_commandID (c : Z) (f : Flag) : Flag :=
  mkFlag (f_id f) (f_name f) (f_short f) (f_long f) (f_command f)
    (f_description f) (f_required f) (f_env f) (f_delimiter f)
    (f_valueDefault f) (f_valueType f) (f_valueBy f) (f_kind f)
    (f_fieldIndex f) (f_parentIndex f) (f_parentID f) c (f_args f) (f_err f).

Definition flag_args (l : list nat) (f : Flag) : Flag :=
  mkFlag (f_id f) (f_name f) (f_short f) (f_long f) (f_command f)
    (f_description f) (f_required f) (f_env f) (f_delimiter f)
    (f_valueDefault f) (f_valueType f) (f_valueBy f) (f_kind f)
    (f_fieldIndex f) (f_parentIndex f) (f_parentID f) (f_commandID f) l
    (f_err f).

Definition arg_value (v : string) (a : Arg) : Arg :=
  mkArg (a_id a) (a_arg a) (a_name a) v (a_dash a) (a_hasEq a) (a_unnamed a)
    (a_unset a) (a_kind a) (a_flagID a) (a_commandID a) (a_parentID a)
    (a_indexFrom a) (a_indexTo a) (a_err a).

Definition arg_err (e : option error) (a : Arg) : Arg :=
  mkArg (a_id a) (a_arg a) (a_name a) (a_value a) (a_dash a) (a_hasEq a)
    (a_unnamed a) (a_unset a) (a_kind a) (a_flagID a) (a_commandID a)
    (a_parentID a) (a_indexFrom a) (a_indexTo a) e.

Definition arg_flagID (i : Z) (a : Arg) : Arg :=
  mkArg (a_id a) (a_arg a) (a_name a) (a_value a) (a_dash a) (a_hasEq a)
    (a_unnamed a) (a_unset a) (a_kind a) i (a_commandID a) (a_parentID a)
    (a_indexFrom a) (a_indexTo a) (a_err a).

Definition arg_name (n : string) (a : Arg) : Arg :=
  mkArg (a_id a) (a_arg a) n (a_value a) (a_dash a) (a_hasEq a) (a_unnamed a)
    (a_unset a) (a_kind a) (a_flagID a) (a_commandID a) (a_parentID a)
    (a_indexFrom a) (a_indexTo a) (a_err a).

Definition arg_dash (d : string) (a : Arg) : Arg :=
  mkArg (a_id a) (a_arg a) (a_name a) (a_value a) d (a_hasEq a) (a_unnamed a)
    (a_unset a) (a_kind a) (a_flagID a) (a_commandID a) (a_parentID a)
    (a_indexFrom a) (a_indexTo a) (a_err a).

Definition arg_hasEq (b : bool) (a : Arg) : Arg :=
  mkArg (a_id a) (a_arg a) (a_name a) (a_value a) (a_dash a) b (a_unnamed a)
    (a_unset a) (a_kind a) (a_flagID a) (a_commandID a) (a_parentID a)
    (a_indexFrom a) (a_indexTo a) (a_err a).

Definition arg_unnamed (b : bool) (a : Arg) : Arg :=
  mkArg (a_id a) (a_arg a) (a_name a) (a_value a) (a_dash a) (a_hasEq a) b
    (a_unset a) (a_kind a) (a_flagID a) (a_commandID a) (a_parentID a)
    (a_indexFrom a) (a_indexTo a) (a_err a).

Definition arg_unset (b : bool) (a : Arg) : Arg :=
  mkArg (a_id a) (a_arg a) (a_name a) (a_value a) (a_dash a) (a_hasEq a)
    (a_unnamed a) b (a_kind a) (a_flagID a) (a_commandID a) (a_parentID a)
    (a_indexFrom a) (a_indexTo a) (a_err a).

Definition arg_kind (k : Kind) (a : Arg) : Arg :=
  mkArg (a_id a) (a_arg a) (a_name a) (a_value a) (a_dash a) (a_hasEq a)
    (a_unnamed a) (a_unset a) k (a_flagID a) (a_commandID a) (a_parentID a)
    (a_indexFrom a) (a_indexTo a) (a_err a).

Definition arg_parentID (p : Z) (a : Arg) : Arg :=
  mkArg (a_id a) (a_arg a) (a_name a) (a_value a) (a_dash a) (a_hasEq a)
    (a_unnamed a) (a_unset a) (a_kind a) (a_flagID a) (a_commandID a) p
    (a_indexFrom a) (a_indexTo a) (a_err a).

Definition arg_indexTo (t : Z) (a : Arg) : Arg :=
  mkArg (a_id a) (a_arg a) (a_name a) (a_value a) (a_dash a) (a_hasEq a)
    (a_unnamed a) (a_unset a) (a_kind a) (a_flagID a) (a_commandID a)
    (a_parentID a) (a_indexFrom a) t (a_err a).

Definition command_indexTo (t : Z) (c : Command) : Command :=
  mkCommand (c_id c) (c_command c) (c_flagID c) (c_parentID c) (c_argID c)
    (c_indexFrom c) t.

Definition command_found (argIndex : Z) (c : Command) : Command :=
  mkCommand (c_id c) (c_command c) (c_flagID c) (c_parentID c) argIndex
    argIndex (c_indexTo c).

Definition isBool (valueType : string) : bool :=
  String.eqb valueType "bool" || String.eqb valueType "[]bool".

Definition isString (valueType : string) : bool :=
  String.eqb valueType "string" || String.eqb valueType "[]string".

Definition isEmpty (s : string) : bool := String.eqb s "".

Definition isNil {A} (l : list A) : bool :=
  match l with [] => true | _ => false end.

Definition Index_eqb (a b : list nat) : bool := bool_decide (a = b).

(** ** The flag set *)

Section FlagSet.

(** [float64] and [strconv.ParseFloat(s, 64)] are kept abstract ([None]
    is an error); [LookupEnv] is [os.LookupEnv] over the environment of the
    process. *)
Variable float64 : Type.
Variable float64_zero : float64.
Variable ParseFloat : string -> option float64.
Variable LookupEnv : string -> option string.

(** The package-level [supportedFlagTypes], declared beside [Flag]. *)
Variable supportedFlagTypes : list string.

(** What a field of the destination struct holds.  [int] is read as the
    64-bit type it is on the platforms the package is built for. *)
Inductive scalar :=
| VBool (b : bool)
| VFloat (x : float64)
| VInt (n : Z)
| VUint (n : Z)
| VString (s : string).

Inductive value :=
| Scalar (x : scalar)
| Slice (xs : list scalar).

(** The struct behind [Options.Flags], as [reflect] shows it: the value
    of the field at an index and whether it can be set. *)
Record Struct := mkStruct {
  FieldByIndex : list nat -> value;
  CanSet : list nat -> bool
}.

Definition Set_ (idx : list nat) (v : value) (s : Struct) : Struct :=
  mkStruct (fun i => if Index_eqb i idx then v else FieldByIndex s i)
           (CanSet s).

(** [reflect.Append(fv, x)]; the field of a slice-typed flag holds a
    slice, the other branch is not met on a struct typed as its flags say. *)
Definition Append (v : value) (x : scalar) : value :=
  match v with
  | Slice xs => Slice (xs ++ [x])
  | Scalar _ => Slice [x]
  end.

Record FlagSet := mkFlagSet {
  flags : list Flag;
  flagsRaw : Struct;
  args : list Arg;
  argsRaw : list string;
  argsParsed : bool;
  commands : list Command;
  commandsParsed : bool
}.

Definition withFlags (l : list Flag) (fs : FlagSet) : FlagSet :=
  mkFlagSet l (flagsRaw fs) (args fs) (argsRaw fs) (argsParsed fs)
    (commands fs) (commandsParsed fs).

Definition withArgs (l : list Arg) (fs : FlagSet) : FlagSet :=
  mkFlagSet (flags fs) (flagsRaw fs) l (argsRaw fs) (argsParsed fs)
    (commands fs) (commandsParsed fs).

Definition withRaw (s : Struct) (fs : FlagSet) : FlagSet :=
  mkFlagSet (flags fs) s (args fs) (argsRaw fs) (argsParsed fs)
    (commands fs) (commandsParsed fs).

(** A write through the pointer at position [k]. *)
Definition onFlag (k : nat) (g : Flag -> Flag) (fs : FlagSet) : FlagSet :=
  withFlags (alter g k (flags fs)) fs.

Definition onArg (i : nat) (g : Arg -> Arg) (fs : FlagSet) : FlagSet :=
  withArgs (alter g i (args fs)) fs.

Definition lookupFlagByID (fs : FlagSet) (id : Z) : option Flag :=
  if Z.ltb id 0 then None
  else List.find (fun v => Z.eqb (f_id v) id) (flags fs).

Definition lookupFlagByIndex (fs : FlagSet) (index : list nat) : option Flag :=
  if isNil index then None
  else List.find (fun v => Index_eqb (f_fieldIndex v) index) (flags fs).

(** *** setFlag and unsetFlag *)

(** The outcome of one case of [setFlag]'s switch: a value to store, nothing
    to do (the empty string for a numeric type), or an error. *)
Inductive parsed := Parsed (x : scalar) | Nothing | Failed (e : error).

Definition failedToParse (v t : string) : error :=
  "failed to parse '" +:+ v +:+ "' as " +:+ t.

Definition parseBool (v : string) : parsed :=
  if String.eqb v "true" then Parsed (VBool true)
  else if String.eqb v "false" then Parsed (VBool false)
  else Failed (failedToParse v "bool").

Definition parseFloat (v : string) : parsed :=
  if isEmpty v then Nothing
  else match ParseFloat v with
       | Some x => Parsed (VFloat x)
       | None => Failed (failedToParse v "float64")
       end.

Definition parseInt (bitSize : Z) (t v : string) : parsed :=
  if isEmpty v then Nothing
  else match Strconv.ParseInt v bitSize with
       | Some n => Parsed (VInt n)
       | None => Failed (failedToParse v t)
       end.

Definition parseUint (bitSize : Z) (t v : string) : parsed :=
  if isEmpty v then Nothing
  else match Strconv.ParseUint v bitSize with
       | Some n => Parsed (VUint n)
       | None => Failed (failedToParse v t)
       end.

(** The cases of the switch: whether the field is a slice, and the parse.
    [None] is the [default] case. *)
Definition convert (valueType v : string) : option (bool * parsed) :=
  if String.eqb valueType "bool" then Some (false, parseBool v)
  else if String.eqb valueType "float64" then Some (false, parseFloat v)
  else if String.eqb valueType "int" then Some (false, parseInt 64 "int" v)
  else if String.eqb valueType "int64" then Some (false, parseInt 64 "int64" v)
  else if String.eqb valueType "uint" then Some (false, parseUint 64 "uint" v)
  else if String.eqb valueType "uint64" then Some (false, parseUint 64 "uint64" v)
  else if String.eqb valueType "string" then Some (false, Parsed (VString v))
  else if String.eqb valueType "[]bool" then Some (true, parseBool v)
  else if String.eqb valueType "[]float64" then Some (true, parseFloat v)
  else if String.eqb valueType "[]int" then Some (true, parseInt 32 "int" v)
  else if String.eqb valueType "[]int64" then Some (true, parseInt 64 "int64" v)
  else if String.eqb valueType "[]uint" then Some (true, parseUint 32 "uint" v)
  else if String.eqb valueType "[]uint64" then Some (true, parseUint 64 "uint64" v)
  else if String.eqb valueType "[]string" then Some (true, Parsed (VString v))
  else None.

Definition invalidType (valueType : string) : error :=
  "invalid type " +:+ valueType +:+ ". Supported types: ["
    +:+ String.concat " " supportedFlagTypes +:+ "]".

Definition setFlag (fs : FlagSet) (id : Z) (v : string) : FlagSet * option error :=
  if Z.ltb id 0 then (fs, Some "flag id is required")
  else
    match lookupFlagByID fs id with
    | None => (fs, Some ("no flag for id " +:+ pretty id))
    | Some flag =>
        let idx := f_fieldIndex flag in
        if negb (CanSet (flagsRaw fs) idx)
        then (fs, Some ("flag " +:+ f_name flag +:+ " can't be set"))
        else
          match convert (f_valueType flag) v with
          | None => (fs, Some (invalidType (f_valueType flag)))
          | Some (_, Failed e) => (fs, Some e)
          | Some (_, Nothing) => (fs, None)
          | Some (false, Parsed x) =>
              (withRaw (Set_ idx (Scalar x) (flagsRaw fs)) fs, None)
          | Some (true, Parsed x) =>
              (withRaw (Set_ idx (Append (FieldByIndex (flagsRaw fs) idx) x)
                              (flagsRaw fs)) fs, None)
          end
    end.

(** The zero value [unsetFlag] writes; [None] is its [default] case. *)
Definition zero (valueType : string) : option value :=
  if String.eqb valueType "bool" then Some (Scalar (VBool false))
  else if String.eqb valueType "float64" then Some (Scalar (VFloat float64_zero))
  else if String.eqb valueType "int" then Some (Scalar (VInt 0))
  else if String.eqb valueType "int64" then Some (Scalar (VInt 0))
  else if String.eqb valueType "uint" then Some (Scalar (VUint 0))
  else if String.eqb valueType "uint64" then Some (Scalar (VUint 0))
  else if String.eqb valueType "string" then Some (Scalar (VString ""))
  else if String.eqb valueType "[]bool" then Some (Slice [])
  else if String.eqb valueType "[]float64" then Some (Slice [])
  else if String.eqb valueType "[]int" then Some (Slice [])
  else if String.eqb valueType "[]int64" then Some (Slice [])
  else if String.eqb valueType "[]uint" then Some (Slice [])
  else if String.eqb valueType "[]uint64" then Some (Slice [])
  else if String.eqb valueType "[]string" then Some (Slice [])
  else None.

Definition unsetFlag (fs : FlagSet) (id : Z) : FlagSet * option error :=
  if Z.ltb id 0 then (fs, Some "flag id is required")
  else
    match lookupFlagByID fs id with
    | None => (fs, Some ("no flag for id " +:+ pretty id))
    | Some flag =>
        let idx := f_fieldIndex flag in
        if negb (CanSet (flagsRaw fs) idx)
        then (fs, Some ("flag " +:+ f_name flag +:+ " can't be set"))
        else
          match zero (f_valueType flag) with
          | None => (fs, Some (invalidType (f_valueType flag)))
          | Some z => (withRaw (Set_ idx z (flagsRaw fs)) fs, None)
          end
    end.

(** *** checkFlags *)

(** The local type [f] of [checkFlags]: the field that declared a name and
    its parent index (the code keeps the index as printed by [fmt.Sprint]). *)
Record declared := mkDeclared {
  d_name : string;
  d_parent : list nat
}.

Record checkState := mkCheckState {
  result : list error;
  shorts : gmap string declared;
  longs : gmap string declared;
  commandsSeen : gmap string declared
}.

Definition sameParent (m : gmap string declared) (key : string) (parent : list nat) : option declared :=
  match m !! key with
  | Some d => if Index_eqb (d_parent d) parent then Some d else None
  | None => None
  end.

Definition checkShort (v : Flag) (st : checkState) : checkState :=
  let parent := f_parentIndex v in
  if isEmpty (f_short v) then st
  else
    match sameParent (shorts st) (f_short v) parent with
    | Some sf =>
        mkCheckState
          (result st ++ ["short argument " +:+ f_short v +:+ " in " +:+ f_name v
                           +:+ " field is already defined in " +:+ d_name sf +:+ " field"])
          (shorts st) (longs st) (commandsSeen st)
    | None =>
        if Nat.ltb 1 (String.length (f_short v))
        then mkCheckState
               (result st ++ ["short argument " +:+ f_short v +:+ " in " +:+ f_name v
                                +:+ " field must be one character long"])
               (shorts st) (longs st) (commandsSeen st)
        else mkCheckState (result st)
               (<[f_short v := mkDeclared (f_name v) parent]> (shorts st))
               (longs st) (commandsSeen st)
    end.

Definition checkLong (v : Flag) (st : checkState) : checkState :=
  let parent := f_parentIndex v in
  if isEmpty (f_long v) then st
  else
    match sameParent (longs st) (f_long v) parent with
    | Some lf =>
        mkCheckState
          (result st ++ ["long argument " +:+ f_long v +:+ " in " +:+ f_name v
                           +:+ " field is already defined in " +:+ d_name lf +:+ " field"])
          (shorts st) (longs st) (commandsSeen st)
    | None =>
        mkCheckState (result st) (shorts st)
          (<[f_long v := mkDeclared (f_name v) parent]> (longs st))
          (commandsSeen st)
    end.

Definition checkCommand (v : Flag) (st : checkState) : checkState :=
  let parent := f_parentIndex v in
  if isEmpty (f_command v) then st
  else
    match sameParent (commandsSeen st) (f_command v) parent with
    | Some cf =>
        mkCheckState
          (result st ++ ["command " +:+ f_command v +:+ " in " +:+ f_name v
                           +:+ " field is already defined in " +:+ d_name cf +:+ " field"])
          (shorts st) (longs st) (commandsSeen st)
    | None =>
        mkCheckState (result st) (shorts st) (longs st)
          (<[f_command v := mkDeclared (f_name v) parent]> (commandsSeen st))
    end.

Definition checkType (v : Flag) (st : checkState) : checkState :=
  if existsb (String.eqb (f_valueType v)) supportedFlagTypes then st
  else mkCheckState (result st ++ [invalidType (f_valueType v)])
         (shorts st) (longs st) (commandsSeen st).

Definition checkFlag (st : checkState) (v : Flag) : checkState :=
  checkType v (checkCommand v (checkLong v (checkShort v st))).

Definition checkFlags (l : list Flag) : list error :=
  result (fold_left checkFlag l (mkCheckState [] ∅ ∅ ∅)).

(** *** structToFlags *)

(** The parent id of a flag: the id of the last flag whose field index is
    the flag's parent index (the inner loop does not break). *)
Definition linkParent (all : list Flag) (v : Flag) : Flag :=
  if isNil (f_parentIndex v) then v
  else fold_left
         (fun v vv => if Index_eqb (f_parentIndex v) (f_fieldIndex vv)
                      then flag_parentID (f_id vv) v else v)
         all v.

(** [structToFlags], from the flags that [structFieldToFlag] makes of the
    fields that [typeToStructField] lists, ids and indexes assigned: the
    walk over the Go type is [reflect]'s and stays outside. *)
Definition structToFlags (fields : list Flag) : list Flag + list error :=
  let result :=
    List.filter
      (fun flag => negb (isEmpty (f_short flag) && isEmpty (f_long flag)
                         && negb (Kind_eqb (f_kind flag) KindCommand)))
      fields in
  match checkFlags result with
  | [] => inl (map (linkParent result) result)
  | errs => inr errs
  end.

(** *** parseCommands *)

(** First loop: one command per command flag, in the order of the flags.
    [lookup] is the map from flag id to command id. *)
Definition declareCommand (fs : FlagSet)
    (st : list Command * gmap Z Z * Z) (flag : Flag) : list Command * gmap Z Z * Z :=
  let '(cmds, lookup, cnt) := st in
  if Kind_eqb (f_kind flag) KindCommand then
    let lookup := <[f_id flag := cnt]> lookup in
    let parentID :=
      if isNil (f_parentIndex flag) then -1
      else match lookupFlagByIndex fs (f_parentIndex flag) with
           | Some parentFlag =>
               match lookup !! f_id parentFlag with
               | Some pid => pid
               | None => -1
               end
           | None => -1
           end in
    ((cmds ++ [mkCommand cnt (f_command flag) (f_id flag) parentID (-1) (-1) (-1)])%list,
     lookup, cnt + 1)
  else st.

Definition declareCommands (fs : FlagSet) : list Command :=
  (fold_left (declareCommand fs) (flags fs) ([], ∅, 0)).1.1.

(** Some command has been found before [argIndex] (the loop over [j]). *)
Definition foundBefore (cmds : list Command) (argIndex : Z) : bool :=
  existsb (fun c => negb (Z.eqb (c_argID c) (-1)) && Z.ltb (c_argID c) argIndex) cmds.

(** The loop over [i] for one raw argument, from the command positions
    still to visit; it stops at the first command it accepts. *)
Fixpoint locate (argIndex : Z) (argVal : string) (todo : list nat)
    (cmds : list Command) : list Command :=
  match todo with
  | [] => cmds
  | i :: todo' =>
      match cmds !! i with
      | None => cmds
      | Some cmd =>
          if Z.eqb (c_argID cmd) (-1) && String.eqb (c_command cmd) argVal then
            let found :=
              if negb (Z.eqb (c_parentID cmd) (-1))
              then foundBefore cmds argIndex
              else true in
            if found then
              let cmds := alter (command_found argIndex) i cmds in
              match i with
              | S p =>
                  match cmds !! p with
                  | Some prevCmd =>
                      if negb (Z.eqb (c_argID prevCmd) (-1))
                      then alter (command_indexTo argIndex) p cmds
                      else cmds
                  | None => cmds
                  end
              | O => cmds
              end
            else locate argIndex argVal todo' cmds
          else locate argIndex argVal todo' cmds
      end
  end.

Definition locateAll (raw : list string) (cmds : list Command) : list Command :=
  fold_left
    (fun cmds '(argIndex, argVal) =>
       locate (Z.of_nat argIndex) argVal (seq 0 (length cmds)) cmds)
    (imap (fun i v => (i, v)) raw) cmds.

(** Third loop: the end of the range of a command found and still open. *)
Definition closeCommand (lenRaw : Z) (cmds : list Command) (i : nat) : list Command :=
  match cmds !! i with
  | None => cmds
  | Some cmd =>
      if Z.eqb (c_argID cmd) (-1) || negb (Z.eqb (c_indexTo cmd) (-1)) then cmds
      else
        match List.find (fun c => negb (Z.eqb (c_indexFrom c) (-1))) (drop (S i) cmds) with
        | Some next => alter (command_indexTo (c_indexFrom next)) i cmds
        | None => alter (command_indexTo lenRaw) i cmds
        end
  end.

Definition closeCommands (lenRaw : Z) (cmds : list Command) : list Command :=
  fold_left (closeCommand lenRaw) (seq 0 (length cmds)) cmds.

(** A write to the first element that passes the test (a loop that
    breaks at its first match). *)
Fixpoint alterFirst {A} (test : A -> bool) (g : A -> A) (l : list A) : list A :=
  match l with
  | [] => []
  | x :: l' => if test x then g x :: l' else x :: alterFirst test g l'
  end.

Definition parseCommands (fs : FlagSet) : FlagSet :=
  let cmds := declareCommands fs in
  let cmds := locateAll (argsRaw fs) cmds in
  let cmds := closeCommands (Z.of_nat (length (argsRaw fs))) cmds in
  let fl :=
    fold_left
      (fun fl cmd =>
         alterFirst (fun flag => Z.eqb (c_flagID cmd) (f_id flag))
                    (flag_commandID (c_id cmd)) fl)
      cmds (flags fs) in
  mkFlagSet fl (flagsRaw fs) (args fs) (argsRaw fs) (argsParsed fs) cmds true.

(** *** parseArgs *)

(** First loop: the argument made of the raw argument at [argIndex]. *)
Definition newArg (cmds : list Command) (argIndex : Z) (argVal : string) : Arg :=
  let hit :=
    List.find
      (fun cmd =>
         Z.eqb argIndex (c_argID cmd)
         || (Z.ltb (c_indexFrom cmd) argIndex && Z.geb (c_indexTo cmd) (argIndex + 1)))
      cmds in
  match hit with
  | Some cmd =>
      if Z.eqb argIndex (c_argID cmd)
      then mkArg argIndex argVal argVal "" "" false false false KindCommand
             (c_flagID cmd) (c_id cmd) (-1) (c_indexFrom cmd) (c_indexTo cmd) None
      else mkArg argIndex argVal "" "" "" false false false KindArg
             (-1) (c_id cmd) (-1) argIndex (argIndex + 1) None
  | None =>
      mkArg argIndex argVal "" "" "" false false false KindArg
        (-1) (-1) (-1) argIndex (argIndex + 1) None
  end.

(** The quotes taken off a value: [strings.Trim] with the quote the value
    starts with. *)
Definition trimQuotes (v : string) : string :=
  if HasPrefix v (String dquote "") then Trim v dquote
  else if HasPrefix v (String squote "") then Trim v squote
  else v.

(** The end of a turn of the second loop: [--arg=] and the like. *)
Definition markUnset (arg : Arg) : Arg :=
  if a_hasEq arg && isEmpty (a_value arg) then arg_unset true arg else arg.

(** Second loop, one turn, in its steps.  The name and the dash. *)
Definition nameAndDash (arg : Arg) : Arg :=
  let arg := arg_name (TrimSpace (TrimLeft (a_arg arg) dash)) arg in
  if HasPrefix (a_arg arg) "--" then arg_dash "--" arg
  else if HasPrefix (a_arg arg) "-" then arg_dash "-" arg
  else arg.

(** [ieq > -1 && (ieq < iqo || iqo == -1)]. *)
Definition hasEquals (name : string) : bool :=
  let ieq := Index name equals in
  let iqo := Index name dquote in
  let iqo := if Z.eqb iqo (-1) then Index name squote else iqo in
  Z.ltb (-1) ieq && (Z.ltb ieq iqo || Z.eqb iqo (-1)).

(** [--arg=value]. *)
Definition takeValue (arg : Arg) : Arg :=
  let arg := arg_hasEq true arg in
  let s := SplitN2 (a_name arg) equals in
  let arg := arg_name (hd "" s) arg in
  arg_value (trimQuotes (Join (tl s))) arg.

(** [--arg value]: the argument with the value of the next one, and the
    next one as its value. *)
Definition takeNext (arg nextArg : Arg) : Arg * Arg :=
  let arg := arg_indexTo (a_indexTo nextArg)
               (arg_value (trimQuotes (a_arg nextArg)) arg) in
  (arg,
   arg_parentID (a_id arg) (arg_value (a_value arg) (arg_kind KindArgval nextArg))).

Definition parseArg (l : list Arg) (argIndex : nat) : list Arg :=
  match l !! argIndex with
  | None => l
  | Some arg =>
      if negb (Kind_eqb (a_kind arg) KindArg) then l
      else
        let arg := nameAndDash arg in
        if isEmpty (a_dash arg) then <[argIndex := arg_unnamed true arg]> l
        else if hasEquals (a_name arg) then
          <[argIndex := markUnset (takeValue arg)]> l
        else
          match l !! S argIndex with
          | Some nextArg =>
              if Kind_eqb (a_kind nextArg) KindArg
                 && negb (HasPrefix (a_arg nextArg) "-")
              then
                let '(arg, nextArg) := takeNext arg nextArg in
                <[S argIndex := nextArg]> (<[argIndex := markUnset arg]> l)
              else <[argIndex := markUnset arg]> l
          | None => <[argIndex := markUnset arg]> l
          end
  end.

(** Third loop, one turn: the arguments of the flag at position [k]. *)
Definition matches (flag : Flag) (arg : Arg) : bool :=
  negb (isEmpty (a_name arg))
  && (String.eqb (f_short flag) (a_name arg) || String.eqb (f_long flag) (a_name arg)).

Definition collect (k : nat) (fs : FlagSet) : FlagSet :=
  match flags fs !! k with
  | None => fs
  | Some flag =>
      match f_kind flag with
      | KindCommand =>
          match List.find
                  (fun cmd => negb (Z.eqb (c_argID cmd) (-1))
                              && Z.eqb (c_flagID cmd) (f_id flag))
                  (commands fs) with
          | Some cmd =>
              let own :=
                List.filter
                  (fun i => match args fs !! i with
                            | Some arg => Z.eqb (a_commandID arg) (c_id cmd)
                            | None => false
                            end)
                  (seq 0 (length (args fs))) in
              onFlag k (fun flag => flag_args (f_args flag ++ own) flag) fs
          | None => fs
          end
      | KindArg =>
          if negb (Z.eqb (f_parentID flag) (-1)) then
            match lookupFlagByIndex fs (f_parentIndex flag) with
            | Some parentFlag =>
                fold_left
                  (fun fs p =>
                     match args fs !! p with
                     | Some pArg =>
                         if matches flag pArg then
                           onFlag k (fun flag =>
                                       flag_args (f_args flag ++ [p])
                                         (flag_commandID (a_commandID pArg) flag))
                             (onArg p (arg_flagID (f_id flag)) fs)
                         else fs
                     | None => fs
                     end)
                  (f_args parentFlag) fs
            | None => fs
            end
          else
            fold_left
              (fun fs i =>
                 match args fs !! i with
                 | Some arg =>
                     if Z.eqb (a_commandID arg) (-1) && matches flag arg then
                       onFlag k (fun flag => flag_args (f_args flag ++ [i]) flag)
                         (onArg i (arg_flagID (f_id flag)) fs)
                     else fs
                 | None => fs
                 end)
              (seq 0 (length (args fs))) fs
      | _ => fs
      end
  end.

Definition parseArgs (fs : FlagSet) : FlagSet :=
  let parsed := if commandsParsed fs then fs else parseCommands fs in
  if commandsParsed fs && argsParsed fs then fs
  else
    let fs := parsed in
    let l := imap (fun i v => newArg (commands fs) (Z.of_nat i) v) (argsRaw fs) in
    let l := fold_left parseArg (seq 0 (length l)) l in
    let fs := withArgs l fs in
    let fs := fold_left (fun fs k => collect k fs) (seq 0 (length (flags fs))) fs in
    mkFlagSet (flags fs) (flagsRaw fs) (args fs) (argsRaw fs) true
      (commands fs) (commandsParsed fs).

(** *** New *)

(** What [New] is given: the struct behind [Flags], the flags of its
    fields (see [structToFlags]) and the raw arguments.  A [nil] [Flags]
    and a [Flags] that is no struct pointer have no counterpart here. *)
Record Options := mkOptions {
  Flags : Struct;
  Fields : list Flag;
  Args : list string
}.

Definition needsValue (arg : Arg) : error :=
  "argument " +:+ a_dash arg +:+ a_name arg +:+ " needs a value".

(** The call of [setFlag] on behalf of the argument at [i]: an error goes
    to the argument. *)
Definition store (id : Z) (i : nat) (fs : FlagSet) (v : string) : FlagSet :=
  match setFlag fs id v with
  | (fs, Some err) => onArg i (arg_err (Some err)) fs
  | (fs, None) => fs
  end.

(** The value an argument stands for, and the argument that has none. *)
Definition checkValue (flag : Flag) (arg : Arg) : Arg :=
  let arg :=
    if isBool (f_valueType flag) && isEmpty (a_value arg) && negb (a_unset arg)
    then arg_value "true" arg else arg in
  if isEmpty (a_value arg) then
    if (isBool (f_valueType flag) && a_unset arg)
       || (isString (f_valueType flag) && negb (a_unset arg))
    then arg_err (Some (needsValue arg)) arg
    else if negb (isBool (f_valueType flag)) && negb (isString (f_valueType flag))
    then arg_err (Some (needsValue arg)) arg
    else arg
  else arg.

(** The pieces of a delimited value, each stored unless it is empty. *)
Definition storeEach (id : Z) (i : nat) (fs : FlagSet) (values : list string) : FlagSet :=
  fold_left
    (fun fs v =>
       let v := TrimSpace v in
       if isEmpty v then fs else store id i fs v)
    values fs.

(** First loop of [New], one turn of the inner loop: the argument at
    position [i] applied to the flag at position [k]. *)
Definition applyArg (k : nat) (fs : FlagSet) (i : nat) : FlagSet :=
  match flags fs !! k, args fs !! i with
  | Some flag, Some arg =>
      if negb (Kind_eqb (a_kind arg) KindArg) then fs
      else
        let fs := onFlag k (flag_valueBy ByArg) fs in
        let arg := checkValue flag arg in
        let fs := onArg i (fun _ => arg) fs in
        match a_err arg with
        | Some _ => fs
        | None =>
            if negb (isEmpty (f_delimiter flag)) && HasPrefix (f_valueType flag) "[]"
            then storeEach (f_id flag) i fs (Split (a_value arg) (f_delimiter flag))
            else store (f_id flag) i fs (a_value arg)
        end
  | _, _ => fs
  end.

Definition applyArgs (fs : FlagSet) (k : nat) : FlagSet :=
  match flags fs !! k with
  | Some flag =>
      if negb (Kind_eqb (f_kind flag) KindArg) then fs
      else fold_left (applyArg k) (f_args flag) fs
  | None => fs
  end.

(** Second loop of [New], one turn. *)
Definition fallBack (k : nat) (id : Z) (by_ : ValueBy) (v : string) (fs : FlagSet) : FlagSet :=
  let fs := onFlag k (flag_valueBy by_) fs in
  match setFlag fs id v with
  | (fs, Some err) => onFlag k (flag_err (Some err)) fs
  | (fs, None) => fs
  end.

(** The flag is unset for each of its arguments that has an error. *)
Definition rollback (k : nat) (id : Z) (fs : FlagSet) (i : nat) : FlagSet :=
  match args fs !! i with
  | Some arg =>
      match a_err arg with
      | Some _ =>
          match unsetFlag fs id with
          | (fs, Some err) => onFlag k (flag_err (Some err)) fs
          | (fs, None) => fs
          end
      | None => fs
      end
  | None => fs
  end.

Definition resolve (fs : FlagSet) (k : nat) : FlagSet :=
  match flags fs !! k with
  | Some flag =>
      if ValueBy_eqb (f_valueBy flag) ByArg then
        fold_left (rollback k (f_id flag)) (f_args flag) fs
      else
        match LookupEnv (f_env flag) with
        | Some ev => fallBack k (f_id flag) ByEnv ev fs
        | None =>
            if negb (isEmpty (f_valueDefault flag))
            then fallBack k (f_id flag) ByDefault (f_valueDefault flag) fs
            else fs
        end
  | None => fs
  end.

(** Third loop of [New], one turn. *)
Definition isRequired (arg command : string) : error :=
  let eMsg := "argument " +:+ arg +:+ " is required" in
  if negb (isEmpty command) then eMsg +:+ " for " +:+ command +:+ " command"
  else eMsg.

Definition require (fs : FlagSet) (k : nat) : FlagSet :=
  match flags fs !! k with
  | Some flag =>
      if negb (f_required flag) then fs
      else if negb (isNil (f_args flag)) then fs
      else
        match f_kind flag with
        | KindCommand =>
            onFlag k (flag_err (Some ("command " +:+ f_command flag +:+ " is required"))) fs
        | KindArg =>
            let parentFlag :=
              if negb (isNil (f_parentIndex flag))
              then lookupFlagByIndex fs (f_parentIndex flag)
              else None in
            let command :=
              match parentFlag with Some p => f_command p | None => "" end in
            if match parentFlag with Some p => isNil (f_args p) | None => false end
            then fs
            else
              let arg :=
                if negb (isEmpty (f_short flag)) then "-" +:+ f_short flag
                else if negb (isEmpty (f_long flag)) then "--" +:+ f_long flag
                else "" in
              onFlag k (flag_err (Some (isRequired arg command))) fs
        | _ => fs
        end
  | None => fs
  end.

Definition each (body : FlagSet -> nat -> FlagSet) (fs : FlagSet) : FlagSet :=
  fold_left body (seq 0 (length (flags fs))) fs.

Definition New (options : Options) : FlagSet + error :=
  match structToFlags (Fields options) with
  | inr errs => inr (hd "" errs)
  | inl fl =>
      let flagSet := mkFlagSet fl (Flags options) [] (Args options) false [] false in
      let flagSet := parseArgs flagSet in
      let flagSet := each applyArgs flagSet in
      let flagSet := each resolve flagSet in
      let flagSet := each require flagSet in
      inl flagSet
  end.

(** [Errors]: per flag, its own error and then those of its arguments. *)
Definition Errors (fs : FlagSet) : list error :=
  flat_map
    (fun flag =>
       (match f_err flag with Some e => [e] | None => [] end)
       ++ flat_map
            (fun i =>
               match args fs !! i with
               | Some arg => match a_err arg with Some e => [e] | None => [] end
               | None => []
               end)
            (f_args flag))%list
    (flags fs).


(** *** FlagByName and FlagArgs *)

(** The loop of [FlagByName] over the names of a path: at each name the
    first flag of that name under the flag found last; [result] is the flag
    found last. *)
Fixpoint walk (fl : list Flag) (names : list string) (curParentID : Z)
    (result : option Flag) : option Flag :=
  match names with
  | [] => result
  | name :: names' =>
      match List.find
              (fun flag => negb (negb (Z.eqb (f_parentID flag) curParentID)
                                 || negb (String.eqb (f_name flag) name)))
              fl with
      | Some flag => walk fl names' (f_id flag) (Some flag)
      | None => None
      end
  end.

Definition FlagByName (fs : FlagSet) (name : string) : option Flag :=
  if isEmpty name then None
  else walk (flags fs) (Split name ".") (-1) None.

(** The text [FlagArgs] gives for an argument of a command. *)
Definition commandArg (v : Arg) : string :=
  if Kind_eqb (a_kind v) KindArg then
    let arg := a_dash v in
    let arg := if negb (isEmpty (a_name v)) then arg +:+ a_name v else arg in
    if negb (isEmpty (a_value v)) then arg +:+ "=" +:+ a_value v else arg
  else a_name v.

(** [FlagArgs]; the [nil] slice is the empty list. *)
Definition FlagArgs (fs : FlagSet) (name : string) : list string :=
  if isEmpty name then []
  else
    match FlagByName fs name with
    | None => []
    | Some flag =>
        flat_map
          (fun i =>
             match args fs !! i with
             | Some v =>
                 match f_kind flag with
                 | KindArg => [a_value v]
                 | KindCommand => [commandArg v]
                 | _ => []
                 end
             | None => []
             end)
          (f_args flag)
    end.
(** ** Properties of the string helpers *)

Local Abbreviation chars := list_ascii_of_string.
Local Abbreviation text := string_of_list_ascii.

Lemma append_cons c s t : String c s +:+ t = String c (s +:+ t).
Proof. reflexivity. Qed.

Lemma chars_app s t : chars (s +:+ t) = (chars s ++ chars t)%list.
Proof.
  induction s as [|c s IH]; [done|].
  rewrite append_cons. simpl. rewrite IH. done.
Qed.

Lemma text_app l m : text (l ++ m) = text l +:+ text m.
Proof. induction l as [|c l IH]; simpl; [done|]. rewrite IH. done. Qed.

Lemma rev_app s t : rev (s +:+ t) = rev t +:+ rev s.
Proof. unfold rev. rewrite chars_app, rev_app_distr, text_app. done. Qed.

Lemma rev_rev s : rev (rev s) = s.
Proof.
  unfold rev. rewrite list_ascii_of_string_of_list_ascii, rev_involutive.
  apply string_of_list_ascii_of_string.
Qed.

Lemma rev_String c s : rev (String c s) = rev s +:+ String c "".
Proof. change (String c s) with (String c "" +:+ s). rewrite rev_app. done. Qed.

Lemma append_empty s : s +:+ "" = s.
Proof. induction s as [|c s IH]; [done|]. rewrite append_cons, IH. done. Qed.

Lemma append_assoc s t u : (s +:+ t) +:+ u = s +:+ (t +:+ u).
Proof. induction s as [|c s IH]; [done|]. rewrite !append_cons, IH. done. Qed.

(** The characters kept in a short, long or command name:
    [[a-zA-Z0-9-_.]]. *)
Definition nameChar (c : ascii) : bool :=
  let n := N_of_ascii c in
  (N.leb 97 n && N.leb n 122) || (N.leb 65 n && N.leb n 90)
  || (N.leb 48 n && N.leb n 57)
  || N.eqb n 45 || N.eqb n 95 || N.eqb n 46.

Fixpoint isName (s : string) : bool :=
  match s with
  | EmptyString => true
  | String c s' => nameChar c && isName s'
  end.

(** No double quote and no single quote. *)
Fixpoint quoteFree (s : string) : bool :=
  match s with
  | EmptyString => true
  | String c s' =>
      negb (Ascii.eqb c dquote) && negb (Ascii.eqb c squote) && quoteFree s'
  end.

Lemma TrimLeft_app s c a r :
  a <> c -> TrimLeft (s +:+ String a r) c = TrimLeft s c +:+ String a r.
Proof.
  intros Hac. induction s as [|b s IH].
  - simpl. destruct (Ascii.eqb_spec a c); done.
  - rewrite append_cons. simpl. destruct (Ascii.eqb b c); done.
Qed.

Lemma isName_TrimLeft s : isName s = true -> isName (TrimLeft s dash) = true.
Proof.
  induction s as [|b s IH]; simpl; [done|].
  intros H. apply andb_prop in H as [H1 H2].
  destruct (Ascii.eqb b dash); [auto|]. simpl. rewrite H1, H2. done.
Qed.

(** An encoding of [sp] starts with the byte [c], or is empty. *)
Definition startsAt (sp : list string) (c : ascii) : bool :=
  existsb (fun e => match e with
                    | EmptyString => true
                    | String a _ => Ascii.eqb a c
                    end) sp.

Lemma find_prefix_none sp c r :
  startsAt sp c = false ->
  List.find (fun e => String.prefix e (String c r)) sp = None.
Proof.
  induction sp as [|e sp IH]; simpl; [done|].
  intros H. apply orb_false_elim in H as [H1 H2].
  destruct e as [|a e]; [done|]. simpl.
  destruct (ascii_dec a c) as [->|_]; [rewrite Ascii.eqb_refl in H1; done|].
  apply IH. done.
Qed.

Lemma trimLeading_id sp fuel c r :
  startsAt sp c = false -> trimLeading sp fuel (String c r) = String c r.
Proof.
  intros H. destruct fuel; simpl; [done|].
  change (match List.find (fun e => String.prefix e (String c r)) sp with
          | Some e => trimLeading sp fuel (dropBytes (String.length e) (String c r))
          | None => String c r
          end = String c r).
  rewrite find_prefix_none by done. done.
Qed.

(** A string that neither starts nor ends with white space is its own
    trimmed form. *)
Lemma TrimSpace_id c r d t :
  startsAt spaces c = false ->
  rev (String c r) = String d t ->
  startsAt (map rev spaces) d = false ->
  TrimSpace (String c r) = String c r.
Proof.
  intros H1 Hr H2. unfold TrimSpace.
  rewrite trimLeading_id by done. rewrite Hr.
  rewrite trimLeading_id by done. rewrite <- Hr. apply rev_rev.
Qed.

Lemma TrimSpace_empty : TrimSpace "" = "".
Proof. reflexivity. Qed.

Lemma nameChar_start c : nameChar c = true -> startsAt spaces c = false.
Proof.
  destruct c as [[] [] [] [] [] [] [] []]; vm_compute; congruence.
Qed.

Lemma nameChar_end c : nameChar c = true -> startsAt (map rev spaces) c = false.
Proof.
  destruct c as [[] [] [] [] [] [] [] []]; vm_compute; congruence.
Qed.

Lemma nameChar_plain c :
  nameChar c = true -> c <> equals /\ c <> dquote /\ c <> squote.
Proof.
  destruct c as [[] [] [] [] [] [] [] []]; vm_compute; intros H;
    repeat split; congruence.
Qed.

Lemma Index_ge s c : -1 <= Index s c.
Proof.
  induction s as [|a s IH]; simpl; [lia|].
  destruct (Ascii.eqb a c); [lia|].
  destruct (Z.eqb_spec (Index s c) (-1)); lia.
Qed.

Lemma Index_name n r c :
  isName n = true -> nameChar c = false ->
  Index (n +:+ r) c
  = if Z.eqb (Index r c) (-1) then -1
    else Z.of_nat (String.length n) + Index r c.
Proof.
  intros Hn Hc. induction n as [|b n IH].
  - change ("" +:+ r) with r. cbn [String.length].
    destruct (Z.eqb_spec (Index r c) (-1)); lia.
  - rewrite append_cons. simpl in Hn. apply andb_prop in Hn as [Hb Hn].
    cbn [Index String.length].
    destruct (Ascii.eqb_spec b c) as [->|_]; [congruence|].
    rewrite (IH Hn). pose proof (Index_ge r c).
    destruct (Z.eqb_spec (Index r c) (-1)); [done|].
    destruct (Z.eqb_spec (Z.of_nat (String.length n) + Index r c) (-1)); lia.
Qed.

Lemma SplitN2_name n w :
  isName n = true -> SplitN2 (n +:+ String equals w) equals = [n; w].
Proof.
  intros Hn. induction n as [|b n IH]; [done|].
  rewrite append_cons. simpl in Hn. apply andb_prop in Hn as [Hb Hn].
  cbn [SplitN2]. destruct (nameChar_plain b Hb) as (Hne & _).
  destruct (Ascii.eqb_spec b equals); [done|]. rewrite (IH Hn). done.
Qed.

(** [ieq > -1 && (ieq < iqo || iqo == -1)] for a name followed by [=]. *)
Lemma equals_found n w :
  isName n = true ->
  let body := n +:+ String equals w in
  let ieq := Index body equals in
  let iqo := Index body dquote in
  let iqo := if Z.eqb iqo (-1) then Index body squote else iqo in
  Z.ltb (-1) ieq && (Z.ltb ieq iqo || Z.eqb iqo (-1)) = true.
Proof.
  intros Hn. cbn zeta.
  rewrite !(Index_name n) by done.
  cbn [Index]. rewrite Ascii.eqb_refl.
  change (Ascii.eqb equals dquote) with false.
  change (Ascii.eqb equals squote) with false.
  pose proof (Index_ge w dquote). pose proof (Index_ge w squote).
  cbn [Z.eqb].
  repeat match goal with
         | |- context [Z.eqb ?a ?b] => destruct (Z.eqb_spec a b)
         | |- context [Z.ltb ?a ?b] => destruct (Z.ltb_spec a b)
         end; simpl; try done; lia.
Qed.

Lemma quoteFree_app s t : quoteFree (s +:+ t) = quoteFree s && quoteFree t.
Proof.
  induction s as [|c s IH]; [done|].
  rewrite append_cons. simpl. rewrite IH, andb_assoc. done.
Qed.

Lemma quoteFree_rev s : quoteFree s = true -> quoteFree (rev s) = true.
Proof.
  induction s as [|c s IH]; [done|].
  rewrite rev_String, quoteFree_app. simpl.
  intros H. apply andb_prop in H as [H1 H2]. rewrite (IH H2), H1. done.
Qed.

Lemma TrimLeft_quoteFree s q :
  q = dquote \/ q = squote -> quoteFree s = true -> TrimLeft s q = s.
Proof.
  intros Hq. destruct s as [|c s]; [done|]. simpl.
  intros H. apply andb_prop in H as [H _]. apply andb_prop in H as [H1 H2].
  destruct Hq as [-> | ->].
  - destruct (Ascii.eqb c dquote); done.
  - destruct (Ascii.eqb c squote); done.
Qed.

Lemma TrimLeft_head s q : TrimLeft (String q s) q = TrimLeft s q.
Proof. simpl. rewrite Ascii.eqb_refl. done. Qed.

(** A value in quotes, no quote inside: [strings.Trim] gives the inside. *)
Lemma Trim_quoted q v :
  q = dquote \/ q = squote -> quoteFree v = true ->
  Trim (String q (v +:+ String q "")) q = v.
Proof.
  intros Hq Hv. unfold Trim, TrimRight.
  assert (rev (String q (v +:+ String q "")) = String q (rev v +:+ String q "")) as ->.
  { rewrite rev_String, rev_app. reflexivity. }
  rewrite TrimLeft_head.
  destruct v as [|c v]; [simpl; rewrite Ascii.eqb_refl; done|].
  pose proof (quoteFree_rev _ Hv) as Hr.
  destruct (rev (String c v)) as [|d t] eqn:E.
  { apply (f_equal rev) in E. rewrite rev_rev in E. done. }
  assert (TrimLeft (String d t +:+ String q "") q = String d t +:+ String q "") as ->.
  { rewrite append_cons. simpl. simpl in Hr.
    apply andb_prop in Hr as [Hr _]. apply andb_prop in Hr as [H1 H2].
    destruct Hq as [-> | ->].
    - destruct (Ascii.eqb d dquote); done.
    - destruct (Ascii.eqb d squote); done. }
  assert (rev (String d t +:+ String q "") = String q (String c v)) as ->.
  { rewrite <- E, rev_app, rev_rev. reflexivity. }
  rewrite TrimLeft_head. apply TrimLeft_quoteFree; done.
Qed.

Lemma trimQuotes_quote q w :
  q = dquote \/ q = squote -> trimQuotes (String q w) = Trim (String q w) q.
Proof.
  intros [-> | ->]; destruct w; reflexivity.
Qed.

Lemma trimQuotes_empty : trimQuotes "" = "".
Proof. reflexivity. Qed.

(** The first byte of the string starts no white space; its last byte
    ends none. *)
Definition headClean (u : string) : bool :=
  match u with
  | String c _ => negb (startsAt spaces c)
  | EmptyString => true
  end.

Definition tailClean (u : string) : bool := 
  match rev u with
  | String d _ => negb (startsAt (map rev spaces) d)
  | EmptyString => true
  end.

Lemma isName_app s t : isName (s +:+ t) = isName s && isName t.
Proof.
  induction s as [|c s IH]; [done|].
  rewrite append_cons. simpl. rewrite IH, andb_assoc. done.
Qed.

Lemma isName_rev s : isName s = true -> isName (rev s) = true.
Proof.
  induction s as [|c s IH]; [done|].
  rewrite rev_String, isName_app. simpl.
  intros H. apply andb_prop in H as [H1 H2]. rewrite (IH H2), H1. done.
Qed.

Lemma isName_clean s : isName s = true -> headClean s = true /\ tailClean s = true.
Proof.
  intros H. split.
  - destruct s as [|c s]; [done|]. cbn [isName headClean] in *.
    apply andb_prop in H as [H _]. rewrite nameChar_start; done.
  - unfold tailClean. pose proof (isName_rev _ H) as Hr.
    destruct (rev s) as [|d t]; [done|]. cbn [isName] in Hr.
    apply andb_prop in Hr as [Hr _]. rewrite nameChar_end; done.
Qed.

Lemma rev_empty s : rev s = "" -> s = "".
Proof. intros H. apply (f_equal rev) in H. rewrite rev_rev in H. done. Qed.

Lemma TrimSpace_clean s : headClean s = true -> tailClean s = true -> TrimSpace s = s.
Proof.
  unfold headClean, tailClean. intros H1 H2.
  destruct s as [|c r]; [done|].
  destruct (rev (String c r)) as [|d t] eqn:E; [apply rev_empty in E; done|].
  apply negb_true_iff in H1, H2. eapply TrimSpace_id; done.
Qed.

Lemma TrimSpace_name n u :
  isName n = true -> headClean u = true -> tailClean u = true ->
  TrimSpace (n +:+ u) = n +:+ u.
Proof.
  intros Hn H1 H2. destruct (isName_clean n Hn) as [Hn1 Hn2].
  apply TrimSpace_clean.
  - destruct n as [|c n]; done.
  - unfold tailClean in *. rewrite rev_app.
    destruct (rev u) as [|d t] eqn:E; [|done].
    change ("" +:+ rev n) with (rev n). done.
Qed.

Lemma TrimLeft_dashes d s :
  d = "-" \/ d = "--" -> TrimLeft (d +:+ s) dash = TrimLeft s dash.
Proof. intros [-> | ->]; reflexivity. Qed.

Lemma HasPrefix_dash d s :
  d = "-" \/ d = "--" -> HasPrefix (d +:+ s) "-" = true.
Proof. intros [-> | ->]; [destruct s|]; reflexivity. Qed.

(** ** Properties of the embedding *)

(** *** Reading and writing the struct *)

Lemma Index_eqb_eq (a b : list nat) : Index_eqb a b = true <-> a = b.
Proof. unfold Index_eqb. apply bool_decide_eq_true. Qed.

Lemma Index_eqb_neq (a b : list nat) : a <> b -> Index_eqb a b = false.
Proof. unfold Index_eqb. apply bool_decide_eq_false. Qed.

Lemma Index_eqb_refl (a : list nat) : Index_eqb a a = true.
Proof. apply Index_eqb_eq. reflexivity. Qed.

Lemma Set_same idx v s : FieldByIndex (Set_ idx v s) idx = v.
Proof. cbn [Set_ FieldByIndex]. rewrite Index_eqb_refl. done. Qed.

Lemma Set_other idx j v s :
  j <> idx -> FieldByIndex (Set_ idx v s) j = FieldByIndex s j.
Proof. intros H. cbn [Set_ FieldByIndex]. rewrite Index_eqb_neq; done. Qed.

(** What a call of [setFlag] leaves in the field of the flag, and the error
    it returns, once the flag is found and its field can be set. *)
Definition assigned (valueType : string) (old : value) (v : string) : value :=
  match convert valueType v with
  | Some (false, Parsed x) => Scalar x
  | Some (true, Parsed x) => Append old x
  | _ => old
  end.

Definition refused (valueType v : string) : option error :=
  match convert valueType v with
  | None => Some (invalidType valueType)
  | Some (_, Failed e) => Some e
  | _ => None
  end.

Lemma setFlag_flags fs id v : flags (setFlag fs id v).1 = flags fs.
Proof. unfold setFlag. repeat case_match; done. Qed.

Lemma setFlag_args fs id v : args (setFlag fs id v).1 = args fs.
Proof. unfold setFlag. repeat case_match; done. Qed.

Lemma setFlag_CanSet fs id v :
  CanSet (flagsRaw (setFlag fs id v).1) = CanSet (flagsRaw fs).
Proof. unfold setFlag. repeat case_match; done. Qed.

Lemma setFlag_other fs id v j :
  (forall f, lookupFlagByID fs id = Some f -> f_fieldIndex f <> j) ->
  FieldByIndex (flagsRaw (setFlag fs id v).1) j = FieldByIndex (flagsRaw fs) j.
Proof.
  intros H. unfold setFlag.
  destruct (Z.ltb id 0); [done|].
  destruct (lookupFlagByID fs id) as [flag|] eqn:E; [|done].
  specialize (H flag eq_refl).
  repeat case_match; try done; cbn [fst withRaw flagsRaw];
    rewrite Set_other; done.
Qed.

Lemma setFlag_own fs id v flag :
  lookupFlagByID fs id = Some flag ->
  CanSet (flagsRaw fs) (f_fieldIndex flag) = true ->
  FieldByIndex (flagsRaw (setFlag fs id v).1) (f_fieldIndex flag)
    = assigned (f_valueType flag) (FieldByIndex (flagsRaw fs) (f_fieldIndex flag)) v
  /\ (setFlag fs id v).2 = refused (f_valueType flag) v.
Proof.
  intros Hl Hc. unfold setFlag, assigned, refused.
  assert (Z.ltb id 0 = false) as ->.
  { unfold lookupFlagByID in Hl. destruct (Z.ltb id 0); done. }
  rewrite Hl, Hc. cbn [negb].
  destruct (convert (f_valueType flag) v) as [[[] []]|];
    cbn [fst snd withRaw flagsRaw]; rewrite ?Set_same; done.
Qed.

Lemma unsetFlag_flags fs id : flags (unsetFlag fs id).1 = flags fs.
Proof. unfold unsetFlag. repeat case_match; done. Qed.

Lemma unsetFlag_args fs id : args (unsetFlag fs id).1 = args fs.
Proof. unfold unsetFlag. repeat case_match; done. Qed.

Lemma unsetFlag_CanSet fs id :
  CanSet (flagsRaw (unsetFlag fs id).1) = CanSet (flagsRaw fs).
Proof. unfold unsetFlag. repeat case_match; done. Qed.

Lemma unsetFlag_other fs id j :
  (forall f, lookupFlagByID fs id = Some f -> f_fieldIndex f <> j) ->
  FieldByIndex (flagsRaw (unsetFlag fs id).1) j = FieldByIndex (flagsRaw fs) j.
Proof.
  intros H. unfold unsetFlag.
  destruct (Z.ltb id 0); [done|].
  destruct (lookupFlagByID fs id) as [flag|] eqn:E; [|done].
  specialize (H flag eq_refl).
  repeat case_match; try done; cbn [fst withRaw flagsRaw];
    rewrite Set_other; done.
Qed.

Lemma unsetFlag_own fs id flag z :
  lookupFlagByID fs id = Some flag ->
  CanSet (flagsRaw fs) (f_fieldIndex flag) = true ->
  zero (f_valueType flag) = Some z ->
  FieldByIndex (flagsRaw (unsetFlag fs id).1) (f_fieldIndex flag) = z
  /\ (unsetFlag fs id).2 = None.
Proof.
  intros Hl Hc Hz. unfold unsetFlag.
  assert (Z.ltb id 0 = false) as ->.
  { unfold lookupFlagByID in Hl. destruct (Z.ltb id 0); done. }
  rewrite Hl, Hc, Hz. cbn [negb fst snd withRaw flagsRaw].
  rewrite Set_same. done.
Qed.

(** *** What the loops of [New] keep *)

(** The declaration of a flag: all but [valueBy] and [err], the two fields
    the loops of [New] write. *)
Definition decl (f : Flag) : Flag := flag_err None (flag_valueBy ByNone f).

(** An argument before and after some turns of the first loop: only its
    value and error change, an error stays an error, and a value is kept
    unless it is the empty value of an argument written without [=]. *)
Definition argStep (a a' : Arg) : Prop :=
  arg_err None (arg_value "" a') = arg_err None (arg_value "" a)
  /\ (a_err a <> None -> a_err a' <> None)
  /\ (a_value a <> "" \/ a_unset a = true -> a_value a' = a_value a).

Definition step (fs fs' : FlagSet) : Prop :=
  map decl (flags fs') = map decl (flags fs)
  /\ Forall2 argStep (args fs) (args fs')
  /\ CanSet (flagsRaw fs') = CanSet (flagsRaw fs).

(** The flag at position [k] and the field at [idx] are left as they were. *)
Definition keeps (k : nat) (idx : list nat) (fs fs' : FlagSet) : Prop :=
  flags fs' !! k = flags fs !! k
  /\ FieldByIndex (flagsRaw fs') idx = FieldByIndex (flagsRaw fs) idx.

(** Flag sets as [structToFlags] builds them: one id and one field per
    flag, ids counted from zero. *)
Definition WF (fs : FlagSet) : Prop :=
  NoDup (map f_id (flags fs))
  /\ NoDup (map f_fieldIndex (flags fs))
  /\ Forall (fun f => 0 <= f_id f) (flags fs).

Lemma argStep_fields a a' :
  argStep a a' ->
  a_kind a' = a_kind a /\ a_unset a' = a_unset a /\ a_name a' = a_name a
  /\ a_dash a' = a_dash a.
Proof.
  intros [H _]. destruct a, a'. cbv in H. injection H. intros. subst. done.
Qed.

Lemma argStep_refl a : argStep a a.
Proof. unfold argStep. tauto. Qed.

Lemma argStep_trans a b c : argStep a b -> argStep b c -> argStep a c.
Proof.
  intros Hab Hbc.
  destruct (argStep_fields _ _ Hab) as (_ & Hu & _).
  destruct Hab as (H1 & H2 & H3), Hbc as (H4 & H5 & H6).
  split; [congruence|]. split; [tauto|].
  intros H. rewrite <- (H3 H). apply H6.
  destruct H as [H|H]; [left; rewrite (H3 (or_introl H)); done|].
  right. congruence.
Qed.

Lemma Forall2_argStep_refl l : Forall2 argStep l l.
Proof. induction l; constructor; auto using argStep_refl. Qed.

Lemma Forall2_argStep_trans l1 l2 l3 :
  Forall2 argStep l1 l2 -> Forall2 argStep l2 l3 -> Forall2 argStep l1 l3.
Proof.
  intros H. revert l3. induction H; intros l3 H3; inversion H3; subst;
    constructor; eauto using argStep_trans.
Qed.

Lemma step_refl fs : step fs fs.
Proof. unfold step. auto using Forall2_argStep_refl. Qed.

Lemma step_trans a b c : step a b -> step b c -> step a c.
Proof.
  intros (H1 & H2 & H3) (H4 & H5 & H6).
  repeat split; [congruence| |congruence].
  eauto using Forall2_argStep_trans.
Qed.

Lemma keeps_refl k idx fs : keeps k idx fs fs.
Proof. split; reflexivity. Qed.

Lemma keeps_trans k idx a b c :
  keeps k idx a b -> keeps k idx b c -> keeps k idx a c.
Proof. intros [H1 H2] [H3 H4]. split; congruence. Qed.

Lemma map_of_decl {A} (g : Flag -> A) (l l' : list Flag) :
  (forall f, g (decl f) = g f) ->
  map decl l' = map decl l -> map g l' = map g l.
Proof.
  intros Hg H.
  assert (forall m, map g m = map g (map decl m)) as E.
  { intros m. rewrite map_map. apply map_ext. intros. symmetry. apply Hg. }
  rewrite (E l'), (E l), H. reflexivity.
Qed.

Lemma WF_step fs fs' : step fs fs' -> WF fs -> WF fs'.
Proof.
  intros (H & _ & _) (H1 & H2 & H3).
  repeat split.
  - rewrite (map_of_decl f_id _ _ (fun _ => eq_refl) H). done.
  - rewrite (map_of_decl f_fieldIndex _ _ (fun _ => eq_refl) H). done.
  - apply Forall_forall. intros f Hf.
    assert (In (f_id f) (map f_id (flags fs))) as Hin.
    { rewrite <- (map_of_decl f_id _ _ (fun _ => eq_refl) H).
      apply in_map. apply list_elem_of_In. done. }
    apply in_map_iff in Hin as (g & <- & Hg).
    rewrite Forall_forall in H3. apply H3. apply list_elem_of_In. done.
Qed.

Lemma map_alter_same {A B} (h : A -> B) (g : A -> A) (k : nat) (l : list A) :
  (forall x, h (g x) = h x) -> map h (alter g k l) = map h l.
Proof.
  intros H. revert k. induction l as [|x l IH]; intros [|k]; simpl; [done..| |].
  - rewrite H. done.
  - f_equal. apply IH.
Qed.

Lemma step_onFlag k g fs :
  (forall f, decl (g f) = decl f) -> step fs (onFlag k g fs).
Proof.
  intros H. split; [|split]; simpl; [|apply Forall2_argStep_refl|done].
  apply map_alter_same. done.
Qed.

Lemma Forall2_alter_argStep (g : Arg -> Arg) i (l : list Arg) :
  (forall a, l !! i = Some a -> argStep a (g a)) ->
  Forall2 argStep l (alter g i l).
Proof.
  revert i. induction l as [|x l IH]; intros [|i] H; simpl.
  - constructor.
  - constructor.
  - constructor; [apply H; done|apply Forall2_argStep_refl].
  - constructor; [apply argStep_refl|]. apply IH. intros a Ha. apply H. done.
Qed.

Lemma step_onArg i g fs :
  (forall a, args fs !! i = Some a -> argStep a (g a)) ->
  step fs (onArg i g fs).
Proof.
  intros H. split; [|split]; simpl; [done| |done].
  apply Forall2_alter_argStep. done.
Qed.

Lemma step_setFlag fs id v : step fs (setFlag fs id v).1.
Proof.
  split; [|split].
  - rewrite setFlag_flags. done.
  - rewrite setFlag_args. apply Forall2_argStep_refl.
  - apply setFlag_CanSet.
Qed.

Lemma step_unsetFlag fs id : step fs (unsetFlag fs id).1.
Proof.
  split; [|split].
  - rewrite unsetFlag_flags. done.
  - rewrite unsetFlag_args. apply Forall2_argStep_refl.
  - apply unsetFlag_CanSet.
Qed.

Lemma argStep_err a e : argStep a (arg_err (Some e) a).
Proof. destruct a. cbv. repeat split; intros; done. Qed.

Lemma step_store id i fs v : step fs (store id i fs v).
Proof.
  unfold store.
  pose proof (step_setFlag fs id v) as H.
  destruct (setFlag fs id v) as [fs' [e|]]; simpl in H; [|done].
  eapply step_trans; [exact H|].
  apply step_onArg. intros. apply argStep_err.
Qed.

Lemma store_flags id i fs v : flags (store id i fs v) = flags fs.
Proof.
  unfold store. pose proof (setFlag_flags fs id v) as H.
  destruct (setFlag fs id v) as [fs' [e|]]; simpl in H; done.
Qed.

Lemma store_other id i fs v j :
  (forall f, lookupFlagByID fs id = Some f -> f_fieldIndex f <> j) ->
  FieldByIndex (flagsRaw (store id i fs v)) j = FieldByIndex (flagsRaw fs) j.
Proof.
  intros Hj. unfold store. pose proof (setFlag_other fs id v j Hj) as H.
  destruct (setFlag fs id v) as [fs' [e|]]; simpl in H; done.
Qed.

Lemma lookupFlagByID_flags fs fs' id :
  flags fs' = flags fs -> lookupFlagByID fs' id = lookupFlagByID fs id.
Proof. intros H. unfold lookupFlagByID. rewrite H. done. Qed.

Lemma find_NoDup {A} (g : A -> Z) (l : list A) k x :
  NoDup (map g l) -> l !! k = Some x ->
  List.find (fun y => Z.eqb (g y) (g x)) l = Some x.
Proof.
  revert k. induction l as [|y l IH]; intros k Hn Hk; [done|].
  simpl in Hn. apply NoDup_cons in Hn as [Hy Hn].
  destruct k as [|k]; simpl in *.
  - injection Hk as ->. rewrite Z.eqb_refl. done.
  - destruct (Z.eqb (g y) (g x)) eqn:E.
    + exfalso. apply Hy. apply Z.eqb_eq in E. rewrite E.
      apply list_elem_of_In. apply in_map.
      apply list_elem_of_In. eapply list_elem_of_lookup_2. done.
    + eapply IH; done.
Qed.

Lemma lookup_own fs k flag :
  WF fs -> flags fs !! k = Some flag ->
  lookupFlagByID fs (f_id flag) = Some flag.
Proof.
  intros (Hn & _ & Hp) Hk. unfold lookupFlagByID.
  rewrite Forall_forall in Hp.
  assert (0 <= f_id flag) as H0.
  { apply Hp. eapply list_elem_of_lookup_2. done. }
  destruct (Z.ltb_spec (f_id flag) 0); [lia|].
  eapply find_NoDup; done.
Qed.

Lemma other_index fs j k fj fk :
  WF fs -> flags fs !! j = Some fj -> flags fs !! k = Some fk -> j <> k ->
  f_fieldIndex fj <> f_fieldIndex fk.
Proof.
  intros (_ & Hn & _) Hj Hk Hjk E. apply Hjk.
  eapply NoDup_lookup; [exact Hn| |].
  - rewrite list_lookup_fmap, Hj. reflexivity.
  - rewrite list_lookup_fmap, Hk. simpl. congruence.
Qed.

(** *** The first loop, turn by turn *)

Lemma checkValue_step flag arg : argStep arg (checkValue flag arg).
Proof.
  unfold checkValue.
  destruct (isBool (f_valueType flag) && isEmpty (a_value arg) && negb (a_unset arg)) eqn:E.
  - apply andb_prop in E as [E E3]. apply andb_prop in E as [E1 E2].
    cbn [a_value arg_value isEmpty String.eqb Ascii.eqb Bool.eqb].
    apply String.eqb_eq in E2. apply negb_true_iff in E3.
    split; [destruct arg; reflexivity|]. split; [done|].
    intros [H|H]; [done|congruence].
  - repeat case_match; try apply argStep_refl; apply argStep_err.
Qed.

Lemma storeEach_step id i values fs : step fs (storeEach id i fs values).
Proof.
  unfold storeEach. revert fs.
  induction values as [|v values IH]; intros fs; simpl; [apply step_refl|].
  destruct (isEmpty (TrimSpace v)); [apply IH|].
  eapply step_trans; [apply step_store|apply IH].
Qed.

Lemma storeEach_flags id i values fs :
  flags (storeEach id i fs values) = flags fs.
Proof.
  unfold storeEach. revert fs.
  induction values as [|v values IH]; intros fs; simpl; [done|].
  destruct (isEmpty (TrimSpace v)); [apply IH|].
  rewrite IH. apply store_flags.
Qed.

Lemma storeEach_other id i values fs j :
  (forall f, lookupFlagByID fs id = Some f -> f_fieldIndex f <> j) ->
  FieldByIndex (flagsRaw (storeEach id i fs values)) j = FieldByIndex (flagsRaw fs) j.
Proof.
  unfold storeEach. revert fs.
  induction values as [|v values IH]; intros fs H; simpl; [done|].
  destruct (isEmpty (TrimSpace v)); [apply IH; done|].
  rewrite IH.
  - apply store_other. done.
  - intros f. rewrite (lookupFlagByID_flags fs); [apply H|apply store_flags].
Qed.

Lemma applyArg_step k fs i : step fs (applyArg k fs i).
Proof.
  unfold applyArg.
  destruct (flags fs !! k) as [flag|]; [|apply step_refl].
  destruct (args fs !! i) as [arg|] eqn:Ei; [|apply step_refl].
  destruct (negb (Kind_eqb (a_kind arg) KindArg)); [apply step_refl|].
  eapply step_trans; [apply (step_onFlag k (flag_valueBy ByArg)); done|].
  eapply step_trans.
  { apply (step_onArg i (fun _ => checkValue flag arg)).
    intros a Ha. simpl in Ha. rewrite Ei in Ha. injection Ha as <-.
    apply checkValue_step. }
  destruct (a_err (checkValue flag arg)); [apply step_refl|].
  case_match; [apply storeEach_step|apply step_store].
Qed.

Lemma applyArg_keeps j k fs i fk :
  WF fs -> j <> k -> flags fs !! k = Some fk ->
  keeps k (f_fieldIndex fk) fs (applyArg j fs i).
Proof.
  intros Hwf Hjk Hk. unfold applyArg.
  destruct (flags fs !! j) as [fj|] eqn:Ej; [|apply keeps_refl].
  destruct (args fs !! i) as [arg|] eqn:Ei; [|apply keeps_refl].
  destruct (negb (Kind_eqb (a_kind arg) KindArg)); [apply keeps_refl|].
  set (fs2 := onArg i (fun _ => checkValue fj arg) (onFlag j (flag_valueBy ByArg) fs)).
  assert (keeps k (f_fieldIndex fk) fs fs2) as K2.
  { split; [|done]. simpl. apply list_lookup_alter_ne. done. }
  assert (forall f, lookupFlagByID fs2 (f_id fj) = Some f ->
                    f_fieldIndex f <> f_fieldIndex fk) as Hown.
  { intros f Hf.
    assert (WF fs2) as Hwf2.
    { eapply WF_step; [|exact Hwf].
      eapply step_trans; [apply (step_onFlag j (flag_valueBy ByArg)); done|].
      apply step_onArg. intros a Ha. simpl in Ha. rewrite Ei in Ha.
      injection Ha as <-. apply checkValue_step. }
    assert (flags fs2 !! j = Some (flag_valueBy ByArg fj)) as Ej2.
    { simpl. rewrite list_lookup_alter_eq, Ej. done. }
    pose proof (lookup_own _ _ _ Hwf2 Ej2) as Hl. simpl in Hl.
    rewrite Hl in Hf. injection Hf as <-. simpl.
    exact (other_index fs j k fj fk Hwf Ej Hk Hjk). }
  destruct (a_err (checkValue fj arg)); [exact K2|].
  eapply keeps_trans; [exact K2|].
  case_match; (split; [|]).
  - rewrite storeEach_flags. done.
  - apply storeEach_other. done.
  - rewrite store_flags. done.
  - apply store_other. done.
Qed.

(** A fold of turns that each keep the flag at [k] and its field, under
    an invariant [Inv] of the turns. *)
Lemma fold_keeps (Inv : FlagSet -> Prop) (body : FlagSet -> nat -> FlagSet)
    (l : list nat) k fk :
  (forall fs j, Inv fs -> Inv (body fs j)) ->
  (forall fs j, In j l -> Inv fs -> flags fs !! k = Some fk ->
                keeps k (f_fieldIndex fk) fs (body fs j)) ->
  forall fs, Inv fs -> flags fs !! k = Some fk ->
    Inv (fold_left body l fs)
    /\ keeps k (f_fieldIndex fk) fs (fold_left body l fs).
Proof.
  intros HI. induction l as [|j l IH]; intros Hb fs Hwf Hk; simpl.
  - split; [done|apply keeps_refl].
  - pose proof (Hb fs j (or_introl eq_refl) Hwf Hk) as K1.
    destruct (IH (fun fs j Hj => Hb fs j (or_intror Hj)) (body fs j)) as [S2 K2].
    + apply HI. done.
    + destruct K1 as [K1 _]. rewrite K1. done.
    + split; [done|eapply keeps_trans; done].
Qed.

Lemma fold_step (body : FlagSet -> nat -> FlagSet) (l : list nat) :
  (forall fs j, step fs (body fs j)) ->
  forall fs, step fs (fold_left body l fs).
Proof.
  intros Hb. induction l as [|j l IH]; intros fs; simpl; [apply step_refl|].
  eapply step_trans; [apply Hb|apply IH].
Qed.

Lemma applyArgs_step fs k : step fs (applyArgs fs k).
Proof.
  unfold applyArgs. destruct (flags fs !! k) as [flag|]; [|apply step_refl].
  case_match; [apply step_refl|]. apply fold_step. intros. apply applyArg_step.
Qed.

Lemma applyArgs_keeps j k fs fk :
  WF fs -> j <> k -> flags fs !! k = Some fk ->
  keeps k (f_fieldIndex fk) fs (applyArgs fs j).
Proof.
  intros Hwf Hjk Hk. unfold applyArgs.
  destruct (flags fs !! j) as [fj|]; [|apply keeps_refl].
  case_match; [apply keeps_refl|].
  apply (fold_keeps WF); [| |done..].
  - intros fs' i Hwf'. eapply WF_step; [apply applyArg_step|done].
  - intros fs' i _ Hwf' Hk'. apply applyArg_keeps; done.
Qed.

(** *** The second and third loops, turn by turn *)

Lemma rollback_args k id fs i : args (rollback k id fs i) = args fs.
Proof.
  unfold rollback. repeat case_match; try done.
  all: match goal with H : unsetFlag ?fs ?id = _ |- _ =>
         pose proof (unsetFlag_args fs id) as Ha; rewrite H in Ha end; done.
Qed.

Lemma rollback_step k id fs i : step fs (rollback k id fs i).
Proof.
  unfold rollback.
  destruct (args fs !! i) as [arg|]; [|apply step_refl].
  destruct (a_err arg) as [e0|]; [|apply step_refl].
  pose proof (step_unsetFlag fs id) as H.
  destruct (unsetFlag fs id) as [fs' [e|]]; simpl in H; [|done].
  eapply step_trans; [exact H|]. apply step_onFlag. done.
Qed.

Lemma fallBack_args k id by_ v fs : args (fallBack k id by_ v fs) = args fs.
Proof.
  unfold fallBack.
  pose proof (setFlag_args (onFlag k (flag_valueBy by_) fs) id v) as H.
  destruct (setFlag _ id v) as [fs' [e|]]; simpl in H; done.
Qed.

Lemma fallBack_step k id by_ v fs : step fs (fallBack k id by_ v fs).
Proof.
  unfold fallBack.
  eapply step_trans; [apply (step_onFlag k (flag_valueBy by_)); done|].
  pose proof (step_setFlag (onFlag k (flag_valueBy by_) fs) id v) as H.
  destruct (setFlag _ id v) as [fs' [e|]]; simpl in H; [|done].
  eapply step_trans; [exact H|]. apply step_onFlag. done.
Qed.

Lemma fold_args (body : FlagSet -> nat -> FlagSet) (l : list nat) :
  (forall fs j, args (body fs j) = args fs) ->
  forall fs, args (fold_left body l fs) = args fs.
Proof.
  intros Hb. induction l as [|j l IH]; intros fs; simpl; [done|].
  rewrite IH. apply Hb.
Qed.

Lemma resolve_args fs k : args (resolve fs k) = args fs.
Proof.
  unfold resolve. repeat case_match; try done;
    auto using fallBack_args, fold_args, rollback_args.
Qed.

Lemma resolve_step fs k : step fs (resolve fs k).
Proof.
  unfold resolve. repeat case_match;
    auto using step_refl, fallBack_step, fold_step, rollback_step.
Qed.

Lemma require_args fs k : args (require fs k) = args fs.
Proof. unfold require. repeat case_match; done. Qed.

Lemma require_flagsRaw fs k : flagsRaw (require fs k) = flagsRaw fs.
Proof. unfold require. repeat case_match; done. Qed.

Lemma require_step fs k : step fs (require fs k).
Proof.
  unfold require. repeat case_match; try apply step_refl; apply step_onFlag; done.
Qed.

Lemma require_keeps j k idx fs : j <> k -> keeps k idx fs (require fs j).
Proof.
  intros Hjk. split; [|rewrite require_flagsRaw; done].
  unfold require. repeat case_match; try done; simpl;
    apply list_lookup_alter_ne; done.
Qed.

Lemma rollback_keeps j k fs i fj fk :
  WF fs -> j <> k -> flags fs !! j = Some fj -> flags fs !! k = Some fk ->
  keeps k (f_fieldIndex fk) fs (rollback j (f_id fj) fs i).
Proof.
  intros Hwf Hjk Hj Hk. unfold rollback.
  destruct (args fs !! i) as [arg|]; [|apply keeps_refl].
  destruct (a_err arg) as [e0|]; [|apply keeps_refl].
  pose proof (unsetFlag_flags fs (f_id fj)) as Hf.
  pose proof (unsetFlag_other fs (f_id fj) (f_fieldIndex fk)) as Ho.
  rewrite (lookup_own _ _ _ Hwf Hj) in Ho.
  assert (FieldByIndex (flagsRaw (unsetFlag fs (f_id fj)).1) (f_fieldIndex fk)
          = FieldByIndex (flagsRaw fs) (f_fieldIndex fk)) as Ho'.
  { apply Ho. intros f [= <-]. exact (other_index fs j k fj fk Hwf Hj Hk Hjk). }
  destruct (unsetFlag fs (f_id fj)) as [fs' [e|]]; simpl in *.
  - split; [|done]. simpl. rewrite list_lookup_alter_ne, Hf; done.
  - split; [rewrite Hf|]; done.
Qed.

Lemma fallBack_keeps j k by_ v fs fj fk :
  WF fs -> j <> k -> flags fs !! j = Some fj -> flags fs !! k = Some fk ->
  keeps k (f_fieldIndex fk) fs (fallBack j (f_id fj) by_ v fs).
Proof.
  intros Hwf Hjk Hj Hk. unfold fallBack.
  set (fs1 := onFlag j (flag_valueBy by_) fs).
  assert (step fs fs1) as S1 by (apply step_onFlag; done).
  assert (flags fs1 !! j = Some (flag_valueBy by_ fj)) as Hj1.
  { simpl. rewrite list_lookup_alter_eq, Hj. done. }
  assert (flags fs1 !! k = Some fk) as Hk1.
  { simpl. rewrite list_lookup_alter_ne; done. }
  pose proof (WF_step _ _ S1 Hwf) as Hwf1.
  pose proof (setFlag_flags fs1 (f_id fj) v) as Hf.
  pose proof (setFlag_other fs1 (f_id fj) v (f_fieldIndex fk)) as Ho.
  pose proof (lookup_own _ _ _ Hwf1 Hj1) as Hl. simpl in Hl. rewrite Hl in Ho.
  assert (FieldByIndex (flagsRaw (setFlag fs1 (f_id fj) v).1) (f_fieldIndex fk)
          = FieldByIndex (flagsRaw fs1) (f_fieldIndex fk)) as Ho'.
  { apply Ho. intros f [= <-]. simpl.
    exact (other_index fs j k fj fk Hwf Hj Hk Hjk). }
  destruct (setFlag fs1 (f_id fj) v) as [fs' [e|]]; cbn [fst snd] in *.
  - split; [|done]. cbn [onFlag withFlags flags].
    rewrite list_lookup_alter_ne, Hf, Hk1, Hk; done.
  - split; [rewrite Hf, Hk1, Hk|]; done.
Qed.

Lemma resolve_keeps j k fs fk :
  WF fs -> j <> k -> flags fs !! k = Some fk ->
  keeps k (f_fieldIndex fk) fs (resolve fs j).
Proof.
  intros Hwf Hjk Hk. unfold resolve.
  destruct (flags fs !! j) as [fj|] eqn:Hj; [|apply keeps_refl].
  destruct (ValueBy_eqb (f_valueBy fj) ByArg).
  - assert (forall l fs', WF fs' -> flags fs' !! k = Some fk ->
              decl <$> flags fs' !! j = Some (decl fj) ->
              keeps k (f_fieldIndex fk) fs'
                (fold_left (rollback j (f_id fj)) l fs')) as Hfold.
    { induction l as [|i l IH]; intros fs' Hwf' Hk' Hj'; simpl; [apply keeps_refl|].
      destruct (flags fs' !! j) as [fj'|] eqn:Ej'; [|done].
      assert (decl fj' = decl fj) as Hd by (simpl in Hj'; congruence).
      assert (f_id fj' = f_id fj) as Eid by exact (f_equal f_id Hd).
      pose proof (rollback_keeps j k fs' i fj' fk Hwf' Hjk Ej' Hk') as K1.
      pose proof (rollback_step j (f_id fj') fs' i) as S1.
      rewrite Eid in K1, S1.
      eapply keeps_trans; [exact K1|]. apply IH.
      - exact (WF_step _ _ S1 Hwf').
      - destruct K1 as [K1 _]. rewrite K1. done.
      - destruct S1 as [S1 _].
        assert (map decl (flags (rollback j (f_id fj) fs' i)) !! j
                = map decl (flags fs') !! j) as E by (rewrite S1; done).
        rewrite !list_lookup_fmap, Ej' in E. rewrite E. simpl. congruence. }
    apply Hfold; [done..|]. rewrite Hj. done.
  - destruct (LookupEnv (f_env fj)); [apply fallBack_keeps; done|].
    case_match; [apply fallBack_keeps; done|apply keeps_refl].
Qed.

(** *** A loop over the flags, seen from one flag *)

Lemma step_lookup fs fs' k f :
  step fs fs' -> flags fs !! k = Some f ->
  exists f', flags fs' !! k = Some f' /\ decl f' = decl f.
Proof.
  intros (H & _ & _) Hk.
  assert (map decl (flags fs') !! k = map decl (flags fs) !! k) as E by (rewrite H; done).
  rewrite !list_lookup_fmap, Hk in E.
  destruct (flags fs' !! k) as [f'|]; [|done].
  exists f'. split; [done|]. simpl in E. congruence.
Qed.

Lemma step_length fs fs' : step fs fs' -> length (flags fs') = length (flags fs).
Proof.
  intros (H & _ & _). apply (f_equal (@length Flag)) in H.
  rewrite !length_map in H. done.
Qed.

Lemma step_args_lookup fs fs' i a :
  step fs fs' -> args fs !! i = Some a ->
  exists a', args fs' !! i = Some a' /\ argStep a a'.
Proof.
  intros (_ & H & _) Hi.
  destruct (Forall2_lookup_l _ _ _ _ _ H Hi) as (a' & Ha' & Hs). eauto.
Qed.

Lemma step_args_lookup_r fs fs' i a' :
  step fs fs' -> args fs' !! i = Some a' ->
  exists a, args fs !! i = Some a /\ argStep a a'.
Proof.
  intros (_ & H & _) Hi.
  destruct (Forall2_lookup_r _ _ _ _ _ H Hi) as (a & Ha & Hs). eauto.
Qed.

Lemma each_step body fs :
  (forall fs j, step fs (body fs j)) -> step fs (each body fs).
Proof. intros Hb. unfold each. apply fold_step. done. Qed.

Lemma each_own (Inv : FlagSet -> Prop) body k fk fs :
  (forall fs j, Inv fs -> Inv (body fs j)) ->
  (forall fs j, step fs (body fs j)) ->
  (forall fs j f, Inv fs -> j <> k -> flags fs !! k = Some f ->
                  keeps k (f_fieldIndex f) fs (body fs j)) ->
  Inv fs -> flags fs !! k = Some fk ->
  exists before,
    Inv before /\ step fs before /\ keeps k (f_fieldIndex fk) fs before
    /\ Inv (each body fs)
    /\ step (body before k) (each body fs)
    /\ keeps k (f_fieldIndex fk) (body before k) (each body fs).
Proof.
  intros HI Hs Hkeep Hwf Hk.
  pose proof (lookup_lt_Some _ _ _ Hk) as Hlt.
  unfold each.
  replace (length (flags fs)) with (k + S (length (flags fs) - S k))%nat by lia.
  rewrite seq_app, fold_left_app. simpl.
  set (before := fold_left body (seq 0 k) fs).
  assert (Inv before /\ keeps k (f_fieldIndex fk) fs before) as [Hwf1 K1].
  { apply (fold_keeps Inv); [done| |done..].
    intros fs' j Hj Hwf' Hk'.
    apply Hkeep; [done| |done]. apply in_seq in Hj. lia. }
  exists before.
  split; [exact Hwf1|]. split; [apply fold_step; done|]. split; [exact K1|].
  pose proof (Hs before k) as S2.
  assert (flags before !! k = Some fk) as Hk1.
  { destruct K1 as [K1 _]. rewrite K1. done. }
  destruct (step_lookup _ _ _ _ S2 Hk1) as (fk' & Hk2 & Hd).
  replace (f_fieldIndex fk) with (f_fieldIndex fk')
    by exact (f_equal f_fieldIndex Hd).
  cut (Inv (fold_left body (seq (S k) (length (flags fs) - S k)) (body before k))
       /\ keeps k (f_fieldIndex fk') (body before k)
            (fold_left body (seq (S k) (length (flags fs) - S k)) (body before k))).
  { intros [H1 H2]. split; [done|]. split; [apply fold_step; done|done]. }
  apply (fold_keeps Inv); [done| |apply HI; done|done].
  intros fs' j Hj Hwf' Hk'.
  apply Hkeep; [done| |done]. apply in_seq in Hj. lia.
Qed.

(** *** The own turn of a flag in the first loop *)

(** The argument at position [i] is of kind ["arg"]; the flag has such an
    argument among those that matched it. *)
Definition isArgument (fs : FlagSet) (i : nat) : bool :=
  match args fs !! i with
  | Some a => Kind_eqb (a_kind a) KindArg
  | None => false
  end.

Definition hasArgument (fs : FlagSet) (flag : Flag) : bool :=
  existsb (isArgument fs) (f_args flag).

Lemma isArgument_step fs fs' i : step fs fs' -> isArgument fs' i = isArgument fs i.
Proof.
  intros H. unfold isArgument.
  destruct (args fs !! i) as [a|] eqn:E.
  - destruct (step_args_lookup _ _ _ _ H E) as (a' & -> & Hs).
    destruct (argStep_fields _ _ Hs) as (-> & _). done.
  - destruct (args fs' !! i) as [a'|] eqn:E'; [|done].
    destruct (step_args_lookup_r _ _ _ _ H E') as (a & Ha & _). congruence.
Qed.

Lemma existsb_isArgument_step fs fs' l :
  step fs fs' -> existsb (isArgument fs') l = existsb (isArgument fs) l.
Proof.
  intros H. induction l as [|i l IH]; simpl; [done|].
  rewrite IH, (isArgument_step _ _ _ H). done.
Qed.

Lemma alter_none {A} (g : A -> A) k (l : list A) :
  l !! k = None -> alter g k l = l.
Proof.
  revert k. induction l as [|x l IH]; intros [|k] H; simpl in *; try done.
  f_equal. apply IH. done.
Qed.

Lemma applyArg_flags k fs i :
  flags (applyArg k fs i)
  = if isArgument fs i then alter (flag_valueBy ByArg) k (flags fs) else flags fs.
Proof.
  unfold applyArg, isArgument.
  destruct (flags fs !! k) as [flag|] eqn:Ek.
  - destruct (args fs !! i) as [arg|]; [|done].
    destruct (Kind_eqb (a_kind arg) KindArg); [|done]. cbn [negb].
    destruct (a_err (checkValue flag arg)); [done|].
    case_match; [rewrite storeEach_flags|rewrite store_flags]; done.
  - rewrite alter_none by done. repeat case_match; done.
Qed.

Lemma applyArg_fold_flags k l fs :
  flags (fold_left (applyArg k) l fs)
  = if existsb (isArgument fs) l
    then alter (flag_valueBy ByArg) k (flags fs) else flags fs.
Proof.
  revert fs. induction l as [|i l IH]; intros fs; simpl; [done|].
  rewrite IH, (existsb_isArgument_step fs) by apply applyArg_step.
  rewrite applyArg_flags.
  destruct (isArgument fs i); simpl; [|done].
  rewrite list_alter_alter_eq.
  destruct (existsb (isArgument fs) l); [|done].
  apply list_alter_ext; done.
Qed.

Lemma applyArg_skip k fs i : isArgument fs i = false -> applyArg k fs i = fs.
Proof.
  unfold applyArg, isArgument. intros H.
  destruct (flags fs !! k); [|done].
  destruct (args fs !! i) as [a|]; [|done]. rewrite H. done.
Qed.

Lemma applyArg_fold_skip k l fs :
  existsb (isArgument fs) l = false -> fold_left (applyArg k) l fs = fs.
Proof.
  induction l as [|i l IH]; simpl; [done|].
  intros H. apply orb_false_elim in H as [H1 H2].
  rewrite applyArg_skip by done. apply IH. done.
Qed.

(** The flag after its turn: its source is the argument once an argument
    of kind ["arg"] matched it, and nothing is done otherwise. *)
Lemma applyArgs_source fs k fk :
  flags fs !! k = Some fk -> f_kind fk = KindArg ->
  if hasArgument fs fk
  then flags (applyArgs fs k) !! k = Some (flag_valueBy ByArg fk)
  else applyArgs fs k = fs.
Proof.
  intros Hk Hkind. unfold applyArgs, hasArgument. rewrite Hk, Hkind. simpl.
  destruct (existsb (isArgument fs) (f_args fk)) eqn:E.
  - rewrite applyArg_fold_flags, E, list_lookup_alter_eq, Hk. done.
  - apply applyArg_fold_skip. done.
Qed.

(** *** The own turn of a flag in the second loop *)

Definition hasError (fs : FlagSet) (i : nat) : bool :=
  match args fs !! i with
  | Some a => match a_err a with Some _ => true | None => false end
  | None => false
  end.

Lemma fallBack_own k by_ v b fb :
  WF b -> flags b !! k = Some fb ->
  CanSet (flagsRaw b) (f_fieldIndex fb) = true ->
  flags (fallBack k (f_id fb) by_ v b) !! k
    = Some (match refused (f_valueType fb) v with
            | Some e => flag_err (Some e) (flag_valueBy by_ fb)
            | None => flag_valueBy by_ fb
            end)
  /\ FieldByIndex (flagsRaw (fallBack k (f_id fb) by_ v b)) (f_fieldIndex fb)
     = assigned (f_valueType fb) (FieldByIndex (flagsRaw b) (f_fieldIndex fb)) v.
Proof.
  intros Hwf Hk Hc. unfold fallBack.
  set (fs1 := onFlag k (flag_valueBy by_) b).
  assert (flags fs1 !! k = Some (flag_valueBy by_ fb)) as Hk1.
  { unfold fs1. cbn [onFlag withFlags flags]. rewrite list_lookup_alter_eq, Hk. done. }
  assert (WF fs1) as Hwf1.
  { eapply WF_step; [|exact Hwf]. apply step_onFlag. done. }
  pose proof (lookup_own _ _ _ Hwf1 Hk1) as Hl. cbn [flag_valueBy f_id] in Hl.
  destruct (setFlag_own fs1 (f_id fb) v _ Hl Hc) as [Hf He].
  pose proof (setFlag_flags fs1 (f_id fb) v) as Hfl.
  cbn [flag_valueBy f_fieldIndex f_valueType] in Hf, He.
  destruct (setFlag fs1 (f_id fb) v) as [fs' [e|]]; cbn [fst snd] in *.
  - rewrite <- He. split; [|exact Hf].
    cbn [onFlag withFlags flags]. rewrite list_lookup_alter_eq, Hfl, Hk1. done.
  - rewrite <- He. split; [|exact Hf]. rewrite Hfl. done.
Qed.

Lemma rollback_own k i b fb :
  WF b -> flags b !! k = Some fb ->
  (exists f', flags (rollback k (f_id fb) b i) !! k = Some f'
              /\ f_valueBy f' = f_valueBy fb /\ decl f' = decl fb)
  /\ (hasError b i = false -> rollback k (f_id fb) b i = b)
  /\ (hasError b i = true ->
      (FieldByIndex (flagsRaw (rollback k (f_id fb) b i)) (f_fieldIndex fb)
         = FieldByIndex (flagsRaw b) (f_fieldIndex fb)
       \/ zero (f_valueType fb)
          = Some (FieldByIndex (flagsRaw (rollback k (f_id fb) b i)) (f_fieldIndex fb)))
      /\ (CanSet (flagsRaw b) (f_fieldIndex fb) = true ->
          forall z, zero (f_valueType fb) = Some z ->
            FieldByIndex (flagsRaw (rollback k (f_id fb) b i)) (f_fieldIndex fb) = z)).
Proof.
  intros Hwf Hk. unfold rollback, hasError.
  destruct (args b !! i) as [a|];
    [|split; [exists fb; done|split; [done|intros; discriminate]]].
  destruct (a_err a) as [e0|];
    [|split; [exists fb; done|split; [done|intros; discriminate]]].
  pose proof (lookup_own _ _ _ Hwf Hk) as Hl.
  pose proof (unsetFlag_flags b (f_id fb)) as Hfl.
  split; [|split; [done|intros _]].
  - destruct (unsetFlag b (f_id fb)) as [fs' [e|]]; cbn [fst] in *.
    + exists (flag_err (Some e) fb). cbn [onFlag withFlags flags].
      rewrite list_lookup_alter_eq, Hfl, Hk. done.
    + exists fb. rewrite Hfl. done.
  - unfold unsetFlag in *.
    assert (Z.ltb (f_id fb) 0 = false) as E0.
    { unfold lookupFlagByID in Hl. destruct (Z.ltb (f_id fb) 0); done. }
    rewrite E0, Hl in *.
    destruct (CanSet (flagsRaw b) (f_fieldIndex fb)); cbn [negb].
    + destruct (zero (f_valueType fb)) as [z|].
      * cbn [withRaw flagsRaw]. rewrite Set_same. split; [by right|].
        intros _ z' [= ->]. done.
      * split; [by left|]. done.
    + split; [by left|]. done.
Qed.

Lemma hasError_args a b i : args a = args b -> hasError a i = hasError b i.
Proof. unfold hasError. intros ->. done. Qed.

Lemma existsb_hasError_args a b l :
  args a = args b -> existsb (hasError a) l = existsb (hasError b) l.
Proof.
  intros H. induction l as [|i l IH]; simpl; [done|].
  rewrite IH, (hasError_args _ _ _ H). done.
Qed.

Lemma rollback_fold_own k l : forall b fb,
  WF b -> flags b !! k = Some fb ->
  let r := fold_left (rollback k (f_id fb)) l b in
  (exists f', flags r !! k = Some f'
              /\ f_valueBy f' = f_valueBy fb /\ decl f' = decl fb)
  /\ (existsb (hasError b) l = false -> r = b)
  /\ (FieldByIndex (flagsRaw r) (f_fieldIndex fb)
        = FieldByIndex (flagsRaw b) (f_fieldIndex fb)
      \/ zero (f_valueType fb)
         = Some (FieldByIndex (flagsRaw r) (f_fieldIndex fb)))
  /\ (CanSet (flagsRaw b) (f_fieldIndex fb) = true ->
      forall z, zero (f_valueType fb) = Some z ->
        existsb (hasError b) l = true ->
        FieldByIndex (flagsRaw r) (f_fieldIndex fb) = z).
Proof.
  induction l as [|i l IH]; intros b fb Hwf Hk; cbn zeta.
  { simpl. split; [by eauto|]. split; [done|]. split; [by left|]. done. }
  cbn [fold_left existsb].
  destruct (rollback_own k i b fb Hwf Hk) as ((f1 & Hk1 & Hv1 & Hd1) & Hnone & Hsome).
  set (b1 := rollback k (f_id fb) b i) in *.
  assert (step b b1) as S1 by apply rollback_step.
  assert (WF b1) as Hwf1 by exact (WF_step _ _ S1 Hwf).
  assert (args b1 = args b) as Ha1 by apply rollback_args.
  assert (f_id f1 = f_id fb) as Eid by exact (f_equal f_id Hd1).
  assert (f_fieldIndex f1 = f_fieldIndex fb) as Eix by exact (f_equal f_fieldIndex Hd1).
  assert (f_valueType f1 = f_valueType fb) as Evt by exact (f_equal f_valueType Hd1).
  specialize (IH b1 f1 Hwf1 Hk1). cbn zeta in IH.
  rewrite Eid, Eix, Evt in IH.
  destruct IH as ((f' & Hk' & Hv' & Hd') & IHnone & IHd & IHz).
  rewrite (existsb_hasError_args b1 b) in IHnone, IHz by done.
  split; [|split; [|split]].
  - exists f'. repeat split; congruence.
  - intros H. apply orb_false_elim in H as [H1 H2].
    rewrite (IHnone H2). apply Hnone. done.
  - destruct IHd as [IHd|IHd]; [|by right].
    rewrite IHd. destruct (hasError b i) eqn:E.
    + apply Hsome. done.
    + left. rewrite (Hnone eq_refl). done.
  - intros Hc z Hz H.
    destruct (existsb (hasError b) l) eqn:El.
    + apply IHz; [|done..]. destruct S1 as (_ & _ & S1). rewrite S1. done.
    + rewrite (IHnone eq_refl). rewrite orb_false_r in H.
      apply Hsome; done.
Qed.

(** *** The three loops of [New], seen from one flag *)

(** The loops of [New] on a flag set whose arguments are parsed. *)
Definition resolution (fs : FlagSet) : FlagSet :=
  each require (each resolve (each applyArgs fs)).


Lemma WF_applyArgs fs j : WF fs -> WF (applyArgs fs j).
Proof. intros H. eapply WF_step; [apply applyArgs_step|done]. Qed.

Lemma bound_flag fs k fk :
  WF fs -> flags fs !! k = Some fk -> f_kind fk = KindArg ->
  WF (each applyArgs fs)
  /\ step fs (each applyArgs fs)
  /\ flags (each applyArgs fs) !! k
     = Some (if hasArgument fs fk then flag_valueBy ByArg fk else fk)
  /\ (hasArgument fs fk = false ->
      FieldByIndex (flagsRaw (each applyArgs fs)) (f_fieldIndex fk)
      = FieldByIndex (flagsRaw fs) (f_fieldIndex fk)).
Proof.
  intros Hwf Hk Hkind.
  destruct (each_own WF applyArgs k fk fs WF_applyArgs applyArgs_step
              (fun fs j f H1 H2 H3 => applyArgs_keeps j k fs f H1 H2 H3) Hwf Hk)
    as (before & Hwfb & Sb & [Kb1 Kb2] & Hwf1 & Sa & [Ka1 Ka2]).
  split; [done|]. split; [apply each_step; apply applyArgs_step|].
  rewrite Hk in Kb1.
  pose proof (applyArgs_source before k fk Kb1 Hkind) as Hsrc.
  unfold hasArgument in *.
  rewrite (existsb_isArgument_step fs before) in Hsrc by done.
  destruct (existsb (isArgument fs) (f_args fk)).
  - split; [|done]. rewrite Ka1. done.
  - rewrite Hsrc in Ka1, Ka2. split; [congruence|]. intros _. congruence.
Qed.

Lemma WF_resolve fs j : WF fs -> WF (resolve fs j).
Proof. intros H. eapply WF_step; [apply resolve_step|done]. Qed.

Lemma resolved_flag fs k fk :
  WF fs -> flags fs !! k = Some fk ->
  let fs' := each resolve fs in
  let idx := f_fieldIndex fk in
  WF fs' /\ step fs fs' /\ args fs' = args fs
  /\ if ValueBy_eqb (f_valueBy fk) ByArg then
       (exists f', flags fs' !! k = Some f'
                   /\ f_valueBy f' = ByArg /\ decl f' = decl fk)
       /\ (FieldByIndex (flagsRaw fs') idx = FieldByIndex (flagsRaw fs) idx
           \/ zero (f_valueType fk) = Some (FieldByIndex (flagsRaw fs') idx))
       /\ (existsb (hasError fs) (f_args fk) = false ->
           FieldByIndex (flagsRaw fs') idx = FieldByIndex (flagsRaw fs) idx)
       /\ (CanSet (flagsRaw fs) idx = true ->
           forall z, zero (f_valueType fk) = Some z ->
             existsb (hasError fs) (f_args fk) = true ->
             FieldByIndex (flagsRaw fs') idx = z)
     else
       match LookupEnv (f_env fk) with
       | Some ev =>
           CanSet (flagsRaw fs) idx = true ->
           flags fs' !! k
             = Some (match refused (f_valueType fk) ev with
                     | Some e => flag_err (Some e) (flag_valueBy ByEnv fk)
                     | None => flag_valueBy ByEnv fk
                     end)
           /\ FieldByIndex (flagsRaw fs') idx
              = assigned (f_valueType fk) (FieldByIndex (flagsRaw fs) idx) ev
       | None =>
           if negb (isEmpty (f_valueDefault fk)) then
             CanSet (flagsRaw fs) idx = true ->
             flags fs' !! k
               = Some (match refused (f_valueType fk) (f_valueDefault fk) with
                       | Some e => flag_err (Some e) (flag_valueBy ByDefault fk)
                       | None => flag_valueBy ByDefault fk
                       end)
             /\ FieldByIndex (flagsRaw fs') idx
                = assigned (f_valueType fk) (FieldByIndex (flagsRaw fs) idx)
                    (f_valueDefault fk)
           else
             flags fs' !! k = Some fk
             /\ FieldByIndex (flagsRaw fs') idx = FieldByIndex (flagsRaw fs) idx
       end.
Proof.
  intros Hwf Hk fs' idx.
  set (Inv := fun s => WF s /\ args s = args fs).
  assert (forall s j, Inv s -> Inv (resolve s j)) as HI.
  { intros s j [H1 H2]. split; [apply WF_resolve; done|].
    rewrite resolve_args. done. }
  destruct (each_own Inv resolve k fk fs HI resolve_step
              (fun s j f H1 H2 H3 => resolve_keeps j k s f (proj1 H1) H2 H3)
              (conj Hwf eq_refl) Hk)
    as (before & [Hwfb Hab] & Sb & [Kb1 Kb2] & [Hwf1 Ha1] & Sa & [Ka1 Ka2]).
  split; [done|]. split; [apply each_step; apply resolve_step|]. split; [done|].
  rewrite Hk in Kb1. fold fs' in Ka1, Ka2. fold idx in Ka2, Kb2.
  assert (CanSet (flagsRaw before) = CanSet (flagsRaw fs)) as Hcs by apply Sb.
  unfold resolve in Ka1, Ka2. rewrite Kb1 in Ka1, Ka2.
  destruct (ValueBy_eqb (f_valueBy fk) ByArg) eqn:Eby.
  - destruct (rollback_fold_own k (f_args fk) before fk Hwfb Kb1)
      as ((f' & Hk' & Hv' & Hd') & Hnone & Hd & Hz).
    fold idx in Hd, Hz.
    rewrite (existsb_hasError_args before fs) in Hnone, Hz by done.
    split; [|split; [|split]].
    + exists f'. rewrite Ka1. split; [done|]. split; [|done].
      rewrite Hv'. destruct (f_valueBy fk); done.
    + rewrite Ka2, <- Kb2. done.
    + intros H. rewrite Ka2, (Hnone H). done.
    + intros Hc z Hzero H. rewrite Ka2. apply Hz; [|done..].
      rewrite Hcs. done.
  - destruct (LookupEnv (f_env fk)) as [ev|].
    + intros Hc. rewrite <- Hcs in Hc.
      destruct (fallBack_own k ByEnv ev before fk Hwfb Kb1 Hc) as [H1 H2].
      fold idx in H2. rewrite Ka1, Ka2, H1, H2, Kb2. done.
    + destruct (negb (isEmpty (f_valueDefault fk))).
      * intros Hc. rewrite <- Hcs in Hc.
        destruct (fallBack_own k ByDefault (f_valueDefault fk) before fk Hwfb Kb1 Hc)
          as [H1 H2].
        fold idx in H2. rewrite Ka1, Ka2, H1, H2, Kb2. done.
      * rewrite Ka1, Ka2. done.
Qed.

(** *** The third loop *)



Lemma fold_flagsRaw (body : FlagSet -> nat -> FlagSet) (l : list nat) :
  (forall fs j, flagsRaw (body fs j) = flagsRaw fs) ->
  forall fs, flagsRaw (fold_left body l fs) = flagsRaw fs.
Proof.
  intros Hb. induction l as [|j l IH]; intros fs; simpl; [done|].
  rewrite IH. apply Hb.
Qed.

Lemma required_flagsRaw fs : flagsRaw (each require fs) = flagsRaw fs.
Proof. apply fold_flagsRaw. apply require_flagsRaw. Qed.

Lemma required_args fs : args (each require fs) = args fs.
Proof. apply fold_args. apply require_args. Qed.




Lemma required_flag fs k flag :
  flags fs !! k = Some flag ->
  exists before,
    step fs before /\ flags before !! k = Some flag
    /\ flags (each require fs) !! k = flags (require before k) !! k.
Proof.
  intros Hk.
  destruct (each_own (fun _ => True) require k flag fs
              (fun _ _ _ => I) require_step
              (fun s j f _ H2 _ => require_keeps j k (f_fieldIndex f) s H2) I Hk)
    as (before & _ & Sb & [Kb1 _] & _ & _ & [Ka1 _]).
  exists before. rewrite Kb1, Hk. done.
Qed.


Lemma Errors_arg fs k flag i a e :
  flags fs !! k = Some flag -> In i (f_args flag) ->
  args fs !! i = Some a -> a_err a = Some e -> In e (Errors fs).
Proof.
  intros Hk Hi Ha He. unfold Errors. apply in_flat_map. exists flag. split.
  - apply list_elem_of_In. eapply list_elem_of_lookup_2. done.
  - apply in_or_app. right. apply in_flat_map. exists i. split; [done|].
    rewrite Ha, He. simpl. left. done.
Qed.

Lemma require_own b k f :
  flags b !! k = Some f ->
  exists f', flags (require b k) !! k = Some f'
             /\ f_valueBy f' = f_valueBy f /\ decl f' = decl f
             /\ (f_required f = false -> f' = f).
Proof.
  intros Hk. unfold require. rewrite Hk.
  destruct (f_required f); cbn [negb]; [|by exists f].
  repeat case_match; try (by exists f); cbn [onFlag withFlags flags];
    rewrite list_lookup_alter_eq, Hk; (eexists; split; [reflexivity|done]).
Qed.

(** The third loop leaves the struct and the arguments alone, and of a
    flag it writes the error only. *)
Lemma required_source fs k f :
  flags fs !! k = Some f ->
  exists f', flags (each require fs) !! k = Some f'
             /\ f_valueBy f' = f_valueBy f /\ decl f' = decl f
             /\ (f_required f = false -> f' = f).
Proof.
  intros Hk. destruct (required_flag fs k f Hk) as (before & _ & Hb & ->).
  apply require_own. done.
Qed.

(** The numeric types of [setFlag]'s switch. *)
Definition numericTypes : list string :=
  ["float64"; "int"; "int64"; "uint"; "uint64";
   "[]float64"; "[]int"; "[]int64"; "[]uint"; "[]uint64"].

Lemma convert_numeric_empty valueType :
  In valueType numericTypes ->
  exists slice, convert valueType "" = Some (slice, Nothing).
Proof.
  intros H. simpl in H.
  repeat (destruct H as [<-|H]; [eexists; reflexivity|]). done.
Qed.

Lemma assigned_numeric_empty valueType old :
  In valueType numericTypes -> assigned valueType old "" = old.
Proof.
  intros H. unfold assigned.
  destruct (convert_numeric_empty _ H) as (s & ->). destruct s; done.
Qed.

Lemma refused_numeric_empty valueType :
  In valueType numericTypes -> refused valueType "" = None.
Proof.
  intros H. unfold refused.
  destruct (convert_numeric_empty _ H) as (s & ->). done.
Qed.

(** *** What the arguments of a flag leave in its field *)



Lemma convert_Nothing valueType v slice :
  convert valueType v = Some (slice, Nothing) ->
  isEmpty v = true /\ isBool valueType = false /\ isString valueType = false.
Proof.
  intros H. unfold convert in H.
  repeat match type of H with
         | (if String.eqb ?a ?b then _ else _) = _ =>
             destruct (String.eqb_spec a b) as [->|_]
         end; try discriminate;
    injection H as _ H;
    unfold parseBool, parseFloat, parseInt, parseUint in H;
    destruct (isEmpty v) eqn:E; repeat case_match; try discriminate; done.
Qed.



Lemma store_own id i s v f a :
  lookupFlagByID s id = Some f ->
  CanSet (flagsRaw s) (f_fieldIndex f) = true ->
  args s !! i = Some a ->
  FieldByIndex (flagsRaw (store id i s v)) (f_fieldIndex f)
    = assigned (f_valueType f) (FieldByIndex (flagsRaw s) (f_fieldIndex f)) v
  /\ args (store id i s v) !! i
     = Some (match refused (f_valueType f) v with
             | Some e => arg_err (Some e) a
             | None => a
             end).
Proof.
  intros Hl Hc Ha. unfold store.
  destruct (setFlag_own s id v f Hl Hc) as [Hf He].
  pose proof (setFlag_args s id v) as Hargs.
  destruct (setFlag s id v) as [s' [e|]]; cbn [fst snd] in *; rewrite <- He.
  - split; [done|]. cbn [onArg withArgs args].
    rewrite list_lookup_alter_eq, Hargs, Ha. done.
  - split; [done|]. rewrite Hargs. done.
Qed.






Lemma Kind_eqb_eq a b : Kind_eqb a b = true <-> a = b.
Proof. destruct a, b; simpl; split; intros; congruence. Qed.




Lemma resolution_args fs : args (resolution fs) = args (each applyArgs fs).
Proof.
  unfold resolution. rewrite required_args.
  apply fold_args. apply resolve_args.
Qed.



(** *** One turn of argument segmentation *)

Lemma nameAndDash_spec arg d s :
  d = "-" \/ d = "--" -> a_arg arg = d +:+ s ->
  exists dashes,
    nameAndDash arg = arg_dash dashes (arg_name (TrimSpace (TrimLeft s dash)) arg)
    /\ isEmpty dashes = false.
Proof.
  intros Hd Ha. unfold nameAndDash. cbn [a_arg arg_name].
  rewrite Ha, (TrimLeft_dashes d s Hd), (HasPrefix_dash d s Hd).
  destruct (HasPrefix (d +:+ s) "--"); eexists; split; done.
Qed.

Lemma equals_clean : headClean (String equals "") = true.
Proof. vm_compute. reflexivity. Qed.

(** A dashed token with [=]: the name is what stands before the first
    [=], the value what stands after it, quotes trimmed. *)
Lemma parseArg_equals l i arg d n w :
  l !! i = Some arg -> a_kind arg = KindArg ->
  d = "-" \/ d = "--" -> isName n = true ->
  a_arg arg = d +:+ n +:+ String equals w ->
  tailClean (String equals w) = true ->
  exists arg',
    parseArg l i !! i = Some arg'
    /\ a_name arg' = TrimLeft n dash
    /\ a_value arg' = trimQuotes w
    /\ a_hasEq arg' = true
    /\ a_unset arg' = (isEmpty (trimQuotes w) || a_unset arg)
    /\ a_kind arg' = KindArg
    /\ a_err arg' = a_err arg.
Proof.
  intros Hl Hkind Hd Hn Ha Hclean.
  destruct (nameAndDash_spec arg d _ Hd Ha) as (dashes & Hnd & Hdash).
  rewrite TrimLeft_app in Hnd by done.
  rewrite TrimSpace_name in Hnd; [|apply isName_TrimLeft; done|done..].
  unfold parseArg. rewrite Hl, Hkind. cbn [Kind_eqb negb]. rewrite Hnd.
  cbn [a_dash arg_dash a_name arg_name]. rewrite Hdash.
  unfold hasEquals. rewrite equals_found by (apply isName_TrimLeft; done).
  rewrite list_lookup_insert_eq by (eapply lookup_lt_Some; done).
  eexists. split; [reflexivity|].
  unfold takeValue. cbn [a_name arg_name arg_dash arg_hasEq].
  rewrite SplitN2_name by (apply isName_TrimLeft; done).
  cbn [hd tl Join fold_right]. rewrite append_empty.
  unfold markUnset. cbn [a_hasEq a_value arg_value arg_name arg_hasEq arg_dash andb].
  destruct (isEmpty (trimQuotes w)); destruct arg; cbn; repeat split; done.
Qed.

(** A dashed token without [=], followed by a token of kind ["arg"] that
    has no dash: the next token is the value, quotes trimmed. *)
Lemma parseArg_next l i arg next d n :
  l !! i = Some arg -> a_kind arg = KindArg ->
  d = "-" \/ d = "--" -> isName n = true ->
  a_arg arg = d +:+ n ->
  l !! S i = Some next -> a_kind next = KindArg ->
  HasPrefix (a_arg next) "-" = false ->
  exists arg' next',
    parseArg l i !! i = Some arg'
    /\ parseArg l i !! S i = Some next'
    /\ a_name arg' = TrimLeft n dash
    /\ a_value arg' = trimQuotes (a_arg next)
    /\ a_kind next' = KindArgval
    /\ a_value next' = trimQuotes (a_arg next).
Proof.
  intros Hl Hkind Hd Hn Ha Hnext Hknext Hpre.
  destruct (nameAndDash_spec arg d _ Hd Ha) as (dashes & Hnd & Hdash).
  pose proof (isName_TrimLeft _ Hn) as Hn1.
  rewrite <- (append_empty (TrimLeft n dash)) in Hnd.
  rewrite TrimSpace_name in Hnd by done. rewrite append_empty in Hnd.
  unfold parseArg. rewrite Hl, Hkind. cbn [Kind_eqb negb]. rewrite Hnd.
  cbn [a_dash arg_dash a_name arg_name]. rewrite Hdash.
  assert (hasEquals (TrimLeft n dash) = false) as ->.
  { unfold hasEquals.
    rewrite <- (append_empty (TrimLeft n dash)), !(Index_name _ "") by done.
    reflexivity. }
  rewrite Hnext, Hknext, Hpre. cbn [Kind_eqb negb andb takeNext].
  pose proof (lookup_lt_Some _ _ _ Hl) as Hlt.
  pose proof (lookup_lt_Some _ _ _ Hnext) as Hlt'.
  rewrite list_lookup_insert_ne by lia.
  rewrite list_lookup_insert_eq by done.
  rewrite list_lookup_insert_eq by (rewrite length_insert; done).
  eexists _, _. split; [reflexivity|]. split; [reflexivity|].
  unfold markUnset.
  cbn [a_hasEq a_value a_name a_kind arg_value arg_name arg_hasEq arg_dash
         arg_indexTo arg_parentID arg_kind].
  destruct (a_hasEq arg && isEmpty (trimQuotes (a_arg next))); done.
Qed.

(** A dashed token without [=] that no value follows. *)
Lemma parseArg_bare l i arg d n :
  l !! i = Some arg -> a_kind arg = KindArg ->
  d = "-" \/ d = "--" -> isName n = true ->
  a_arg arg = d +:+ n ->
  a_hasEq arg = false ->
  match l !! S i with
  | Some next => Kind_eqb (a_kind next) KindArg && negb (HasPrefix (a_arg next) "-") = false
  | None => True
  end ->
  exists arg',
    parseArg l i !! i = Some arg'
    /\ a_name arg' = TrimLeft n dash
    /\ a_value arg' = a_value arg
    /\ a_unset arg' = a_unset arg
    /\ a_kind arg' = KindArg
    /\ a_err arg' = a_err arg.
Proof.
  intros Hl Hkind Hd Hn Ha Heq Hnext.
  destruct (nameAndDash_spec arg d _ Hd Ha) as (dashes & Hnd & Hdash).
  pose proof (isName_TrimLeft _ Hn) as Hn1.
  rewrite <- (append_empty (TrimLeft n dash)) in Hnd.
  rewrite TrimSpace_name in Hnd by done. rewrite append_empty in Hnd.
  unfold parseArg. rewrite Hl, Hkind. cbn [Kind_eqb negb]. rewrite Hnd.
  cbn [a_dash arg_dash a_name arg_name]. rewrite Hdash.
  assert (hasEquals (TrimLeft n dash) = false) as ->.
  { unfold hasEquals.
    rewrite <- (append_empty (TrimLeft n dash)), !(Index_name _ "") by done.
    reflexivity. }
  pose proof (lookup_lt_Some _ _ _ Hl) as Hlt.
  assert (markUnset (arg_dash dashes (arg_name (TrimLeft n dash) arg))
          = arg_dash dashes (arg_name (TrimLeft n dash) arg)) as Em.
  { unfold markUnset. cbn [a_hasEq arg_dash arg_name]. rewrite Heq. done. }
  exists (arg_dash dashes (arg_name (TrimLeft n dash) arg)).
  split; [|destruct arg; cbn in *; repeat split; done].
  destruct (l !! S i) as [next|].
  - rewrite Hnext, Em. rewrite list_lookup_insert_eq by done. done.
  - rewrite Em. rewrite list_lookup_insert_eq by done. done.
Qed.

Lemma tailClean_cons c u : u <> "" -> tailClean (String c u) = tailClean u.
Proof.
  intros Hu. unfold tailClean. rewrite rev_String.
  destruct (rev u) as [|d t] eqn:E; [apply rev_empty in E; done|]. done.
Qed.

Lemma tailClean_quoted q v :
  q = dquote \/ q = squote -> tailClean (String q (v +:+ String q "")) = true.
Proof.
  intros Hq. unfold tailClean.
  assert (rev (String q (v +:+ String q "")) = String q (rev v +:+ String q "")) as ->.
  { rewrite rev_String, rev_app. reflexivity. }
  destruct Hq as [-> | ->]; vm_compute; reflexivity.
Qed.

(** *** One turn of the first loop on an argument without value *)

Lemma applyArg_error k i s f a e :
  flags s !! k = Some f -> args s !! i = Some a -> a_kind a = KindArg ->
  a_err (checkValue f a) = Some e ->
  args (applyArg k s i) !! i = Some (checkValue f a).
Proof.
  intros Hk Ha Hkind He. unfold applyArg.
  rewrite Hk, Ha, Hkind, He. cbn [Kind_eqb negb onArg onFlag withArgs withFlags args].
  rewrite list_lookup_alter_eq, Ha. done.
Qed.

Lemma applyArg_stored k i s f a :
  WF s -> flags s !! k = Some f -> args s !! i = Some a -> a_kind a = KindArg ->
  CanSet (flagsRaw s) (f_fieldIndex f) = true ->
  a_err (checkValue f a) = None ->
  negb (isEmpty (f_delimiter f)) && HasPrefix (f_valueType f) "[]" = false ->
  let a1 := checkValue f a in
  args (applyArg k s i) !! i
    = Some (match refused (f_valueType f) (a_value a1) with
            | Some e => arg_err (Some e) a1
            | None => a1
            end)
  /\ FieldByIndex (flagsRaw (applyArg k s i)) (f_fieldIndex f)
     = assigned (f_valueType f) (FieldByIndex (flagsRaw s) (f_fieldIndex f))
         (a_value a1).
Proof.
  intros Hwf Hk Ha Hkind Hc He Hd a1. unfold applyArg.
  rewrite Hk, Ha, Hkind. cbn [Kind_eqb negb]. rewrite He, Hd. fold a1.
  set (s2 := onArg i (fun _ => a1) (onFlag k (flag_valueBy ByArg) s)).
  assert (args s2 !! i = Some a1) as Ha2.
  { unfold s2. cbn [onArg onFlag withArgs withFlags args].
    rewrite list_lookup_alter_eq, Ha. done. }
  assert (step s s2) as S2.
  { eapply step_trans; [apply (step_onFlag k (flag_valueBy ByArg)); done|].
    apply step_onArg. intros a0 Ha0. cbn [onFlag withFlags args] in Ha0.
    rewrite Ha in Ha0. injection Ha0 as <-. apply checkValue_step. }
  assert (lookupFlagByID s2 (f_id f) = Some (flag_valueBy ByArg f)) as Hl.
  { apply (lookup_own s2 k (flag_valueBy ByArg f)); [exact (WF_step _ _ S2 Hwf)|].
    unfold s2. cbn [onArg onFlag withArgs withFlags flags].
    rewrite list_lookup_alter_eq, Hk. done. }
  destruct (store_own (f_id f) i s2 (a_value a1) _ a1 Hl Hc Ha2) as [Hfield Ha'].
  split; [exact Ha'|exact Hfield].
Qed.

Lemma checkValue_true f a :
  isBool (f_valueType f) = true -> a_value a = "" -> a_unset a = false ->
  checkValue f a = arg_value "true" a.
Proof.
  intros Hb Hv Hu. unfold checkValue. rewrite Hb, Hv, Hu. reflexivity.
Qed.

Lemma checkValue_needs f a :
  a_value a = "" ->
  (isBool (f_valueType f) = true /\ a_unset a = true)
  \/ (isBool (f_valueType f) = false /\ isString (f_valueType f) = true
      /\ a_unset a = false)
  \/ (isBool (f_valueType f) = false /\ isString (f_valueType f) = false) ->
  checkValue f a = arg_err (Some (needsValue a)) a.
Proof.
  intros Hv H. unfold checkValue. rewrite Hv.
  destruct (isBool (f_valueType f)) eqn:Eb, (isString (f_valueType f)) eqn:Es,
    (a_unset a) eqn:Eu;
    cbn [isEmpty String.eqb andb orb negb]; rewrite ?Hv, ?Eu;
    cbn [isEmpty String.eqb andb orb negb]; try reflexivity;
    exfalso; destruct H as [[? ?]|[(? & ? & ?)|[? ?]]]; congruence.
Qed.

Lemma checkValue_keep f a :
  a_value a = "" -> isBool (f_valueType f) = false ->
  isString (f_valueType f) = true -> a_unset a = true ->
  checkValue f a = a.
Proof.
  intros Hv Hb Hs Hu. unfold checkValue. rewrite Hb, Hs.
  cbn [andb orb negb]. rewrite Hv, Hu. reflexivity.
Qed.

Lemma isString_not_bool valueType :
  isString valueType = true -> isBool valueType = false.
Proof.
  unfold isString, isBool. intros H.
  apply orb_prop in H as [H|H]; apply String.eqb_eq in H; subst; reflexivity.
Qed.

Lemma WF_withArgs l fs : WF fs -> WF (withArgs l fs).
Proof. intros H. exact H. Qed.

(** *** Scalar and list types *)

Definition scalarTypes : list string :=
  ["bool"; "float64"; "int"; "int64"; "uint"; "uint64"; "string"].

Definition sliceTypes : list string :=
  ["[]bool"; "[]float64"; "[]int"; "[]int64"; "[]uint"; "[]uint64"; "[]string"].

Lemma convert_scalar valueType p slice r :
  In valueType scalarTypes -> convert valueType p = Some (slice, r) -> slice = false.
Proof.
  intros H. simpl in H.
  repeat (destruct H as [<-|H]; [cbn; congruence|]). done.
Qed.

Lemma convert_slice valueType p slice r :
  In valueType sliceTypes -> convert valueType p = Some (slice, r) -> slice = true.
Proof.
  intros H. simpl in H.
  repeat (destruct H as [<-|H]; [cbn; congruence|]). done.
Qed.






(** ** The properties of the specification *)

(** C1. Precedence.  For a flag of kind ["arg"] whose field can be set,
    the three loops of [New] pick one source, in this order.  Once an
    argument of kind ["arg"] matched the flag, with or without error, the
    source is the argument, and the field ends as the first loop left it or
    at the zero value: neither the environment nor the default is looked
    at.  Otherwise a variable set in the environment is handed to
    [setFlag] with source ["env"]; otherwise a non-empty default is, with
    source ["default"]; otherwise the flag and its field are left alone. *)
Theorem precedence fs k flag :
  WF fs ->
  flags fs !! k = Some flag ->
  f_kind flag = KindArg ->
  f_valueBy flag = ByNone ->
  CanSet (flagsRaw fs) (f_fieldIndex flag) = true ->
  let idx := f_fieldIndex flag in
  let old := FieldByIndex (flagsRaw fs) idx in
  let final := FieldByIndex (flagsRaw (resolution fs)) idx in
  exists flag',
    flags (resolution fs) !! k = Some flag'
    /\ if hasArgument fs flag then
         f_valueBy flag' = ByArg
         /\ (final = FieldByIndex (flagsRaw (each applyArgs fs)) idx
             \/ zero (f_valueType flag) = Some final)
       else
         match LookupEnv (f_env flag) with
         | Some ev =>
             f_valueBy flag' = ByEnv
             /\ final = assigned (f_valueType flag) old ev
         | None =>
             if negb (isEmpty (f_valueDefault flag)) then
               f_valueBy flag' = ByDefault
               /\ final = assigned (f_valueType flag) old (f_valueDefault flag)
             else
               f_valueBy flag' = ByNone /\ final = old
         end.
Proof.
  intros Hwf Hk Hkind Hby Hc idx old final.
  destruct (bound_flag fs k flag Hwf Hk Hkind) as (Hwf1 & S1 & Hk1 & Hraw1).
  pose proof (resolved_flag _ k _ Hwf1 Hk1) as H2. cbn zeta in H2.
  destruct H2 as (Hwf2 & S2 & Ha2 & H2).
  assert (CanSet (flagsRaw (each applyArgs fs)) = CanSet (flagsRaw fs)) as Hcs
    by apply S1.
  unfold final, resolution. rewrite required_flagsRaw.
  destruct (hasArgument fs flag) eqn:Ha.
  - cbn [flag_valueBy f_valueBy ValueBy_eqb f_fieldIndex f_valueType] in H2.
    destruct H2 as ((f2 & Hk2 & Hv2 & _) & Hd & _).
    destruct (required_source _ k f2 Hk2) as (f3 & Hk3 & Hv3 & _).
    exists f3. split; [done|]. split; [congruence|]. exact Hd.
  - specialize (Hraw1 eq_refl). rewrite Hby in H2. cbn [ValueBy_eqb] in H2.
    rewrite Hcs, Hraw1 in H2.
    destruct (LookupEnv (f_env flag)) as [ev|].
    + destruct (H2 Hc) as [Hk2 Hf2].
      destruct (required_source _ k _ Hk2) as (f3 & Hk3 & Hv3 & _).
      exists f3. split; [done|]. split; [|exact Hf2].
      rewrite Hv3. destruct (refused (f_valueType flag) ev); done.
    + destruct (negb (isEmpty (f_valueDefault flag))).
      * destruct (H2 Hc) as [Hk2 Hf2].
        destruct (required_source _ k _ Hk2) as (f3 & Hk3 & Hv3 & _).
        exists f3. split; [done|]. split; [|exact Hf2].
        rewrite Hv3. destruct (refused (f_valueType flag) (f_valueDefault flag)); done.
      * destruct H2 as [Hk2 Hf2].
        destruct (required_source _ k _ Hk2) as (f3 & Hk3 & Hv3 & _).
        exists f3. split; [done|]. split; [congruence|exact Hf2].
Qed.

(** C5. Roll back.  When the loops of [New] end with the source of a flag
    being the argument and the only argument that matched it carrying an
    error, the field of the flag holds the zero value of its type, and
    [Errors] reports the error of the argument. *)
Theorem rolled_back fs k flag i z :
  WF fs ->
  flags fs !! k = Some flag ->
  f_kind flag = KindArg ->
  CanSet (flagsRaw fs) (f_fieldIndex flag) = true ->
  zero (f_valueType flag) = Some z ->
  f_args flag = [i] ->
  forall flag' a e,
    flags (resolution fs) !! k = Some flag' ->
    f_valueBy flag' = ByArg ->
    args (resolution fs) !! i = Some a ->
    a_err a = Some e ->
    FieldByIndex (flagsRaw (resolution fs)) (f_fieldIndex flag) = z
    /\ In e (Errors (resolution fs)).
Proof.
  intros Hwf Hk Hkind Hc Hz Hargs flag' a e Hk' Hby Ha He.
  destruct (bound_flag fs k flag Hwf Hk Hkind) as (Hwf1 & S1 & Hk1 & _).
  set (f1 := if hasArgument fs flag then flag_valueBy ByArg flag else flag) in *.
  assert (decl f1 = decl flag) as Hd1 by (unfold f1; destruct (hasArgument fs flag); done).
  pose proof (resolved_flag _ k _ Hwf1 Hk1) as H2. cbn zeta in H2.
  destruct H2 as (Hwf2 & S2 & Ha2 & H2).
  assert (CanSet (flagsRaw (each applyArgs fs)) = CanSet (flagsRaw fs)) as Hcs
    by apply S1.
  assert (f_fieldIndex f1 = f_fieldIndex flag) as E1 by exact (f_equal f_fieldIndex Hd1).
  assert (f_valueType f1 = f_valueType flag) as E2 by exact (f_equal f_valueType Hd1).
  assert (f_args f1 = f_args flag) as E3 by exact (f_equal f_args Hd1).
  assert (f_env f1 = f_env flag) as E4 by exact (f_equal f_env Hd1).
  assert (f_valueDefault f1 = f_valueDefault flag) as E5
    by exact (f_equal f_valueDefault Hd1).
  rewrite E1, E2, E3, E4, E5, Hcs in H2. clear E1 E2 E3 E4 E5.
  unfold resolution in *. rewrite required_flagsRaw.
  rewrite required_args, Ha2 in Ha.
  assert (existsb (hasError (each applyArgs fs)) (f_args flag) = true) as Herr.
  { rewrite Hargs. simpl. unfold hasError. rewrite Ha, He. done. }
  split.
  - destruct (ValueBy_eqb (f_valueBy f1) ByArg) eqn:E1.
    + destruct H2 as (_ & _ & _ & Hzero). apply Hzero; done.
    + exfalso.
      assert (exists f2, flags (each resolve (each applyArgs fs)) !! k = Some f2
                         /\ f_valueBy f2 <> ByArg) as (f2 & Hk2 & Hne).
      { destruct (LookupEnv (f_env flag)) as [ev|].
        - destruct (H2 Hc) as [Hk2 _]. eexists. split; [exact Hk2|].
          destruct (refused (f_valueType flag) ev); done.
        - destruct (negb (isEmpty (f_valueDefault flag))).
          + destruct (H2 Hc) as [Hk2 _]. eexists. split; [exact Hk2|].
            destruct (refused (f_valueType flag) (f_valueDefault flag)); done.
          + destruct H2 as [Hk2 _]. exists f1. split; [done|].
            intros E. rewrite E in E1. done. }
      destruct (required_source _ k f2 Hk2) as (f3 & Hk3 & Hv3 & _).
      congruence.
  - eapply (Errors_arg _ k flag' i a e); [done| |rewrite required_args, Ha2; done|done].
    assert (decl flag' = decl flag) as Hd'.
    { destruct (step_lookup _ _ _ _ S2 Hk1) as (f2 & Hk2 & Hd2).
      destruct (required_source _ k f2 Hk2) as (f3 & Hk3 & _ & Hd3 & _).
      congruence. }
    assert (f_args flag' = f_args flag) as -> by exact (f_equal f_args Hd').
    rewrite Hargs. left. done.
Qed.


(** C10. The empty string and the numeric types.  For a flag of a numeric
    type whose field can be set, [setFlag] with the empty string returns no
    error and leaves the flag set as it is.  So when no argument of kind
    ["arg"] matched the flag and its variable is set to the empty string in
    the environment, the second loop marks the flag as resolved by
    ["env"], writes no error to it and leaves its field as it was, whatever
    the default; the third loop keeps the source and the field, and keeps
    the flag whole unless it is required. *)
Theorem empty_env fs k flag :
  WF fs ->
  flags fs !! k = Some flag ->
  f_kind flag = KindArg ->
  f_valueBy flag = ByNone ->
  CanSet (flagsRaw fs) (f_fieldIndex flag) = true ->
  In (f_valueType flag) numericTypes ->
  setFlag fs (f_id flag) "" = (fs, None)
  /\ (hasArgument fs flag = false ->
      LookupEnv (f_env flag) = Some "" ->
      flags (each resolve (each applyArgs fs)) !! k = Some (flag_valueBy ByEnv flag)
      /\ FieldByIndex (flagsRaw (resolution fs)) (f_fieldIndex flag)
         = FieldByIndex (flagsRaw fs) (f_fieldIndex flag)
      /\ exists flag',
           flags (resolution fs) !! k = Some flag'
           /\ f_valueBy flag' = ByEnv
           /\ (f_required flag = false -> flag' = flag_valueBy ByEnv flag)).
Proof.
  intros Hwf Hk Hkind Hby Hc Hnum. split.
  - pose proof (lookup_own _ _ _ Hwf Hk) as Hl.
    unfold setFlag.
    assert (Z.ltb (f_id flag) 0 = false) as ->.
    { unfold lookupFlagByID in Hl. destruct (Z.ltb (f_id flag) 0); done. }
    rewrite Hl, Hc. cbn [negb].
    destruct (convert_numeric_empty _ Hnum) as (s & ->). destruct s; done.
  - intros Ha Henv.
    destruct (bound_flag fs k flag Hwf Hk Hkind) as (Hwf1 & S1 & Hk1 & Hraw1).
    rewrite Ha in Hk1. specialize (Hraw1 Ha).
    pose proof (resolved_flag _ k _ Hwf1 Hk1) as H2. cbn zeta in H2.
    destruct H2 as (Hwf2 & S2 & Ha2 & H2).
    assert (CanSet (flagsRaw (each applyArgs fs)) = CanSet (flagsRaw fs)) as Hcs
      by apply S1.
    rewrite Hby, Henv, Hcs, Hraw1 in H2. cbn [ValueBy_eqb] in H2.
    destruct (H2 Hc) as [Hk2 Hf2].
    rewrite refused_numeric_empty in Hk2 by done.
    rewrite assigned_numeric_empty in Hf2 by done.
    split; [done|]. unfold resolution. rewrite required_flagsRaw.
    split; [done|].
    destruct (required_source _ k _ Hk2) as (f3 & Hk3 & Hv3 & _ & Hsame).
    exists f3. split; [done|]. split; [done|]. exact Hsame.
Qed.



(** C4, as amended.  An argument without value.  The argument at [i] is as
    the first loop of [parseArgs] makes it and its token is a dashed name,
    either bare (no [=], and no token after it that can be its value) or
    with an explicitly empty value ([--name=], or [--name=] and a pair of
    quotes).  After its turn of segmentation and its turn on the flag at
    [k], whose field can be set: bare on a [bool] flag, the field is
    [true]; explicitly empty on a boolean flag, the argument has the error
    "needs a value"; on a flag neither boolean nor string it has that error
    in both forms; bare on a string flag it has that error; explicitly
    empty on a [string] flag it has no error and the field is the empty
    string. *)
Theorem value_or_error fs k i flag arg d n :
  WF fs ->
  flags fs !! k = Some flag ->
  CanSet (flagsRaw fs) (f_fieldIndex flag) = true ->
  args fs !! i = Some arg ->
  a_kind arg = KindArg -> a_value arg = "" -> a_hasEq arg = false ->
  a_unset arg = false -> a_err arg = None ->
  d = "-" \/ d = "--" ->
  isName n = true ->
  let bare :=
    a_arg arg = d +:+ n
    /\ match args fs !! S i with
       | Some next =>
           Kind_eqb (a_kind next) KindArg && negb (HasPrefix (a_arg next) "-") = false
       | None => True
       end in
  let emptied :=
    a_arg arg = d +:+ n +:+ "="
    \/ a_arg arg = d +:+ n +:+ String equals (String dquote (String dquote ""))
    \/ a_arg arg = d +:+ n +:+ String equals (String squote (String squote "")) in
  let fs' := applyArg k (withArgs (parseArg (args fs) i) fs) i in
  let idx := f_fieldIndex flag in
  let failed :=
    exists arg', args fs' !! i = Some arg'
                 /\ a_name arg' = TrimLeft n dash
                 /\ a_err arg' = Some (needsValue arg') in
  (bare -> f_valueType flag = "bool" ->
   exists arg', args fs' !! i = Some arg' /\ a_err arg' = None
                /\ a_value arg' = "true"
                /\ FieldByIndex (flagsRaw fs') idx = Scalar (VBool true))
  /\ (emptied -> isBool (f_valueType flag) = true -> failed)
  /\ (bare \/ emptied ->
      isBool (f_valueType flag) = false -> isString (f_valueType flag) = false ->
      failed)
  /\ (bare -> isString (f_valueType flag) = true -> failed)
  /\ (emptied -> f_valueType flag = "string" ->
      exists arg', args fs' !! i = Some arg' /\ a_err arg' = None
                   /\ a_value arg' = ""
                   /\ FieldByIndex (flagsRaw fs') idx = Scalar (VString "")).
Proof.
  intros Hwf Hk Hc Ha Hkind Hv Heq Hu He Hd Hn bare emptied fs' idx failed.
  set (fs1 := withArgs (parseArg (args fs) i) fs) in *.
  assert (bare -> exists a1, args fs1 !! i = Some a1 /\ a_name a1 = TrimLeft n dash
            /\ a_value a1 = "" /\ a_unset a1 = false /\ a_kind a1 = KindArg
            /\ a_err a1 = None) as Hbare.
  { intros [Hb1 Hb2].
    destruct (parseArg_bare (args fs) i arg d n Ha Hkind Hd Hn Hb1 Heq Hb2)
      as (a1 & H1 & H2 & H3 & H4 & H5 & H6).
    exists a1. split; [exact H1|]. repeat split; congruence. }
  assert (emptied -> exists a1, args fs1 !! i = Some a1 /\ a_name a1 = TrimLeft n dash
            /\ a_value a1 = "" /\ a_unset a1 = true /\ a_kind a1 = KindArg
            /\ a_err a1 = None) as Hemptied.
  { intros Hem.
    assert (exists w, a_arg arg = d +:+ n +:+ String equals w
                      /\ tailClean (String equals w) = true
                      /\ trimQuotes w = "") as (w & Hw1 & Hw2 & Hw3).
    { destruct Hem as [H|[H|H]]; eexists; (split; [exact H|]);
        split; vm_compute; reflexivity. }
    destruct (parseArg_equals (args fs) i arg d n w Ha Hkind Hd Hn Hw1 Hw2)
      as (a1 & H1 & H2 & H3 & H4 & H5 & H6 & H7).
    rewrite Hw3 in H3, H5. exists a1. split; [exact H1|].
    repeat split; try done. congruence. }
  assert (forall a1, args fs1 !! i = Some a1 -> a_name a1 = TrimLeft n dash ->
            a_kind a1 = KindArg ->
            checkValue flag a1 = arg_err (Some (needsValue a1)) a1 -> failed) as Hfail.
  { intros a1 H1 H2 H3 H4. exists (checkValue flag a1). split.
    - eapply applyArg_error; [done..|]. rewrite H4. done.
    - rewrite H4. destruct a1; cbn in *. split; done. }
  repeat split.
  - intros Hb Ht. destruct (Hbare Hb) as (a1 & H1 & H2 & H3 & H4 & H5 & H6).
    assert (checkValue flag a1 = arg_value "true" a1) as Ecv.
    { apply checkValue_true; [rewrite Ht|..]; done. }
    destruct (applyArg_stored k i fs1 flag a1 Hwf Hk H1 H5 Hc) as [Hr Hf].
    + rewrite Ecv. done.
    + rewrite Ht. rewrite andb_false_r. done.
    + rewrite Ecv, Ht in Hr, Hf. cbn [a_value arg_value] in Hr, Hf.
      eexists. split; [exact Hr|]. split; [done|]. split; [done|]. exact Hf.
  - intros Hem Hb. destruct (Hemptied Hem) as (a1 & H1 & H2 & H3 & H4 & H5 & H6).
    apply (Hfail a1); try done. apply checkValue_needs; [done|]. left. done.
  - intros Hcase Hb Hs.
    assert (exists a1, args fs1 !! i = Some a1 /\ a_name a1 = TrimLeft n dash
              /\ a_value a1 = "" /\ a_kind a1 = KindArg)
      as (a1 & H1 & H2 & H3 & H5).
    { destruct Hcase as [Hcase|Hcase];
        [destruct (Hbare Hcase) as (a1 & ? & ? & ? & ? & ? & ?)
        |destruct (Hemptied Hcase) as (a1 & ? & ? & ? & ? & ? & ?)];
        exists a1; done. }
    apply (Hfail a1); try done. apply checkValue_needs; [done|]. right. right. done.
  - intros Hb Hs. destruct (Hbare Hb) as (a1 & H1 & H2 & H3 & H4 & H5 & H6).
    apply (Hfail a1); try done. apply checkValue_needs; [done|]. right. left.
    split; [apply isString_not_bool; done|done].
  - intros Hem Ht. destruct (Hemptied Hem) as (a1 & H1 & H2 & H3 & H4 & H5 & H6).
    assert (checkValue flag a1 = a1) as Ecv.
    { apply checkValue_keep; rewrite ?Ht; done. }
    destruct (applyArg_stored k i fs1 flag a1 Hwf Hk H1 H5 Hc) as [Hr Hf].
    + rewrite Ecv. done.
    + rewrite Ht. rewrite andb_false_r. done.
    + rewrite Ecv, Ht, H3 in Hr, Hf.
      eexists. split; [exact Hr|]. split; [done|]. split; [done|]. exact Hf.
Qed.

(** C9, as amended.  Quotes.  For a dashed name followed by [=] and a
    value that starts with a double or a single quote, the turn of
    segmentation leaves as value what [strings.Trim] makes of it: every
    quote of that kind at its start and at its end is taken off, paired or
    not.  So a value in quotes with no quote inside comes out as what
    stands between the quotes.  The same holds for the token that follows
    a dashed name without [=] and is taken as its value. *)
Theorem quotes_trimmed l i arg d n q w :
  l !! i = Some arg ->
  a_kind arg = KindArg ->
  d = "-" \/ d = "--" ->
  isName n = true ->
  q = dquote \/ q = squote ->
  (a_arg arg = d +:+ n +:+ String equals (String q w) ->
   tailClean (String q w) = true ->
   exists arg',
     parseArg l i !! i = Some arg'
     /\ a_value arg' = Trim (String q w) q
     /\ forall v, quoteFree v = true -> w = v +:+ String q "" -> a_value arg' = v)
  /\ (forall v, quoteFree v = true ->
      a_arg arg = d +:+ n +:+ String equals (String q (v +:+ String q "")) ->
      exists arg', parseArg l i !! i = Some arg' /\ a_value arg' = v)
  /\ (forall next,
        a_arg arg = d +:+ n -> l !! S i = Some next -> a_kind next = KindArg ->
        a_arg next = String q w ->
        exists arg' next',
          parseArg l i !! i = Some arg'
          /\ parseArg l i !! S i = Some next'
          /\ a_kind next' = KindArgval
          /\ a_value arg' = Trim (String q w) q
          /\ a_value next' = Trim (String q w) q
          /\ forall v, quoteFree v = true -> w = v +:+ String q "" ->
                       a_value arg' = v).
Proof.
  intros Hl Hkind Hd Hn Hq.
  assert (forall u, a_arg arg = d +:+ n +:+ String equals (String q u) ->
            tailClean (String q u) = true ->
            exists arg', parseArg l i !! i = Some arg'
                         /\ a_value arg' = Trim (String q u) q) as Heq.
  { intros u Ha Hc.
    destruct (parseArg_equals l i arg d n (String q u) Hl Hkind Hd Hn Ha)
      as (a1 & H1 & _ & H3 & _).
    { rewrite tailClean_cons; done. }
    exists a1. split; [done|]. rewrite H3. apply trimQuotes_quote. done. }
  repeat split.
  - intros Ha Hc. destruct (Heq w Ha Hc) as (a1 & H1 & H2).
    exists a1. split; [done|]. split; [done|].
    intros v Hv ->. rewrite H2. apply Trim_quoted; done.
  - intros v Hv Ha.
    destruct (Heq _ Ha (tailClean_quoted q v Hq)) as (a1 & H1 & H2).
    exists a1. split; [done|]. rewrite H2. apply Trim_quoted; done.
  - intros next Ha Hnext Hknext Hanext.
    destruct (parseArg_next l i arg next d n Hl Hkind Hd Hn Ha Hnext Hknext)
      as (a1 & n1 & H1 & H2 & H3 & H4 & H5 & H6).
    { rewrite Hanext. destruct Hq as [-> | ->]; reflexivity. }
    rewrite Hanext, trimQuotes_quote in H4, H6 by done.
    exists a1, n1. repeat split; try done.
    intros v Hv ->. rewrite H4. apply Trim_quoted; done.
Qed.


(** ** Further properties of the code *)

(** *** setFlag and unsetFlag *)

(** X1. A call of [setFlag] or of [unsetFlag] that returns an error has
    written nothing: the flag set it leaves is the one it was given. *)
Theorem failure_writes_nothing fs id :
  (forall v e, (setFlag fs id v).2 = Some e -> (setFlag fs id v).1 = fs)
  /\ (forall e, (unsetFlag fs id).2 = Some e -> (unsetFlag fs id).1 = fs).
Proof.
  split.
  - intros v e. unfold setFlag. repeat case_match; cbn [fst snd]; done.
  - intros e. unfold unsetFlag. repeat case_match; cbn [fst snd]; done.
Qed.

(** X2. [setFlag] and [unsetFlag] write to the struct only, and in the
    struct to the field of the flag only: the flags, the arguments, the
    commands and every other field are as before, and so is what can be
    set. *)
Theorem writes_one_field fs id v j :
  (forall flag, lookupFlagByID fs id = Some flag -> f_fieldIndex flag <> j) ->
  let after (fs' : FlagSet) :=
    flags fs' = flags fs /\ args fs' = args fs /\ argsRaw fs' = argsRaw fs
    /\ commands fs' = commands fs
    /\ CanSet (flagsRaw fs') = CanSet (flagsRaw fs)
    /\ FieldByIndex (flagsRaw fs') j = FieldByIndex (flagsRaw fs) j in
  after (setFlag fs id v).1 /\ after (unsetFlag fs id).1.
Proof.
  intros H after. unfold after. split.
  - split; [apply setFlag_flags|]. split; [apply setFlag_args|].
    split; [unfold setFlag; repeat case_match; done|].
    split; [unfold setFlag; repeat case_match; done|].
    split; [apply setFlag_CanSet|apply setFlag_other; done].
  - split; [apply unsetFlag_flags|]. split; [apply unsetFlag_args|].
    split; [unfold unsetFlag; repeat case_match; done|].
    split; [unfold unsetFlag; repeat case_match; done|].
    split; [apply unsetFlag_CanSet|apply unsetFlag_other; done].
Qed.

(** X3. For a flag of type [bool] or [[]bool], [setFlag] takes the two
    words [true] and [false] and nothing else: any other value, the empty
    string and [1] and [TRUE] among them, is the error "failed to parse ...
    as bool". *)
Theorem bool_words_only fs id v flag :
  lookupFlagByID fs id = Some flag ->
  CanSet (flagsRaw fs) (f_fieldIndex flag) = true ->
  isBool (f_valueType flag) = true ->
  (setFlag fs id v).2
  = (if String.eqb v "true" || String.eqb v "false" then None
     else Some ("failed to parse '" +:+ v +:+ "' as bool"))
  /\ forall b, v = (if b : bool then "true" else "false") ->
       FieldByIndex (flagsRaw (setFlag fs id v).1) (f_fieldIndex flag)
       = if String.eqb (f_valueType flag) "bool" then Scalar (VBool b)
         else Append (FieldByIndex (flagsRaw fs) (f_fieldIndex flag)) (VBool b).
Proof.
  intros Hl Hc Hb.
  destruct (setFlag_own fs id v flag Hl Hc) as [Hf He].
  rewrite Hf, He. unfold refused, assigned, isBool in *.
  apply orb_true_iff in Hb as [Hb|Hb]; apply String.eqb_eq in Hb; rewrite Hb;
    cbn [convert String.eqb Ascii.eqb Bool.eqb]; unfold parseBool, failedToParse.
  - split.
    + destruct (String.eqb v "true"); [done|]. destruct (String.eqb v "false"); done.
    + intros [] ->; done.
  - split.
    + destruct (String.eqb v "true"); [done|]. destruct (String.eqb v "false"); done.
    + intros [] ->; done.
Qed.

Lemma digits_ge s : forall acc n, 0 <= acc -> Strconv.digits s acc = Some n -> acc <= n.
Proof.
  induction s as [|c s IH]; intros acc n Hacc H; simpl in H.
  - injection H as <-. lia.
  - unfold Strconv.digit in H.
    destruct (Z.leb 48 (Z.of_N (N_of_ascii c)) && Z.leb (Z.of_N (N_of_ascii c)) 57)
      eqn:E; [|done].
    apply andb_prop in E as [E1 E2]. apply Z.leb_le in E1, E2.
    apply IH in H; lia.
Qed.

Lemma ParseUint_range s bitSize n :
  Strconv.ParseUint s bitSize = Some n -> 0 <= n < 2 ^ bitSize.
Proof.
  unfold Strconv.ParseUint. destruct s as [|c s]; [done|].
  destruct (Strconv.digits (String c s) 0) as [m|] eqn:E; [|done].
  destruct (Z.leb m (2 ^ bitSize - 1)) eqn:E1; [|done].
  intros [= <-]. apply Z.leb_le in E1. apply digits_ge in E; lia.
Qed.

Lemma ParseInt_range s bitSize n :
  0 < bitSize ->
  Strconv.ParseInt s bitSize = Some n ->
  - 2 ^ (bitSize - 1) <= n < 2 ^ (bitSize - 1).
Proof.
  intros Hb. unfold Strconv.ParseInt. destruct s as [|c s]; [done|].
  destruct (Strconv.ParseUint _ bitSize) as [un|] eqn:E; [|done].
  apply ParseUint_range in E.
  assert (0 < 2 ^ (bitSize - 1)) by (apply Z.pow_pos_nonneg; lia).
  destruct (Ascii.eqb c "-").
  - destruct (Z.leb un (2 ^ (bitSize - 1))) eqn:E1; [|done].
    intros [= <-]. apply Z.leb_le in E1. lia.
  - destruct (Z.ltb un (2 ^ (bitSize - 1))) eqn:E1; [|done].
    intros [= <-]. apply Z.ltb_lt in E1. lia.
Qed.

(** The integer types of [setFlag]'s switch: whether the type is signed
    and the [bitSize] its case hands to [strconv]. *)
Definition integerTypes : list (string * (bool * Z)) :=
  [("int", (true, 64)); ("int64", (true, 64));
   ("uint", (false, 64)); ("uint64", (false, 64));
   ("[]int", (true, 32)); ("[]int64", (true, 64));
   ("[]uint", (false, 32)); ("[]uint64", (false, 64))].

(** X4. What [setFlag] stores for an integer type is within the range its
    case parses for: 64 bits for [int], [int64], [uint], [uint64],
    [[]int64] and [[]uint64], but 32 bits for the elements of [[]int] and
    [[]uint].  A value that is accepted and not empty is stored as that
    number, in place of the field or at the end of the list. *)
Theorem integers_in_range fs id v flag signed bits :
  lookupFlagByID fs id = Some flag ->
  CanSet (flagsRaw fs) (f_fieldIndex flag) = true ->
  In (f_valueType flag, (signed, bits)) integerTypes ->
  isEmpty v = false ->
  (setFlag fs id v).2 = None ->
  exists n,
    (if signed then - 2 ^ (bits - 1) <= n < 2 ^ (bits - 1) else 0 <= n < 2 ^ bits)
    /\ (if signed then Strconv.ParseInt v bits else Strconv.ParseUint v bits) = Some n
    /\ FieldByIndex (flagsRaw (setFlag fs id v).1) (f_fieldIndex flag)
       = let x := if signed then VInt n else VUint n in
         if HasPrefix (f_valueType flag) "[]"
         then Append (FieldByIndex (flagsRaw fs) (f_fieldIndex flag)) x
         else Scalar x.
Proof.
  intros Hl Hc Ht Hv.
  destruct (setFlag_own fs id v flag Hl Hc) as [Hf He].
  rewrite Hf, He. unfold refused, assigned. clear Hf He.
  simpl in Ht.
  repeat (destruct Ht as [Ht|Ht];
          [injection Ht as <- <- <-; intros He;
           cbn [convert String.eqb Ascii.eqb Bool.eqb] in *;
           unfold parseInt, parseUint in *; rewrite Hv in *;
           first [ destruct (Strconv.ParseInt v _) as [n|] eqn:E; [|done];
                   exists n; split; [apply ParseInt_range in E; [exact E|lia]|done]
                 | destruct (Strconv.ParseUint v _) as [n|] eqn:E; [|done];
                   exists n; split; [apply ParseUint_range in E; exact E|done] ]
          |]).
  done.
Qed.

(** X5. For a scalar type, [setFlag] overwrites: after a call with any
    value, a call with a value that is not empty returns and leaves in the
    field what it would have without the first call. *)
Theorem scalar_overwritten fs id v1 v2 flag :
  lookupFlagByID fs id = Some flag ->
  CanSet (flagsRaw fs) (f_fieldIndex flag) = true ->
  In (f_valueType flag) scalarTypes ->
  isEmpty v2 = false ->
  (setFlag (setFlag fs id v1).1 id v2).2 = (setFlag fs id v2).2
  /\ ((setFlag fs id v2).2 = None ->
      FieldByIndex (flagsRaw (setFlag (setFlag fs id v1).1 id v2).1) (f_fieldIndex flag)
      = FieldByIndex (flagsRaw (setFlag fs id v2).1) (f_fieldIndex flag)).
Proof.
  intros Hl Hc Ht Hv.
  set (fs1 := (setFlag fs id v1).1).
  assert (lookupFlagByID fs1 id = Some flag) as Hl1.
  { rewrite <- Hl. apply lookupFlagByID_flags, setFlag_flags. }
  assert (CanSet (flagsRaw fs1) (f_fieldIndex flag) = true) as Hc1.
  { unfold fs1. rewrite setFlag_CanSet. done. }
  destruct (setFlag_own fs id v2 flag Hl Hc) as [Hf He].
  destruct (setFlag_own fs1 id v2 flag Hl1 Hc1) as [Hf1 He1].
  rewrite Hf, He, Hf1, He1. split; [done|].
  unfold refused, assigned.
  destruct (convert (f_valueType flag) v2) as [[s r]|] eqn:E; [|done].
  rewrite (convert_scalar _ _ _ _ Ht E).
  destruct r as [x| |e]; [done| |done].
  destruct (convert_Nothing _ _ _ E) as [E1 _]. congruence.
Qed.

(** X6. [unsetFlag] undoes [setFlag]: whatever a call of [setFlag] did,
    [unsetFlag] then returns no error and leaves the zero value of the type
    in the field; and on a list type a value accepted after that is the one
    element of the list. *)
Theorem unset_undoes_set fs id v flag z :
  lookupFlagByID fs id = Some flag ->
  CanSet (flagsRaw fs) (f_fieldIndex flag) = true ->
  zero (f_valueType flag) = Some z ->
  let unset := unsetFlag (setFlag fs id v).1 id in
  unset.2 = None
  /\ FieldByIndex (flagsRaw unset.1) (f_fieldIndex flag) = z
  /\ (In (f_valueType flag) sliceTypes ->
      forall w, (setFlag unset.1 id w).2 = None -> isEmpty w = false ->
                exists x, FieldByIndex (flagsRaw (setFlag unset.1 id w).1) (f_fieldIndex flag)
                          = Slice [x]).
Proof.
  intros Hl Hc Hz unset.
  set (fs1 := (setFlag fs id v).1) in *.
  assert (lookupFlagByID fs1 id = Some flag) as Hl1.
  { rewrite <- Hl. apply lookupFlagByID_flags, setFlag_flags. }
  assert (CanSet (flagsRaw fs1) (f_fieldIndex flag) = true) as Hc1.
  { unfold fs1. rewrite setFlag_CanSet. done. }
  destruct (unsetFlag_own fs1 id flag z Hl1 Hc1 Hz) as [Hf He]. fold unset in Hf, He.
  split; [done|]. split; [done|].
  intros Ht w Hw Hne.
  assert (lookupFlagByID unset.1 id = Some flag) as Hl2.
  { rewrite <- Hl1. apply lookupFlagByID_flags, unsetFlag_flags. }
  assert (CanSet (flagsRaw unset.1) (f_fieldIndex flag) = true) as Hc2.
  { unfold unset. rewrite unsetFlag_CanSet. done. }
  destruct (setFlag_own unset.1 id w flag Hl2 Hc2) as [Hf2 He2].
  rewrite Hf2, Hf. rewrite He2 in Hw. unfold refused, assigned in *.
  assert (z = Slice []) as ->.
  { simpl in Ht. unfold zero in Hz.
    repeat (destruct Ht as [Ht|Ht]; [rewrite <- Ht in Hz; cbn in Hz; congruence|]).
    done. }
  destruct (convert (f_valueType flag) w) as [[s r]|] eqn:E; [|done].
  rewrite (convert_slice _ _ _ _ Ht E).
  destruct r as [x| |e]; [by exists x| |done].
  destruct (convert_Nothing _ _ _ E) as [E1 _]. congruence.
Qed.

(** *** checkFlags *)

(** The flag at [i] declares a name that a flag before it, with the same
    parent index, declares too; [e] is the error for it. *)
Definition redeclared (l : list Flag) (i : nat) (v : Flag)
    (name : Flag -> string) (what : string) (e : error) : Prop :=
  name v <> ""
  /\ exists j u, (j < i)%nat /\ l !! j = Some u /\ name u = name v
                 /\ f_parentIndex u = f_parentIndex v
                 /\ e = what +:+ name v +:+ " in " +:+ f_name v
                        +:+ " field is already defined in " +:+ f_name u +:+ " field".

(** The faults [checkFlags] has an error for. *)
Definition faulty (l : list Flag) (i : nat) (v : Flag) (e : error) : Prop :=
  redeclared l i v f_short "short argument " e
  \/ redeclared l i v f_long "long argument " e
  \/ redeclared l i v f_command "command " e
  \/ ((1 < String.length (f_short v))%nat
      /\ e = "short argument " +:+ f_short v +:+ " in " +:+ f_name v
             +:+ " field must be one character long")
  \/ (existsb (String.eqb (f_valueType v)) supportedFlagTypes = false
      /\ e = invalidType (f_valueType v)).

(** Every entry of a map of [checkFlags] is the declaration of a flag seen. *)
Definition tracks (name : Flag -> string) (p : list Flag) (m : gmap string declared) : Prop :=
  forall key d, m !! key = Some d ->
    exists j u, p !! j = Some u /\ name u = key
                /\ d_name d = f_name u /\ d_parent d = f_parentIndex u.

Definition checked (p : list Flag) (st : checkState) : Prop :=
  tracks f_short p (shorts st) /\ tracks f_long p (longs st)
  /\ tracks f_command p (commandsSeen st)
  /\ Forall (fun e => exists i v, p !! i = Some v /\ faulty p i v e) (result st).

Lemma tracks_snoc name p v m : tracks name p m -> tracks name (p ++ [v]) m.
Proof.
  intros H key d Hd. destruct (H key d Hd) as (j & u & Hj & Hu).
  exists j, u. split; [|done]. apply lookup_app_l_Some. done.
Qed.

Lemma tracks_insert name p v m :
  tracks name p m ->
  tracks name (p ++ [v]) (<[name v := mkDeclared (f_name v) (f_parentIndex v)]> m).
Proof.
  intros H key d Hd. destruct (decide (name v = key)) as [<-|Hne].
  - rewrite lookup_insert_eq in Hd. injection Hd as <-.
    exists (length p), v. split; [|done].
    rewrite lookup_app_r by lia. rewrite Nat.sub_diag. done.
  - rewrite lookup_insert_ne in Hd by done. exact (tracks_snoc name p v m H key d Hd).
Qed.

Lemma isEmpty_false s : isEmpty s = false <-> s <> "".
Proof. unfold isEmpty. apply String.eqb_neq. Qed.

Lemma sameParent_Some m key parent d :
  sameParent m key parent = Some d -> m !! key = Some d /\ d_parent d = parent.
Proof.
  unfold sameParent. destruct (m !! key) as [d'|]; [|done].
  destruct (Index_eqb (d_parent d') parent) eqn:E; [|done].
  intros [= <-]. split; [done|]. apply Index_eqb_eq. done.
Qed.

Lemma tracks_redeclared name what p v m d :
  tracks name p m -> isEmpty (name v) = false ->
  sameParent m (name v) (f_parentIndex v) = Some d ->
  redeclared (p ++ [v]) (length p) v name what
    (what +:+ name v +:+ " in " +:+ f_name v
       +:+ " field is already defined in " +:+ d_name d +:+ " field").
Proof.
  intros Hm Hne Hd. apply sameParent_Some in Hd as [Hd Hp].
  destruct (Hm _ _ Hd) as (j & u & Hj & Hu & Hn & Hpu).
  split; [apply isEmpty_false; done|].
  exists j, u. split; [apply lookup_lt_Some in Hj; done|].
  split; [apply lookup_app_l_Some; done|]. split; [done|].
  split; [congruence|]. rewrite Hn. done.
Qed.

Lemma faulty_snoc p q i v e : faulty p i v e -> faulty (p ++ q) i v e.
Proof.
  assert (forall name what, redeclared p i v name what e ->
            redeclared (p ++ q) i v name what e) as H.
  { intros name what (Hne & j & u & Hlt & Hj & Hrest).
    split; [done|]. exists j, u. split; [done|].
    split; [apply lookup_app_l_Some; done|done]. }
  unfold faulty. intros [F|[F|[F|F]]]; eauto.
Qed.

Lemma checked_snoc p v st : checked p st -> checked (p ++ [v]) st.
Proof.
  intros (H1 & H2 & H3 & H4).
  split; [apply tracks_snoc; done|]. split; [apply tracks_snoc; done|].
  split; [apply tracks_snoc; done|].
  eapply Forall_impl; [exact H4|]. intros e (i & u & Hi & Hf).
  exists i, u. split; [apply lookup_app_l_Some; done|apply faulty_snoc; done].
Qed.

Lemma last_faulty p v e :
  faulty (p ++ [v]) (length p) v e ->
  exists i u, (p ++ [v])%list !! i = Some u /\ faulty (p ++ [v]) i u e.
Proof.
  intros H. exists (length p), v. split; [|done].
  rewrite lookup_app_r by lia. rewrite Nat.sub_diag. done.
Qed.

Lemma checkShort_checked p v st :
  checked p st ->
  checked (p ++ [v]) (checkShort v st)
  /\ longs (checkShort v st) = longs st
  /\ commandsSeen (checkShort v st) = commandsSeen st.
Proof.
  intros H. pose proof (checked_snoc p v st H) as (H1 & H2 & H3 & H4).
  destruct H as (T & _). unfold checkShort.
  destruct (isEmpty (f_short v)) eqn:Ev; [done|].
  destruct (sameParent _ _ _) as [sf|] eqn:Es.
  - split; [|done]. repeat split; try done. cbn [result].
    apply Forall_app. split; [done|]. apply Forall_singleton, last_faulty.
    left. exact (tracks_redeclared f_short _ p v _ sf T Ev Es).
  - destruct (Nat.ltb 1 (String.length (f_short v))) eqn:El.
    + split; [|done]. repeat split; try done. cbn [result].
      apply Forall_app. split; [done|]. apply Forall_singleton, last_faulty.
      right. right. right. left. split; [apply Nat.ltb_lt; done|done].
    + split; [|done]. repeat split; try done. cbn [shorts].
      apply (tracks_insert f_short). done.
Qed.

Lemma checkLong_checked p v st :
  checked (p ++ [v]) st -> tracks f_long p (longs st) ->
  checked (p ++ [v]) (checkLong v st)
  /\ commandsSeen (checkLong v st) = commandsSeen st.
Proof.
  intros (H1 & H2 & H3 & H4) T. unfold checkLong.
  destruct (isEmpty (f_long v)) eqn:Ev; [done|].
  destruct (sameParent _ _ _) as [sf|] eqn:Es.
  - split; [|done]. repeat split; try done. cbn [result].
    apply Forall_app. split; [done|]. apply Forall_singleton, last_faulty.
    right. left. exact (tracks_redeclared f_long _ p v _ sf T Ev Es).
  - split; [|done]. repeat split; try done. cbn [longs].
    apply (tracks_insert f_long). done.
Qed.

Lemma checkCommand_checked p v st :
  checked (p ++ [v]) st -> tracks f_command p (commandsSeen st) ->
  checked (p ++ [v]) (checkCommand v st).
Proof.
  intros (H1 & H2 & H3 & H4) T. unfold checkCommand.
  destruct (isEmpty (f_command v)) eqn:Ev; [done|].
  destruct (sameParent _ _ _) as [sf|] eqn:Es.
  - repeat split; try done. cbn [result].
    apply Forall_app. split; [done|]. apply Forall_singleton, last_faulty.
    right. right. left. exact (tracks_redeclared f_command _ p v _ sf T Ev Es).
  - repeat split; try done. cbn [commandsSeen].
    apply (tracks_insert f_command). done.
Qed.

Lemma checkType_checked p v st :
  checked (p ++ [v]) st -> checked (p ++ [v]) (checkType v st).
Proof.
  intros (H1 & H2 & H3 & H4). unfold checkType.
  destruct (existsb _ _) eqn:Et; [done|].
  repeat split; try done. cbn [result].
  apply Forall_app. split; [done|]. apply Forall_singleton, last_faulty.
  right. right. right. right. done.
Qed.

Lemma checkFlag_checked p v st : checked p st -> checked (p ++ [v]) (checkFlag st v).
Proof.
  intros H. pose proof H as (_ & T2 & T3 & _).
  destruct (checkShort_checked p v st H) as (H1 & E1 & E2).
  destruct (checkLong_checked p v _ H1) as (H2 & E3); [rewrite E1; done|].
  unfold checkFlag. apply checkType_checked, checkCommand_checked; [done|].
  rewrite E3, E2. done.
Qed.

Lemma fold_checked l : forall p st,
  checked p st -> checked (p ++ l) (fold_left checkFlag l st).
Proof.
  induction l as [|v l IH]; intros p st H; simpl.
  - rewrite app_nil_r. done.
  - replace (p ++ v :: l)%list with ((p ++ [v]) ++ l)%list
      by (rewrite <- app_assoc; done).
    apply IH, checkFlag_checked. done.
Qed.

(** X7. [checkFlags] reports real faults only.  Each of its errors is for
    a flag that declares a short, long or command name which a flag before
    it with the same parent index declares too, or a short name longer than
    one character, or a type that is not supported.  So a name used again
    under another parent is never an error. *)
Theorem errors_are_faults l e :
  In e (checkFlags l) -> exists i v, l !! i = Some v /\ faulty l i v e.
Proof.
  intros H. unfold checkFlags in H.
  assert (checked [] (mkCheckState [] ∅ ∅ ∅)) as H0.
  { repeat split; try (intros key d Hd; cbn in Hd; rewrite lookup_empty in Hd; done).
    cbn [result]. done. }
  apply (fold_checked l) in H0 as (_ & _ & _ & HF). simpl in HF.
  rewrite Forall_forall in HF. apply HF, list_elem_of_In. done.
Qed.

(** The errors of [checkFlags] are only ever added to. *)
Lemma checkFlag_grows st v :
  exists es, result (checkFlag st v) = (result st ++ es)%list
             /\ (existsb (String.eqb (f_valueType v)) supportedFlagTypes = false ->
                 In (invalidType (f_valueType v)) es)
             /\ ((1 < String.length (f_short v))%nat -> es <> []).
Proof.
  unfold checkFlag.
  assert (exists e1, result (checkShort v st) = (result st ++ e1)%list
                     /\ ((1 < String.length (f_short v))%nat -> e1 <> []))
    as (e1 & E1 & L1).
  { unfold checkShort. destruct (isEmpty (f_short v)) eqn:Ev.
    - exists []. rewrite app_nil_r. split; [done|].
      apply String.eqb_eq in Ev. rewrite Ev. simpl. lia.
    - destruct (sameParent _ _ _); [eexists; split; [reflexivity|done]|].
      destruct (Nat.ltb 1 (String.length (f_short v))) eqn:El.
      + eexists; split; [reflexivity|done].
      + exists []. rewrite app_nil_r. split; [done|].
        apply Nat.ltb_ge in El. lia. }
  assert (forall s, exists e2, result (checkLong v s) = (result s ++ e2)%list) as L2.
  { intros s. unfold checkLong. repeat case_match;
      first [by eexists | exists []; rewrite app_nil_r; done]. }
  assert (forall s, exists e3, result (checkCommand v s) = (result s ++ e3)%list) as L3.
  { intros s. unfold checkCommand. repeat case_match;
      first [by eexists | exists []; rewrite app_nil_r; done]. }
  destruct (L2 (checkShort v st)) as (e2 & E2).
  destruct (L3 (checkLong v (checkShort v st))) as (e3 & E3).
  unfold checkType. destruct (existsb _ _) eqn:Et.
  - exists (e1 ++ e2 ++ e3)%list. rewrite E3, E2, E1, <- !app_assoc.
    split; [done|]. split; [done|]. intros H. apply L1 in H. destruct e1; done.
  - exists (e1 ++ e2 ++ e3 ++ [invalidType (f_valueType v)])%list.
    cbn [result]. rewrite E3, E2, E1, <- !app_assoc.
    split; [done|]. split.
    + intros _. rewrite !in_app_iff. right. right. right. left. done.
    + intros H. apply L1 in H. destruct e1; done.
Qed.

Lemma fold_grows l : forall st,
  exists es, result (fold_left checkFlag l st) = (result st ++ es)%list
             /\ forall v, In v l ->
                  (existsb (String.eqb (f_valueType v)) supportedFlagTypes = false ->
                   In (invalidType (f_valueType v)) es)
                  /\ ((1 < String.length (f_short v))%nat -> es <> []).
Proof.
  induction l as [|w l IH]; intros st; simpl.
  - exists []. rewrite app_nil_r. done.
  - destruct (checkFlag_grows st w) as (e1 & E1 & T1 & L1).
    destruct (IH (checkFlag st w)) as (e2 & E2 & H2).
    exists (e1 ++ e2)%list. rewrite E2, E1, <- app_assoc. split; [done|].
    intros v [<-|Hv].
    + split.
      * intros H. apply in_app_iff. left. auto.
      * intros H. apply L1 in H. destruct e1; done.
    + destruct (H2 v Hv) as [T2 L2]. split.
      * intros H. apply in_app_iff. right. auto.
      * intros H. apply L2 in H. destruct e1, e2; done.
Qed.

(** X8. [checkFlags] misses no unsupported type and no long short name:
    for every flag whose type is not among the supported ones its errors
    hold "invalid type ...", and a flag with a short name of more than one
    character makes them non-empty. *)
Theorem faults_reported l v :
  In v l ->
  (existsb (String.eqb (f_valueType v)) supportedFlagTypes = false ->
   In (invalidType (f_valueType v)) (checkFlags l))
  /\ ((1 < String.length (f_short v))%nat -> checkFlags l <> []).
Proof.
  intros Hv. unfold checkFlags.
  destruct (fold_grows l (mkCheckState [] ∅ ∅ ∅)) as (es & -> & H).
  cbn [result app]. apply H. done.
Qed.

(** The three kinds of name [checkFlags] keeps a map for. *)
Inductive nameKind := ShortName | LongName | CommandName.

Definition nameOf (kind : nameKind) : Flag -> string :=
  match kind with
  | ShortName => f_short
  | LongName => f_long
  | CommandName => f_command
  end.

Definition seenOf (kind : nameKind) : checkState -> gmap string declared :=
  match kind with
  | ShortName => shorts
  | LongName => longs
  | CommandName => commandsSeen
  end.

Definition checkOf (kind : nameKind) : Flag -> checkState -> checkState :=
  match kind with
  | ShortName => checkShort
  | LongName => checkLong
  | CommandName => checkCommand
  end.

(** There is an error already, or the name [s] is remembered with the
    parent index [parent]. *)
Definition held (kind : nameKind) (s : string) (parent : list nat) (st : checkState) : Prop :=
  result st <> []
  \/ exists d, seenOf kind st !! s = Some d /\ d_parent d = parent.

Lemma sameParent_held m s parent d :
  m !! s = Some d -> d_parent d = parent -> sameParent m s parent = Some d.
Proof.
  intros H <-. unfold sameParent. rewrite H, Index_eqb_refl. done.
Qed.

Lemma app_not_nil {A} (l : list A) x : (l ++ [x])%list <> [].
Proof. destruct l; done. Qed.

(** One step of a check on a flag: with the name [s] and the parent it is
    held with, an error; with the name [s], the name is held afterwards;
    with another name, what is held stays. *)
Lemma check_held kind s parent w st :
  s <> "" ->
  (nameOf kind w = s -> f_parentIndex w = parent) ->
  (nameOf kind w = s -> held kind s parent (checkOf kind w st))
  /\ (held kind s parent st ->
      held kind s parent (checkOf kind w st)
      /\ (nameOf kind w = s -> result (checkOf kind w st) <> [])).
Proof.
  intros Hs Hp.
  assert (nameOf kind w = s -> isEmpty (nameOf kind w) = false) as Hne.
  { intros ->. apply isEmpty_false. done. }
  split.
  - intros Hw. specialize (Hp Hw). specialize (Hne Hw).
    destruct kind; cbn [nameOf seenOf checkOf] in *;
      unfold checkShort, checkLong, checkCommand, held; rewrite Hne.
    + destruct (sameParent _ _ _); [left; apply app_not_nil|].
      destruct (Nat.ltb _ _); [left; apply app_not_nil|].
      right. cbn [seenOf shorts]. rewrite Hw, lookup_insert_eq.
      eexists; split; [reflexivity|done].
    + destruct (sameParent _ _ _); [left; apply app_not_nil|].
      right. cbn [seenOf longs]. rewrite Hw, lookup_insert_eq.
      eexists; split; [reflexivity|done].
    + destruct (sameParent _ _ _); [left; apply app_not_nil|].
      right. cbn [seenOf commandsSeen]. rewrite Hw, lookup_insert_eq.
      eexists; split; [reflexivity|done].
  - intros [Hr|(d & Hd & Hdp)].
    + split; [left|intros _];
        destruct kind; cbn [checkOf]; unfold checkShort, checkLong, checkCommand;
        repeat case_match; cbn [result]; try done; apply app_not_nil.
    + destruct (decide (nameOf kind w = s)) as [Hw|Hw].
      * specialize (Hp Hw). specialize (Hne Hw).
        assert (result (checkOf kind w st) <> []) as Hres.
        { destruct kind; cbn [nameOf seenOf checkOf] in *;
            unfold checkShort, checkLong, checkCommand; rewrite Hne, Hw, Hp;
            rewrite (sameParent_held _ _ _ d Hd Hdp); apply app_not_nil. }
        split; [left; done|done].
      * split; [|done].
        destruct kind; cbn [nameOf seenOf checkOf] in *;
          unfold checkShort, checkLong, checkCommand, held;
          repeat case_match; cbn [result seenOf shorts longs commandsSeen];
          first [ left; apply app_not_nil
                | right; exists d; split; [|done];
                  rewrite ?lookup_insert_ne by done; done ].
Qed.

(** A check of another kind, and the check of the type, leave what is held. *)
Lemma held_kept kind s parent st st' :
  (result st <> [] -> result st' <> []) ->
  seenOf kind st' = seenOf kind st ->
  held kind s parent st -> held kind s parent st'.
Proof.
  intros Hr Hm [H|H]; [left; auto|right; rewrite Hm; done].
Qed.

Lemma result_kept w st :
  (result st <> [] -> result (checkShort w st) <> [])
  /\ (result st <> [] -> result (checkLong w st) <> [])
  /\ (result st <> [] -> result (checkCommand w st) <> [])
  /\ (result st <> [] -> result (checkType w st) <> []).
Proof.
  unfold checkShort, checkLong, checkCommand, checkType.
  repeat split; intros H; repeat case_match; cbn [result]; try done;
    apply app_not_nil.
Qed.

Lemma seen_kept w st :
  longs (checkShort w st) = longs st
  /\ commandsSeen (checkShort w st) = commandsSeen st
  /\ shorts (checkLong w st) = shorts st
  /\ commandsSeen (checkLong w st) = commandsSeen st
  /\ shorts (checkCommand w st) = shorts st
  /\ longs (checkCommand w st) = longs st
  /\ shorts (checkType w st) = shorts st
  /\ longs (checkType w st) = longs st
  /\ commandsSeen (checkType w st) = commandsSeen st.
Proof.
  unfold checkShort, checkLong, checkCommand, checkType.
  repeat split; repeat case_match; done.
Qed.

Lemma checkFlag_held kind s parent w st :
  s <> "" ->
  (nameOf kind w = s -> f_parentIndex w = parent) ->
  (nameOf kind w = s -> held kind s parent (checkFlag st w))
  /\ (held kind s parent st ->
      held kind s parent (checkFlag st w)
      /\ (nameOf kind w = s -> result (checkFlag st w) <> [])).
Proof.
  intros Hs Hp. unfold checkFlag.
  set (s1 := checkShort w st). set (s2 := checkLong w s1). set (s3 := checkCommand w s2).
  destruct (seen_kept w st) as (A1 & A2 & _).
  destruct (seen_kept w s1) as (_ & _ & B1 & B2 & _).
  destruct (seen_kept w s2) as (_ & _ & _ & _ & C1 & C2 & _).
  destruct (seen_kept w s3) as (_ & _ & _ & _ & _ & _ & D1 & D2 & D3).
  destruct (result_kept w st) as (R1 & _).
  destruct (result_kept w s1) as (_ & R2 & _).
  destruct (result_kept w s2) as (_ & _ & R3 & _).
  destruct (result_kept w s3) as (_ & _ & _ & R4).
  fold s1 in A1, A2, R1. fold s2 in B1, B2, R2. fold s3 in C1, C2, R3.
  destruct kind.
  - destruct (check_held ShortName s parent w st Hs Hp) as [F G].
    cbn [checkOf] in F, G. fold s1 in F, G.
    assert (held ShortName s parent s1 -> held ShortName s parent (checkType w s3)) as K.
    { intros H. apply (held_kept _ _ _ s3); [done|done|].
      apply (held_kept _ _ _ s2); [done|done|].
      apply (held_kept _ _ _ s1); done. }
    split; [auto|]. intros H. destruct (G H) as [G1 G2]. split; [auto|].
    intros Hw. auto.
  - destruct (check_held LongName s parent w s1 Hs Hp) as [F G].
    cbn [checkOf] in F, G. fold s2 in F, G.
    assert (held LongName s parent s2 -> held LongName s parent (checkType w s3)) as K.
    { intros H. apply (held_kept _ _ _ s3); [done|done|].
      apply (held_kept _ _ _ s2); done. }
    split; [auto|]. intros H.
    assert (held LongName s parent s1) as H1 by (apply (held_kept _ _ _ st); done).
    destruct (G H1) as [G1 G2]. split; [auto|]. intros Hw. auto.
  - destruct (check_held CommandName s parent w s2 Hs Hp) as [F G].
    cbn [checkOf] in F, G. fold s3 in F, G.
    assert (held CommandName s parent s3 -> held CommandName s parent (checkType w s3)) as K.
    { intros H. apply (held_kept _ _ _ s3); done. }
    split; [auto|]. intros H.
    assert (held CommandName s parent s2) as H2.
    { apply (held_kept _ _ _ s1); [done|done|]. apply (held_kept _ _ _ st); done. }
    destruct (G H2) as [G1 G2]. split; [auto|]. intros Hw. auto.
Qed.

Lemma fold_held kind s parent l : forall st,
  s <> "" ->
  (forall w, In w l -> nameOf kind w = s -> f_parentIndex w = parent) ->
  held kind s parent st ->
  held kind s parent (fold_left checkFlag l st)
  /\ ((exists w, In w l /\ nameOf kind w = s) ->
      result (fold_left checkFlag l st) <> []).
Proof.
  induction l as [|w l IH]; intros st Hs Hp H; simpl.
  - split; [done|]. intros (w & [] & _).
  - destruct (checkFlag_held kind s parent w st Hs) as [_ G].
    { intros. apply Hp; [left|]; done. }
    destruct (G H) as [G1 G2].
    destruct (IH (checkFlag st w) Hs) as [I1 I2]; [|done|].
    { intros. apply Hp; [right|]; done. }
    split; [done|]. intros (x & [<-|Hx] & Hn).
    + specialize (G2 Hn).
      destruct (fold_grows l (checkFlag st w)) as (es & -> & _).
      destruct (result (checkFlag st w)); done.
    + apply I2. eauto.
Qed.

(** X9. A name declared twice under one parent and under no other is
    refused: when two flags of the list share a short, long or command name
    that is not empty, and every flag with that name has the same parent
    index, [checkFlags] returns an error. *)
Theorem same_scope_refused kind l j i u v :
  (j < i)%nat ->
  l !! j = Some u -> l !! i = Some v ->
  nameOf kind u = nameOf kind v ->
  nameOf kind v <> "" ->
  (forall w, In w l -> nameOf kind w = nameOf kind v ->
             f_parentIndex w = f_parentIndex v) ->
  checkFlags l <> [].
Proof.
  unfold checkFlags. generalize (mkCheckState [] ∅ ∅ ∅).
  revert j i. induction l as [|w l IH]; intros j i st Hji Hj Hi Hn Hs Hp; [done|].
  destruct i as [|i]; [lia|]. simpl in Hi. simpl.
  destruct j as [|j].
  - simpl in Hj. injection Hj as ->.
    destruct (checkFlag_held kind (nameOf kind v) (f_parentIndex v) u st Hs) as [F _].
    { intros. apply Hp; [left|]; done. }
    apply (fold_held kind (nameOf kind v) (f_parentIndex v) l _ Hs); [|auto|].
    { intros. apply Hp; [right|]; done. }
    exists v. split; [|done]. apply list_elem_of_In, list_elem_of_lookup. eauto.
  - simpl in Hj. apply (IH j i); try done; [lia|]. intros. apply Hp; [right|]; done.
Qed.

(** *** structToFlags *)

(** The fields [structToFlags] keeps: the flags and the commands. *)
Definition kept (fields : list Flag) : list Flag :=
  List.filter
    (fun flag => negb (isEmpty (f_short flag) && isEmpty (f_long flag)
                       && negb (Kind_eqb (f_kind flag) KindCommand)))
    fields.

Definition link (v vv : Flag) : Flag :=
  if Index_eqb (f_parentIndex v) (f_fieldIndex vv) then flag_parentID (f_id vv) v else v.

Lemma flag_parentID_same v : flag_parentID (f_parentID v) v = v.
Proof. destruct v; done. Qed.

Lemma fold_link all : forall v,
  exists pid, fold_left link all v = flag_parentID pid v.
Proof.
  induction all as [|x all IH]; intros v; simpl.
  - exists (f_parentID v). rewrite flag_parentID_same. done.
  - destruct (IH (link v x)) as (pid & ->). exists pid.
    unfold link. destruct (Index_eqb _ _); done.
Qed.

Lemma linkParent_fields all v : exists pid, linkParent all v = flag_parentID pid v.
Proof.
  unfold linkParent. destruct (isNil (f_parentIndex v)).
  - exists (f_parentID v). rewrite flag_parentID_same. done.
  - apply fold_link.
Qed.

Lemma fold_link_none all : forall v,
  (forall p, In p all -> f_fieldIndex p <> f_parentIndex v) ->
  fold_left link all v = v.
Proof.
  induction all as [|x all IH]; intros v H; simpl; [done|].
  assert (link v x = v) as ->.
  { unfold link. rewrite Index_eqb_neq; [done|]. intros E. apply (H x); [left|]; done. }
  apply IH. intros p Hp. apply H. right. done.
Qed.

Lemma fold_link_parent all : forall v p,
  NoDup (map f_fieldIndex all) -> In p all ->
  f_fieldIndex p = f_parentIndex v ->
  f_parentID (fold_left link all v) = f_id p.
Proof.
  induction all as [|x all IH]; intros v p Hn Hp He; [done|].
  simpl in Hn. apply NoDup_cons in Hn as [Hx Hn]. simpl.
  destruct Hp as [->|Hp].
  - unfold link at 2. rewrite He, Index_eqb_refl.
    rewrite fold_link_none; [done|].
    intros q Hq E. apply Hx. cbn [flag_parentID f_parentIndex] in E.
    rewrite He, <- E. apply list_elem_of_In, in_map. done.
  - apply IH; [done|done|]. unfold link. destruct (Index_eqb _ _); done.
Qed.

Lemma linkParent_id all v :
  f_id (linkParent all v) = f_id v
  /\ f_fieldIndex (linkParent all v) = f_fieldIndex v
  /\ f_parentIndex (linkParent all v) = f_parentIndex v.
Proof. destruct (linkParent_fields all v) as (pid & ->). done. Qed.

Lemma structToFlags_kept fields fl :
  structToFlags fields = inl fl -> fl = map (linkParent (kept fields)) (kept fields).
Proof.
  unfold structToFlags. fold (kept fields).
  destruct (checkFlags (kept fields)); [|done]. intros [= <-]. done.
Qed.

Lemma kept_NoDup {A} (g : Flag -> A) fields :
  NoDup (map g fields) -> NoDup (map g (kept fields)).
Proof.
  unfold kept. induction fields as [|x l IH]; intros H; [done|].
  simpl in H. apply NoDup_cons in H as [Hx H]. simpl.
  destruct (negb _); [|auto]. simpl. apply NoDup_cons. split; [|auto].
  intros Hin. apply Hx. apply list_elem_of_In in Hin. apply in_map_iff in Hin.
  destruct Hin as (y & Hy & Hin). apply filter_In in Hin as [Hin _].
  apply list_elem_of_In. rewrite <- Hy. apply in_map. done.
Qed.

(** The field declarations as [typeToStructField] numbers them: one id and
    one field index each, ids counted from zero. *)
Definition numbered (fields : list Flag) : Prop :=
  NoDup (map f_id fields)
  /\ NoDup (map f_fieldIndex fields)
  /\ Forall (fun f => 0 <= f_id f) fields.

Lemma WF_structToFlags fields fl s raw :
  numbered fields -> structToFlags fields = inl fl ->
  WF (mkFlagSet fl s [] raw false [] false).
Proof.
  intros (H1 & H2 & H3) E. apply structToFlags_kept in E as ->.
  unfold WF. cbn [flags].
  assert (map f_id (map (linkParent (kept fields)) (kept fields))
          = map f_id (kept fields)) as ->.
  { rewrite map_map. apply map_ext. intros. apply linkParent_id. }
  assert (map f_fieldIndex (map (linkParent (kept fields)) (kept fields))
          = map f_fieldIndex (kept fields)) as ->.
  { rewrite map_map. apply map_ext. intros. apply linkParent_id. }
  split; [apply kept_NoDup; done|]. split; [apply kept_NoDup; done|].
  apply Forall_forall. intros f Hf. apply list_elem_of_In, in_map_iff in Hf.
  destruct Hf as (g & <- & Hg).
  destruct (linkParent_id (kept fields) g) as (-> & _).
  rewrite Forall_forall in H3. apply H3, list_elem_of_In.
  apply filter_In in Hg as [Hg _]. done.
Qed.

(** X10. What [structToFlags] returns on success.  From field
    declarations with one id and one field index each, the flags are the
    kept declarations in their order, changed in [parentID] at most; each is
    found again by its id; and a flag whose parent index is the field index
    of a flag has the id of that flag as [parentID], so that the parent
    found by index is the parent found by id. *)
Theorem parents_linked fields fl s raw :
  numbered fields ->
  structToFlags fields = inl fl ->
  let fs := mkFlagSet fl s [] raw false [] false in
  map (flag_parentID (-1)) fl = map (flag_parentID (-1)) (kept fields)
  /\ forall k f, fl !! k = Some f ->
       lookupFlagByID fs (f_id f) = Some f
       /\ forall p, lookupFlagByIndex fs (f_parentIndex f) = Some p ->
            f_parentID f = f_id p /\ lookupFlagByID fs (f_parentID f) = Some p.
Proof.
  intros Hnum E fs.
  pose proof (WF_structToFlags fields fl s raw Hnum E) as Hwf. fold fs in Hwf.
  pose proof (structToFlags_kept fields fl E) as Hfl.
  split.
  { rewrite Hfl, map_map. apply map_ext. intros v.
    destruct (linkParent_fields (kept fields) v) as (pid & ->). done. }
  intros k f Hk. split; [exact (lookup_own fs k f Hwf Hk)|].
  intros p Hp. unfold lookupFlagByIndex in Hp.
  destruct (isNil (f_parentIndex f)) eqn:Hnil; [done|].
  apply find_some in Hp as [Hin Hidx]. apply Index_eqb_eq in Hidx.
  cbn [flags fs] in Hin.
  assert (f_parentID f = f_id p) as Hpid.
  { rewrite Hfl in Hin, Hk. apply in_map_iff in Hin as (p0 & <- & Hp0).
    rewrite list_lookup_fmap in Hk.
    destruct (kept fields !! k) as [f0|] eqn:Hk0; [|done].
    injection Hk as <-.
    destruct (linkParent_id (kept fields) p0) as (-> & Ei & _).
    destruct (linkParent_id (kept fields) f0) as (_ & _ & Ep).
    rewrite Ei, Ep in Hidx. rewrite Ep in Hnil.
    unfold linkParent at 1. rewrite Hnil.
    apply (fold_link_parent (kept fields) f0 p0); [|done|done].
    apply kept_NoDup. apply Hnum. }
  split; [done|]. rewrite Hpid.
  apply list_elem_of_In, list_elem_of_lookup in Hin as (j & Hj).
  exact (lookup_own fs j p Hwf Hj).
Qed.

(** *** Errors and the arguments no flag holds *)

(** [Errors] reports the error of each flag and the error of each
    argument a flag holds, and nothing else: an error of an argument that no
    flag holds is not reported. *)
Lemma Errors_exactly fs e :
  In e (Errors fs)
  <-> exists flag, In flag (flags fs)
        /\ (f_err flag = Some e
            \/ exists i arg, In i (f_args flag) /\ args fs !! i = Some arg
                             /\ a_err arg = Some e).
Proof.
  unfold Errors. rewrite in_flat_map. split.
  - intros (flag & Hf & He). exists flag. split; [done|].
    apply in_app_or in He as [He|He].
    + left. destruct (f_err flag) as [e'|]; [|done].
      destruct He as [<-|[]]. done.
    + right. apply in_flat_map in He as (i & Hi & He). exists i.
      destruct (args fs !! i) as [arg|]; [|done]. exists arg.
      destruct (a_err arg) as [e'|]; [|done]. destruct He as [<-|[]]. done.
  - intros (flag & Hf & [He|(i & arg & Hi & Ha & He)]); exists flag; (split; [done|]).
    + apply in_or_app. left. rewrite He. left. done.
    + apply in_or_app. right. apply in_flat_map. exists i. split; [done|].
      rewrite Ha, He. left. done.
Qed.

Lemma store_args_other id i fs v j :
  j <> i -> args (store id i fs v) !! j = args fs !! j.
Proof.
  intros Hj. unfold store. pose proof (setFlag_args fs id v) as H.
  destruct (setFlag fs id v) as [fs' [e|]]; cbn [fst] in H; [|rewrite H; done].
  cbn [onArg withArgs args]. rewrite list_lookup_alter_ne by done. rewrite H. done.
Qed.

Lemma storeEach_args_other id i values : forall fs j,
  j <> i -> args (storeEach id i fs values) !! j = args fs !! j.
Proof.
  unfold storeEach. induction values as [|v values IH]; intros fs j Hj; simpl; [done|].
  destruct (isEmpty (TrimSpace v)); [apply IH; done|].
  rewrite IH by done. apply store_args_other. done.
Qed.

Lemma applyArg_args_other k fs i j :
  j <> i -> args (applyArg k fs i) !! j = args fs !! j.
Proof.
  intros Hj. unfold applyArg.
  destruct (flags fs !! k) as [flag|]; [|done].
  destruct (args fs !! i) as [arg|]; [|done].
  destruct (negb _); [done|].
  assert (forall g, args (onArg i g (onFlag k (flag_valueBy ByArg) fs)) !! j
                    = args fs !! j) as H.
  { intros g. cbn [onArg onFlag withArgs withFlags args].
    rewrite list_lookup_alter_ne by done. done. }
  destruct (a_err (checkValue flag arg)); [apply H|].
  destruct (_ && _).
  - rewrite storeEach_args_other by done. apply H.
  - rewrite store_args_other by done. apply H.
Qed.

Lemma applyArg_fold_args_other k l : forall fs j,
  ~ In j l -> args (fold_left (applyArg k) l fs) !! j = args fs !! j.
Proof.
  induction l as [|i l IH]; intros fs j Hj; simpl; [done|].
  rewrite IH by (intros H; apply Hj; right; done).
  apply applyArg_args_other. intros ->. apply Hj. left. done.
Qed.

Lemma decl_fields f f' :
  decl f' = decl f -> f_kind f' = f_kind f /\ f_args f' = f_args f.
Proof.
  intros H. split; [exact (f_equal f_kind H)|exact (f_equal f_args H)].
Qed.

Lemma applyArgs_untouched fs j : forall l cur,
  (forall flag, In flag (flags fs) -> f_kind flag = KindArg -> ~ In j (f_args flag)) ->
  step fs cur ->
  args (fold_left applyArgs l cur) !! j = args cur !! j.
Proof.
  induction l as [|k l IH]; intros cur Hj Hs; simpl; [done|].
  rewrite IH; [|done|eapply step_trans; [exact Hs|apply applyArgs_step]].
  unfold applyArgs. destruct (flags cur !! k) as [f'|] eqn:Hk; [|done].
  destruct (negb (Kind_eqb (f_kind f') KindArg)) eqn:Ek; [done|].
  apply applyArg_fold_args_other.
  assert (exists f, flags fs !! k = Some f) as (f & Hf).
  { apply lookup_lt_is_Some. rewrite <- (step_length fs cur Hs).
    apply lookup_lt_Some in Hk. done. }
  destruct (step_lookup fs cur k f Hs Hf) as (f'' & Hk' & Hd).
  rewrite Hk in Hk'. injection Hk' as <-.
  apply decl_fields in Hd as [E1 E2]. rewrite E2. apply Hj.
  - apply list_elem_of_In. eapply list_elem_of_lookup_2. done.
  - rewrite <- E1. apply negb_false_iff in Ek. apply Kind_eqb_eq. done.
Qed.

(** X11. The loops of [New] leave alone every argument that no flag of
    kind ["arg"] holds: a token that matches no flag, a token taken as the
    value of another and the token of a command come out as they went in,
    without an error. *)
Theorem unmatched_untouched fs j :
  (forall flag, In flag (flags fs) -> f_kind flag = KindArg -> ~ In j (f_args flag)) ->
  args (resolution fs) !! j = args fs !! j.
Proof.
  intros Hj. rewrite resolution_args. unfold each.
  apply (applyArgs_untouched fs j); [done|apply step_refl].
Qed.

(** *** parseCommands *)

(** What the first loop of [parseCommands] gives a command and no later
    loop changes. *)
Definition declaredAs (c : Command) : Z * string * Z * Z :=
  (c_id c, c_command c, c_flagID c, c_parentID c).

Definition isCommand (f : Flag) : bool := Kind_eqb (f_kind f) KindCommand.

Lemma locate_declared argIndex argVal todo : forall cmds,
  map declaredAs (locate argIndex argVal todo cmds) = map declaredAs cmds.
Proof.
  induction todo as [|i todo IH]; intros cmds; simpl; [done|].
  destruct (cmds !! i) as [cmd|]; [|done].
  destruct (_ && _); [|apply IH].
  destruct (if negb _ then _ else _); [|apply IH].
  assert (map declaredAs (alter (command_found argIndex) i cmds)
          = map declaredAs cmds) as E by (apply map_alter_same; done).
  destruct i as [|p]; [done|].
  destruct (alter _ _ cmds !! p) as [prevCmd|]; [|done].
  destruct (negb _); [|done].
  rewrite map_alter_same by done. done.
Qed.

Lemma fold_declared {A} (g : list Command -> A -> list Command) (l : list A) :
  (forall cmds x, map declaredAs (g cmds x) = map declaredAs cmds) ->
  forall cmds, map declaredAs (fold_left g l cmds) = map declaredAs cmds.
Proof.
  intros Hg. induction l as [|x l IH]; intros cmds; simpl; [done|].
  rewrite IH. apply Hg.
Qed.

Lemma locateAll_declared raw cmds :
  map declaredAs (locateAll raw cmds) = map declaredAs cmds.
Proof.
  unfold locateAll. apply fold_declared. intros c [n v]. apply locate_declared.
Qed.

Lemma closeCommands_declared lenRaw cmds :
  map declaredAs (closeCommands lenRaw cmds) = map declaredAs cmds.
Proof.
  unfold closeCommands. apply fold_declared. intros c i. unfold closeCommand.
  destruct (c !! i) as [cmd|]; [|done]. destruct (_ || _); [done|].
  destruct (find _ _); apply map_alter_same; done.
Qed.

Lemma declare_fold fs fl : forall cmds lookup cnt,
  cnt = Z.of_nat (length cmds) ->
  map (fun c => (c_id c, c_command c, c_flagID c))
      (fold_left (declareCommand fs) fl (cmds, lookup, cnt)).1.1
  = (map (fun c => (c_id c, c_command c, c_flagID c)) cmds
     ++ imap (fun i f => (cnt + Z.of_nat i, f_command f, f_id f))
          (List.filter isCommand fl))%list.
Proof.
  induction fl as [|f fl IH]; intros cmds lookup cnt Hc; simpl.
  - rewrite app_nil_r. done.
  - unfold isCommand at 1. destruct (Kind_eqb (f_kind f) KindCommand) eqn:Ek.
    + rewrite IH by (rewrite length_app; simpl; lia).
      rewrite map_app, <- app_assoc. f_equal. simpl. rewrite Z.add_0_r. f_equal.
      apply imap_ext. intros i x _. simpl.
      replace (cnt + 1 + Z.of_nat i) with (cnt + Z.of_nat (S i)) by lia. done.
    + apply IH. done.
Qed.

(** X12. [parseCommands] keeps one command for each flag of kind
    ["command"], in the order of the flags, numbered from zero, with the
    name and the id of its flag, whatever the arguments are. *)
Theorem commands_declared fs :
  map (fun c => (c_id c, c_command c, c_flagID c)) (commands (parseCommands fs))
  = imap (fun i f => (Z.of_nat i, f_command f, f_id f))
      (List.filter isCommand (flags fs)).
Proof.
  assert (forall l l', map declaredAs l = map declaredAs l' ->
            map (fun c => (c_id c, c_command c, c_flagID c)) l
            = map (fun c => (c_id c, c_command c, c_flagID c)) l') as H.
  { intros l l' E.
    apply (f_equal (map (fun t : Z * string * Z * Z => (t.1.1.1, t.1.1.2, t.1.2)))) in E.
    rewrite !map_map in E. exact E. }
  unfold parseCommands. cbn [commands].
  rewrite (H _ _ (closeCommands_declared _ _)), (H _ _ (locateAll_declared _ _)).
  unfold declareCommands. rewrite declare_fold by done. simpl.
  apply imap_ext. intros i x _. simpl. done.
Qed.

(** A command not found, or found at a token before [n] that is its name. *)
Definition locatedIn (raw : list string) (n : Z) (c : Command) : Prop :=
  (c_argID c = -1 /\ c_indexFrom c = -1)
  \/ (0 <= c_argID c < n
      /\ raw !! Z.to_nat (c_argID c) = Some (c_command c)
      /\ c_indexFrom c = c_argID c).

(** No two commands are found at the same token. *)
Definition apart (cmds : list Command) : Prop :=
  forall p q cp cq,
    cmds !! p = Some cp -> cmds !! q = Some cq ->
    c_argID cp <> -1 -> c_argID cp = c_argID cq -> p = q.

Definition placed (raw : list string) (n : Z) (cmds : list Command) : Prop :=
  Forall (locatedIn raw n) cmds /\ apart cmds.

Lemma lookup_alter_Some {A} (g : A -> A) p (l : list A) q c :
  alter g p l !! q = Some c ->
  exists c0, l !! q = Some c0 /\ ((p <> q /\ c = c0) \/ (p = q /\ c = g c0)).
Proof.
  intros H. destruct (decide (p = q)) as [->|Hne].
  - rewrite list_lookup_alter_eq in H. destruct (l !! q) as [c0|]; [|done].
    injection H as <-. exists c0. split; [done|]. right. done.
  - rewrite list_lookup_alter_ne in H by done. exists c. split; [done|]. left. done.
Qed.

Lemma placed_indexTo raw n t p cmds :
  placed raw n cmds -> placed raw n (alter (command_indexTo t) p cmds).
Proof.
  intros [HF HA]. split.
  - apply Forall_alter; [done|]. intros c _ Hc. exact Hc.
  - intros a b ca cb Ha Hb Hn He.
    apply lookup_alter_Some in Ha as (ca0 & Ha & Ea).
    apply lookup_alter_Some in Hb as (cb0 & Hb & Eb).
    apply (HA a b ca0 cb0 Ha Hb).
    + destruct Ea as [[_ ->]|[_ ->]]; done.
    + destruct Ea as [[_ ->]|[_ ->]], Eb as [[_ ->]|[_ ->]]; done.
Qed.

Lemma placed_mono raw n m cmds : n <= m -> placed raw n cmds -> placed raw m cmds.
Proof.
  intros Hnm [HF HA]. split; [|done].
  eapply Forall_impl; [exact HF|]. intros c [H|(H1 & H2 & H3)]; [left; done|].
  right. split; [lia|done].
Qed.

Lemma placed_found raw (n : nat) i cmd cmds :
  placed raw (Z.of_nat n) cmds ->
  cmds !! i = Some cmd -> c_argID cmd = -1 ->
  raw !! n = Some (c_command cmd) ->
  placed raw (Z.of_nat n + 1) (alter (command_found (Z.of_nat n)) i cmds).
Proof.
  intros [HF HA] Hi Hid Hraw. split.
  - apply Forall_alter.
    + eapply Forall_impl; [exact HF|]. intros c [H|(H1 & H2 & H3)]; [left; done|].
      right. split; [lia|done].
    + intros c Hc _. rewrite Hi in Hc. injection Hc as <-. right.
      cbn [command_found c_argID c_indexFrom c_command].
      rewrite Nat2Z.id. split; [lia|done].
  - rewrite Forall_forall in HF.
    assert (forall q c, cmds !! q = Some c -> c_argID c <> Z.of_nat n) as Hlt.
    { intros q c Hq. assert (locatedIn raw (Z.of_nat n) c) as [[-> _]|[H _]].
      { apply HF. eapply list_elem_of_lookup_2. done. }
      - lia.
      - lia. }
    intros a b ca cb Ha Hb Hn He.
    apply lookup_alter_Some in Ha as (ca0 & Ha & Ea).
    apply lookup_alter_Some in Hb as (cb0 & Hb & Eb).
    destruct Ea as [[Na ->]|[<- ->]], Eb as [[Nb ->]|[<- ->]].
    + apply (HA a b ca0 cb0); done.
    + cbn [command_found c_argID] in He. exfalso. apply (Hlt a ca0 Ha). done.
    + cbn [command_found c_argID] in He. exfalso. apply (Hlt b cb0 Hb). done.
    + done.
Qed.

Lemma locate_placed raw (n : nat) v todo : forall cmds,
  raw !! n = Some v ->
  placed raw (Z.of_nat n) cmds ->
  placed raw (Z.of_nat n + 1) (locate (Z.of_nat n) v todo cmds).
Proof.
  induction todo as [|i todo IH]; intros cmds Hraw H; simpl.
  { apply (placed_mono raw (Z.of_nat n)); [lia|done]. }
  destruct (cmds !! i) as [cmd|] eqn:Hi.
  2:{ apply (placed_mono raw (Z.of_nat n)); [lia|done]. }
  destruct (Z.eqb (c_argID cmd) (-1) && String.eqb (c_command cmd) v) eqn:E; [|auto].
  apply andb_prop in E as [E1 E2]. apply Z.eqb_eq in E1. apply String.eqb_eq in E2.
  destruct (if negb _ then _ else _); [|auto].
  assert (placed raw (Z.of_nat n + 1) (alter (command_found (Z.of_nat n)) i cmds)) as HL.
  { apply (placed_found raw n i cmd); [done|done|done|]. rewrite E2. done. }
  destruct i as [|p]; [done|].
  destruct (alter _ _ cmds !! p) as [prevCmd|]; [|done].
  destruct (negb _); [|done]. apply placed_indexTo. done.
Qed.

Lemma locateAll_fold raw rest : forall (k : nat) cmds,
  (forall i v, rest !! i = Some v -> raw !! (k + i)%nat = Some v) ->
  placed raw (Z.of_nat k) cmds ->
  placed raw (Z.of_nat (k + length rest))
    (fold_left
       (fun cmds '(argIndex, argVal) =>
          locate (Z.of_nat argIndex) argVal (seq 0 (length cmds)) cmds)
       (imap (fun i v => ((k + i)%nat, v)) rest) cmds).
Proof.
  induction rest as [|v rest IH]; intros k cmds Hraw H.
  - simpl. rewrite Nat.add_0_r. done.
  - rewrite imap_cons. cbn [fold_left]. rewrite Nat.add_0_r.
    replace (k + length (v :: rest))%nat with (S k + length rest)%nat by (simpl; lia).
    rewrite (imap_ext _ (fun i v => ((S k + i)%nat, v))).
    2:{ intros i x _. simpl. f_equal. lia. }
    apply IH.
    + intros i x Hx. replace (S k + i)%nat with (k + S i)%nat by lia.
      apply Hraw. done.
    + replace (Z.of_nat (S k)) with (Z.of_nat k + 1) by lia.
      apply locate_placed; [|done]. specialize (Hraw 0%nat v eq_refl).
      rewrite Nat.add_0_r in Hraw. done.
Qed.

Lemma declareCommand_fresh fs fl : forall cmds lookup cnt,
  Forall (fun c => c_argID c = -1 /\ c_indexFrom c = -1) cmds ->
  Forall (fun c => c_argID c = -1 /\ c_indexFrom c = -1)
    (fold_left (declareCommand fs) fl (cmds, lookup, cnt)).1.1.
Proof.
  induction fl as [|f fl IH]; intros cmds lookup cnt H; simpl; [done|].
  destruct (Kind_eqb (f_kind f) KindCommand); [|apply IH; done].
  apply IH. apply Forall_app. split; [done|]. apply Forall_singleton. done.
Qed.

Lemma parseCommands_placed fs :
  placed (argsRaw fs) (Z.of_nat (length (argsRaw fs))) (commands (parseCommands fs)).
Proof.
  unfold parseCommands. cbn [commands].
  assert (placed (argsRaw fs) (Z.of_nat (length (argsRaw fs)))
            (locateAll (argsRaw fs) (declareCommands fs))) as H.
  { unfold locateAll.
    apply (locateAll_fold (argsRaw fs) (argsRaw fs) 0%nat); [done|].
    pose proof (declareCommand_fresh fs (flags fs) [] ∅ 0 (Forall_nil_2 _)) as HF.
    fold (declareCommands fs) in HF. split.
    - eapply Forall_impl; [exact HF|]. intros c Hc. left. done.
    - intros p q cp cq Hp _ Hn _. rewrite Forall_forall in HF.
      destruct (HF cp) as [E _]; [eapply list_elem_of_lookup_2; done|done]. }
  unfold closeCommands. generalize (seq 0 (length (locateAll (argsRaw fs) (declareCommands fs)))).
  revert H. generalize (locateAll (argsRaw fs) (declareCommands fs)).
  intros cmds H l. revert cmds H.
  induction l as [|i l IH]; intros cmds H; simpl; [done|].
  apply IH. unfold closeCommand. destruct (cmds !! i) as [cmd|]; [|done].
  destruct (_ || _); [done|]. destruct (find _ _); apply placed_indexTo; done.
Qed.

(** X13. A command that [parseCommands] marks as found is found at a
    token that is its name: its [argID] is the index of a raw argument equal
    to the name of the command, and its range starts there. *)
Theorem found_at_its_name fs c :
  In c (commands (parseCommands fs)) ->
  c_argID c <> -1 ->
  0 <= c_argID c < Z.of_nat (length (argsRaw fs))
  /\ argsRaw fs !! Z.to_nat (c_argID c) = Some (c_command c)
  /\ c_indexFrom c = c_argID c.
Proof.
  intros Hc Hn. destruct (parseCommands_placed fs) as [HF _].
  rewrite Forall_forall in HF. apply list_elem_of_In in Hc.
  destruct (HF c Hc) as [[E _]|H]; done.
Qed.

(** X14. One token finds one command at most: two commands that
    [parseCommands] marks as found at the same token are the same command. *)
Theorem one_command_per_token fs p q cp cq :
  commands (parseCommands fs) !! p = Some cp ->
  commands (parseCommands fs) !! q = Some cq ->
  c_argID cp <> -1 ->
  c_argID cp = c_argID cq ->
  p = q.
Proof.
  intros Hp Hq Hn He. destruct (parseCommands_placed fs) as [_ HA].
  exact (HA p q cp cq Hp Hq Hn He).
Qed.

Lemma lookup_declared l l' p c :
  map declaredAs l = map declaredAs l' -> l' !! p = Some c ->
  exists c1, l !! p = Some c1 /\ declaredAs c1 = declaredAs c.
Proof.
  intros E Hp.
  assert (map declaredAs l !! p = map declaredAs l' !! p) as H by (rewrite E; done).
  rewrite !list_lookup_fmap, Hp in H. destruct (l !! p) as [c1|]; [|done].
  exists c1. split; [done|]. simpl in H. congruence.
Qed.

(** A command found stays found where it is. *)
Definition foundAt (p : nat) (a : Z) (cmds : list Command) : Prop :=
  exists c, cmds !! p = Some c /\ c_argID c = a.

Lemma foundAt_indexTo p a t i cmds :
  foundAt p a cmds -> foundAt p a (alter (command_indexTo t) i cmds).
Proof.
  intros (c & Hc & Ha). destruct (decide (i = p)) as [->|Hne].
  - exists (command_indexTo t c). rewrite list_lookup_alter_eq, Hc. done.
  - exists c. rewrite list_lookup_alter_ne by done. done.
Qed.

Lemma locate_foundAt p a argIndex argVal todo : forall cmds,
  a <> -1 -> foundAt p a cmds -> foundAt p a (locate argIndex argVal todo cmds).
Proof.
  induction todo as [|i todo IH]; intros cmds Ha H; simpl; [done|].
  destruct (cmds !! i) as [cmd|] eqn:Hi; [|done].
  destruct (Z.eqb (c_argID cmd) (-1) && _) eqn:E; [|auto].
  apply andb_prop in E as [E _]. apply Z.eqb_eq in E.
  destruct (if negb _ then _ else _); [|auto].
  assert (foundAt p a (alter (command_found argIndex) i cmds)) as HF.
  { destruct H as (c & Hc & Hca). exists c. split; [|done].
    rewrite list_lookup_alter_ne; [done|]. intros ->. congruence. }
  destruct i as [|j]; [done|].
  destruct (alter _ _ cmds !! j) as [prevCmd|]; [|done].
  destruct (negb _); [|done]. apply foundAt_indexTo. done.
Qed.

Lemma fold_foundAt {A} (g : list Command -> A -> list Command) p a (l : list A) :
  (forall cmds x, foundAt p a cmds -> foundAt p a (g cmds x)) ->
  forall cmds, foundAt p a cmds -> foundAt p a (fold_left g l cmds).
Proof.
  intros Hg. induction l as [|x l IH]; intros cmds H; simpl; [done|].
  apply IH, Hg, H.
Qed.

(** The scan of one token, from the command at [from]: it stops at the
    first command of that name not found yet, when that is a top-level one. *)
Lemma locate_first (n : Z) v p cmd : forall m from cmds,
  (from <= p < from + m)%nat ->
  cmds !! p = Some cmd ->
  c_argID cmd = -1 -> c_command cmd = v -> c_parentID cmd = -1 ->
  (forall q cq, cmds !! q = Some cq -> c_command cq = v -> q = p) ->
  foundAt p n (locate n v (seq from m) cmds).
Proof.
  induction m as [|m IH]; intros from cmds Hp Hc Ha Hv Hpar Huniq; [lia|].
  simpl. destruct (decide (from = p)) as [->|Hne].
  - rewrite Hc, Ha, Hv, String.eqb_refl, Hpar. cbn.
    assert (foundAt p n (alter (command_found n) p cmds)) as HF.
    { exists (command_found n cmd). rewrite list_lookup_alter_eq, Hc. done. }
    destruct p as [|j]; [done|].
    destruct (alter _ _ cmds !! j) as [prevCmd|]; [|done].
    destruct (negb _); [|done]. apply foundAt_indexTo. done.
  - destruct (cmds !! from) as [c0|] eqn:H0.
    2:{ apply lookup_ge_None in H0. apply lookup_lt_Some in Hc. lia. }
    assert (String.eqb (c_command c0) v = false) as ->.
    { apply String.eqb_neq. intros E. apply Hne. apply (Huniq from c0); done. }
    rewrite andb_false_r. apply IH; try done. lia.
Qed.

(** X15. A top-level command is found at the first token that is its
    name, when no other command has that name. *)
Theorem top_level_found fs p c (n : nat) :
  commands (parseCommands fs) !! p = Some c ->
  c_parentID c = -1 ->
  (forall q cq, commands (parseCommands fs) !! q = Some cq ->
                c_command cq = c_command c -> q = p) ->
  argsRaw fs !! n = Some (c_command c) ->
  (forall m, (m < n)%nat -> argsRaw fs !! m <> Some (c_command c)) ->
  c_argID c = Z.of_nat n.
Proof.
  intros Hp Hpar Huniq Hn Hfirst.
  set (raw := argsRaw fs) in *. set (v := c_command c) in *.
  set (step := fun (cmds : list Command) '(argIndex, argVal) =>
                 locate (Z.of_nat argIndex) argVal (seq 0 (length cmds)) cmds).
  set (S0 := declareCommands fs).
  set (S1 := fold_left step (imap (fun i w => (i, w)) (take n raw)) S0).
  assert (forall l s, map declaredAs (fold_left step l s) = map declaredAs s) as Hstep.
  { intros l s. apply fold_declared. intros cmds [i w]. apply locate_declared. }
  assert (map declaredAs (commands (parseCommands fs)) = map declaredAs S0) as Efin.
  { unfold parseCommands. cbn [commands].
    rewrite closeCommands_declared, locateAll_declared. done. }
  assert (map declaredAs S1 = map declaredAs (commands (parseCommands fs))) as E1.
  { rewrite Efin. apply Hstep. }
  assert (n < length raw)%nat as Hlen by (eapply lookup_lt_Some; done).
  assert (placed raw (Z.of_nat n) S1) as [HF1 _].
  { pose proof (locateAll_fold raw (take n raw) 0%nat S0) as H.
    rewrite length_take, Nat.min_l in H by lia. apply H.
    - intros i w Hi. apply lookup_take_Some in Hi as [Hi _]. done.
    - pose proof (declareCommand_fresh fs (flags fs) [] ∅ 0 (Forall_nil_2 _)) as HF.
      fold (declareCommands fs) in HF. fold S0 in HF. split.
      + eapply Forall_impl; [exact HF|]. intros x Hx. left. done.
      + intros a b ca cb Ha _ Hne _. rewrite Forall_forall in HF.
        destruct (HF ca) as [E _]; [eapply list_elem_of_lookup_2; done|done]. }
  destruct (lookup_declared S1 _ p c E1 Hp) as (c1 & Hp1 & Hd1).
  assert (c_command c1 = v /\ c_parentID c1 = -1) as [Hv1 Hpar1].
  { unfold declaredAs in Hd1. injection Hd1 as _ E2 _ E4. unfold v. split; congruence. }
  assert (c_argID c1 = -1) as Ha1.
  { rewrite Forall_forall in HF1.
    destruct (HF1 c1) as [[E _]|(Hr & Hraw & _)];
      [eapply list_elem_of_lookup_2; done|done|].
    exfalso. apply (Hfirst (Z.to_nat (c_argID c1))); [lia|]. rewrite Hraw, Hv1. done. }
  assert (foundAt p (Z.of_nat n) (locate (Z.of_nat n) v (seq 0 (length S1)) S1)) as H2.
  { apply (locate_first (Z.of_nat n) v p c1); try done.
    - apply lookup_lt_Some in Hp1. lia.
    - intros q cq Hq Hcq.
      destruct (lookup_declared _ S1 q cq (eq_sym E1) Hq) as (cq' & Hq' & Hdq).
      apply (Huniq q cq' Hq'). unfold declaredAs in Hdq. injection Hdq as _ E2 _ _.
      rewrite E2. exact Hcq. }
  assert (foundAt p (Z.of_nat n) (locateAll raw S0)) as H3.
  { unfold locateAll. fold step.
    rewrite <- (take_drop_middle raw n v Hn) at 1.
    rewrite imap_app, fold_left_app, imap_cons. cbn [fold_left]. fold S1.
    apply fold_foundAt.
    - intros cmds [i w]. apply locate_foundAt. lia.
    - unfold step at 1. rewrite length_take, Nat.min_l, Nat.add_0_r by lia. done. }
  assert (foundAt p (Z.of_nat n) (commands (parseCommands fs))) as (c' & Hc' & Ha').
  { unfold parseCommands. cbn [commands]. fold S0 raw. unfold closeCommands.
    apply fold_foundAt; [|done]. intros cmds i H. unfold closeCommand.
    destruct (cmds !! i) as [cmd|]; [|done]. destruct (_ || _); [done|].
    destruct (find _ _); apply foundAt_indexTo; done. }
  rewrite Hp in Hc'. injection Hc' as <-. done.
Qed.

(** The end of the range of a command is not set, or is an index of the
    raw arguments or their number. *)
Definition bounded (len : Z) (cmds : list Command) : Prop :=
  Forall (fun c => c_indexTo c = -1 \/ 0 <= c_indexTo c <= len) cmds.

Lemma bounded_found len n i cmds :
  bounded len cmds -> bounded len (alter (command_found n) i cmds).
Proof. intros H. apply Forall_alter; [done|]. intros c _ Hc. exact Hc. Qed.

Lemma bounded_indexTo len t i cmds :
  0 <= t <= len -> bounded len cmds -> bounded len (alter (command_indexTo t) i cmds).
Proof.
  intros Ht H. apply Forall_alter; [done|]. intros c _ _. right. exact Ht.
Qed.

Lemma locate_bounded len n v todo : forall cmds,
  0 <= n <= len -> bounded len cmds -> bounded len (locate n v todo cmds).
Proof.
  induction todo as [|i todo IH]; intros cmds Hn H; simpl; [done|].
  destruct (cmds !! i) as [cmd|]; [|done].
  destruct (_ && _); [|auto]. destruct (if negb _ then _ else _); [|auto].
  destruct i as [|p]; [apply bounded_found; done|].
  destruct (alter _ _ cmds !! p) as [prevCmd|]; [|apply bounded_found; done].
  destruct (negb _); [|apply bounded_found; done].
  apply bounded_indexTo; [done|]. apply bounded_found. done.
Qed.

Lemma locateAll_bounded raw cmds :
  bounded (Z.of_nat (length raw)) cmds ->
  bounded (Z.of_nat (length raw)) (locateAll raw cmds).
Proof.
  unfold locateAll.
  assert (Forall (fun x : nat * string => (x.1 < length raw)%nat)
            (imap (fun i v => (i, v)) raw)) as HQ.
  { apply Forall_forall. intros [i v] Hin.
    apply list_elem_of_lookup in Hin as (j & Hj).
    rewrite list_lookup_imap in Hj. destruct (raw !! j) as [w|] eqn:Hw; [|done].
    injection Hj as <- <-. simpl. eapply lookup_lt_Some. done. }
  revert cmds. induction HQ as [|[i v] l Hi _ IH]; intros cmds H; simpl; [done|].
  apply IH. apply locate_bounded; [simpl in Hi; lia|done].
Qed.

(** The commands before [m] that are found have the end of their range. *)
Definition closed (raw : list string) (m : nat) (cmds : list Command) : Prop :=
  placed raw (Z.of_nat (length raw)) cmds
  /\ bounded (Z.of_nat (length raw)) cmds
  /\ forall j c, (j < m)%nat -> cmds !! j = Some c -> c_argID c <> -1 ->
                 c_indexTo c <> -1.

Lemma closeCommand_closed raw m cmds :
  closed raw m cmds ->
  closed raw (S m) (closeCommand (Z.of_nat (length raw)) cmds m).
Proof.
  intros (HP & HB & HC). unfold closeCommand.
  destruct (cmds !! m) as [cmd|] eqn:Hm.
  2:{ split; [done|]. split; [done|]. intros j c Hj Hc.
      destruct (decide (j = m)) as [->|]; [congruence|]. apply (HC j c); [lia|done]. }
  destruct (Z.eqb (c_argID cmd) (-1) || negb (Z.eqb (c_indexTo cmd) (-1))) eqn:E.
  { split; [done|]. split; [done|]. intros j c Hj Hc Ha.
    destruct (decide (j = m)) as [->|]; [|apply (HC j c); [lia|done|done]].
    rewrite Hm in Hc. injection Hc as <-.
    apply orb_prop in E as [E|E]; [apply Z.eqb_eq in E; done|].
    apply negb_true_iff, Z.eqb_neq in E. done. }
  assert (forall t, 0 <= t <= Z.of_nat (length raw) ->
            closed raw (S m) (alter (command_indexTo t) m cmds)) as Hset.
  { intros t Ht. split; [apply placed_indexTo; done|].
    split; [apply bounded_indexTo; done|].
    intros j c Hj Hc Ha. apply lookup_alter_Some in Hc as (c0 & Hc0 & [[Hne ->]|[_ ->]]).
    - apply (HC j c0); [lia|done|done].
    - cbn [command_indexTo c_indexTo]. lia. }
  destruct (find _ _) as [next|] eqn:Ef; [|apply Hset; lia].
  apply Hset. apply find_some in Ef as [Hin Hfrom].
  apply negb_true_iff, Z.eqb_neq in Hfrom.
  destruct HP as [HF _]. rewrite Forall_forall in HF.
  assert (next ∈ cmds) as Hnext.
  { apply list_elem_of_In in Hin. eapply subseteq_drop. done. }
  destruct (HF next Hnext) as [[_ E1]|(H1 & _ & H3)]; [done|]. lia.
Qed.

Lemma closeCommands_closed raw k : forall m cmds,
  closed raw m cmds ->
  closed raw (m + k) (fold_left (closeCommand (Z.of_nat (length raw))) (seq m k) cmds).
Proof.
  induction k as [|k IH]; intros m cmds H; simpl.
  - rewrite Nat.add_0_r. done.
  - replace (m + S k)%nat with (S m + k)%nat by lia.
    apply IH, closeCommand_closed, H.
Qed.

Lemma declareCommand_open fs fl : forall cmds lookup cnt,
  Forall (fun c => c_indexTo c = -1) cmds ->
  Forall (fun c => c_indexTo c = -1)
    (fold_left (declareCommand fs) fl (cmds, lookup, cnt)).1.1.
Proof.
  induction fl as [|f fl IH]; intros cmds lookup cnt H; simpl; [done|].
  destruct (Kind_eqb (f_kind f) KindCommand); [|apply IH; done].
  apply IH. apply Forall_app. split; [done|]. apply Forall_singleton. done.
Qed.

Lemma locateAll_placed fs :
  placed (argsRaw fs) (Z.of_nat (length (argsRaw fs)))
    (locateAll (argsRaw fs) (declareCommands fs)).
Proof.
  unfold locateAll.
  apply (locateAll_fold (argsRaw fs) (argsRaw fs) 0%nat); [done|].
  pose proof (declareCommand_fresh fs (flags fs) [] ∅ 0 (Forall_nil_2 _)) as HF.
  fold (declareCommands fs) in HF. split.
  - eapply Forall_impl; [exact HF|]. intros c Hc. left. done.
  - intros p q cp cq Hp _ Hn _. rewrite Forall_forall in HF.
    destruct (HF cp) as [E _]; [eapply list_elem_of_lookup_2; done|done].
Qed.

(** X16. A command that [parseCommands] marks as found has the end of
    its range set, to an index of the raw arguments or to their number. *)
Theorem found_range_closed fs c :
  In c (commands (parseCommands fs)) ->
  c_argID c <> -1 ->
  0 <= c_indexTo c <= Z.of_nat (length (argsRaw fs)).
Proof.
  intros Hc Ha. unfold parseCommands in Hc. cbn [commands] in Hc.
  set (cmds := locateAll (argsRaw fs) (declareCommands fs)) in *.
  assert (closed (argsRaw fs) 0 cmds) as H0.
  { split; [apply locateAll_placed|]. split; [|intros; lia].
    apply locateAll_bounded.
    pose proof (declareCommand_open fs (flags fs) [] ∅ 0 (Forall_nil_2 _)) as HF.
    eapply Forall_impl; [exact HF|]. intros x Hx. left. done. }
  apply (closeCommands_closed (argsRaw fs) (length cmds) 0%nat cmds) in H0.
  fold (closeCommands (Z.of_nat (length (argsRaw fs))) cmds) in H0.
  destruct H0 as (_ & HB & HC).
  apply list_elem_of_In, list_elem_of_lookup in Hc as (j & Hj).
  assert (c_indexTo c <> -1) as Hne.
  { apply (HC j c); [|done|done]. apply lookup_lt_Some in Hj.
    unfold closeCommands in Hj.
    assert (forall l ks, length (fold_left (closeCommand (Z.of_nat (length (argsRaw fs)))) ks l)
                         = length l) as Hlen.
    { intros l ks. revert l. induction ks as [|k ks IH]; intros l; simpl; [done|].
      rewrite IH. unfold closeCommand. repeat case_match; rewrite ?length_alter; done. }
    rewrite Hlen in Hj. lia. }
  unfold bounded in HB. rewrite Forall_forall in HB.
  destruct (HB c) as [E|E]; [eapply list_elem_of_lookup_2; done|done|done].
Qed.

(** *** parseArgs *)

(** What the third loop of [parseArgs] leaves of the flag set: all but the
    flags and the [flagID] of the arguments. *)
Definition sameArgs (fs fs' : FlagSet) : Prop :=
  map (arg_flagID 0) (args fs') = map (arg_flagID 0) (args fs)
  /\ flagsRaw fs' = flagsRaw fs /\ argsRaw fs' = argsRaw fs
  /\ commands fs' = commands fs
  /\ commandsParsed fs' = commandsParsed fs /\ argsParsed fs' = argsParsed fs.

Lemma sameArgs_refl fs : sameArgs fs fs.
Proof. done. Qed.

Lemma sameArgs_trans a b c : sameArgs a b -> sameArgs b c -> sameArgs a c.
Proof.
  intros (A1 & A2 & A3 & A4 & A5 & A6) (B1 & B2 & B3 & B4 & B5 & B6).
  repeat split; congruence.
Qed.

Lemma sameArgs_onFlag k g fs : sameArgs fs (onFlag k g fs).
Proof. done. Qed.

Lemma sameArgs_onArg i x fs : sameArgs fs (onArg i (arg_flagID x) fs).
Proof.
  repeat split. cbn [onArg withArgs args]. apply map_alter_same. done.
Qed.

Lemma sameArgs_fold {A} (g : FlagSet -> A -> FlagSet) (l : list A) :
  (forall fs x, sameArgs fs (g fs x)) ->
  forall fs, sameArgs fs (fold_left g l fs).
Proof.
  intros Hg. induction l as [|x l IH]; intros fs; simpl; [done|].
  eapply sameArgs_trans; [apply Hg|apply IH].
Qed.

Lemma collect_sameArgs k fs : sameArgs fs (collect k fs).
Proof.
  unfold collect. destruct (flags fs !! k) as [flag|]; [|done].
  destruct (f_kind flag); try done.
  - destruct (negb _).
    + destruct (lookupFlagByIndex _ _); [|done].
      apply sameArgs_fold. intros s p. destruct (args s !! p); [|done].
      destruct (matches _ _); [|done].
      eapply sameArgs_trans; [apply sameArgs_onArg|apply sameArgs_onFlag].
    + apply sameArgs_fold. intros s p. destruct (args s !! p); [|done].
      destruct (_ && _); [|done].
      eapply sameArgs_trans; [apply sameArgs_onArg|apply sameArgs_onFlag].
  - destruct (find _ _); done.
Qed.

(** The id and the token of an argument. *)
Definition token (a : Arg) : Z * string := (a_id a, a_arg a).

Lemma insert_token (l : list Arg) i a a' :
  l !! i = Some a -> token a' = token a ->
  map token (<[i := a']> l) = map token l.
Proof.
  intros Hi Ht. change (map token) with (fmap (M:=list) token).
  rewrite list_fmap_insert. apply list_insert_id.
  rewrite list_lookup_fmap, Hi, Ht. done.
Qed.

Lemma nameAndDash_token a : token (nameAndDash a) = token a.
Proof. unfold nameAndDash. repeat case_match; done. Qed.

Lemma markUnset_token a : token (markUnset a) = token a.
Proof. unfold markUnset. case_match; done. Qed.

Lemma parseArg_token l i : map token (parseArg l i) = map token l.
Proof.
  unfold parseArg. destruct (l !! i) as [arg|] eqn:Hi; [|done].
  destruct (negb _); [done|].
  destruct (isEmpty _).
  { apply (insert_token l i arg); [done|]. apply nameAndDash_token. }
  destruct (hasEquals _).
  { apply (insert_token l i arg); [done|].
    rewrite markUnset_token. unfold takeValue. cbn. apply nameAndDash_token. }
  assert (map token (<[i := markUnset (nameAndDash arg)]> l) = map token l) as E.
  { apply (insert_token l i arg); [done|].
    rewrite markUnset_token. apply nameAndDash_token. }
  destruct (l !! S i) as [nextArg|] eqn:Hn; [|done].
  destruct (_ && _); [|done].
  unfold takeNext.
  rewrite (insert_token _ (S i) nextArg).
  - apply (insert_token l i arg); [done|].
    rewrite markUnset_token. cbn. apply nameAndDash_token.
  - rewrite list_lookup_insert_ne by lia. done.
  - done.
Qed.

Lemma newArg_token cmds i v : token (newArg cmds i v) = (i, v).
Proof. unfold newArg. repeat case_match; done. Qed.

Lemma parseCommands_rest fs :
  flagsRaw (parseCommands fs) = flagsRaw fs
  /\ args (parseCommands fs) = args fs
  /\ argsRaw (parseCommands fs) = argsRaw fs
  /\ argsParsed (parseCommands fs) = argsParsed fs
  /\ commandsParsed (parseCommands fs) = true.
Proof. done. Qed.

(** The flag set [parseArgs] works on, once the commands are parsed. *)
Definition commanded (fs : FlagSet) : FlagSet :=
  if commandsParsed fs then fs else parseCommands fs.

(** The arguments after the first two loops of [parseArgs]. *)
Definition segments (fs : FlagSet) : list Arg :=
  let l := imap (fun i v => newArg (commands (commanded fs)) (Z.of_nat i) v) (argsRaw fs) in
  fold_left parseArg (seq 0 (length l)) l.

Lemma commanded_rest fs :
  flagsRaw (commanded fs) = flagsRaw fs /\ argsRaw (commanded fs) = argsRaw fs
  /\ commandsParsed (commanded fs) = true.
Proof.
  unfold commanded. destruct (commandsParsed fs) eqn:E; [done|].
  pose proof (parseCommands_rest fs) as (H1 & _ & H3 & _ & H5). done.
Qed.

Lemma parseArgs_sameArgs fs :
  commandsParsed fs && argsParsed fs = false ->
  map (arg_flagID 0) (args (parseArgs fs)) = map (arg_flagID 0) (segments fs)
  /\ flagsRaw (parseArgs fs) = flagsRaw fs /\ argsRaw (parseArgs fs) = argsRaw fs
  /\ commands (parseArgs fs) = commands (commanded fs)
  /\ commandsParsed (parseArgs fs) = true /\ argsParsed (parseArgs fs) = true.
Proof.
  intros Hp. unfold parseArgs. rewrite Hp. fold (commanded fs).
  destruct (commanded_rest fs) as (R1 & R2 & R3).
  rewrite R2. fold (segments fs).
  pose proof (sameArgs_fold (fun s k => collect k s)
                (seq 0 (length (flags (withArgs (segments fs) (commanded fs)))))
                (fun s k => collect_sameArgs k s)
                (withArgs (segments fs) (commanded fs)))
    as (A1 & A2 & A3 & A4 & A5 & A6).
  cbn [args flagsRaw argsRaw commands commandsParsed argsParsed withArgs] in *.
  repeat split; congruence.
Qed.

Lemma parseArg_length l i : length (parseArg l i) = length l.
Proof.
  pose proof (parseArg_token l i) as H. apply (f_equal (@length (Z * string))) in H.
  rewrite !length_map in H. done.
Qed.

Lemma segments_length fs : length (segments fs) = length (argsRaw fs).
Proof.
  unfold segments. set (l0 := imap _ _).
  assert (length l0 = length (argsRaw fs)) as <- by apply length_imap.
  generalize (seq 0 (length l0)). intros ks. generalize l0.
  induction ks as [|k ks IH]; intros l; simpl; [done|].
  rewrite IH. apply parseArg_length.
Qed.

Lemma parseArgs_tokens fs :
  commandsParsed fs && argsParsed fs = false ->
  map token (args (parseArgs fs)) = imap (fun i v => (Z.of_nat i, v)) (argsRaw fs).
Proof.
  intros Hp. destruct (parseArgs_sameArgs fs Hp) as (A1 & _).
  apply (f_equal (map token)) in A1. rewrite !map_map in A1.
  transitivity (map token (segments fs)); [exact A1|].
  unfold segments.
  generalize (seq 0 (length (imap (fun i v => newArg (commands (commanded fs)) (Z.of_nat i) v)
                               (argsRaw fs)))).
  intros ks.
  assert (forall l, map token (fold_left parseArg ks l) = map token l) as ->.
  { induction ks as [|k ks IH]; intros l; simpl; [done|].
    rewrite IH. apply parseArg_token. }
  change (map token) with (fmap (M:=list) token). rewrite fmap_imap.
  apply imap_ext. intros i v _. apply newArg_token.
Qed.

(** X17. [parseArgs] makes one argument of each raw argument, in order:
    the argument at a position has that position as id and the raw argument
    there as token, through all three loops; the struct and the raw
    arguments are as before and both passes are marked as done. *)
Theorem one_argument_per_token fs :
  commandsParsed fs && argsParsed fs = false ->
  map (fun a => (a_id a, a_arg a)) (args (parseArgs fs))
  = imap (fun i v => (Z.of_nat i, v)) (argsRaw fs)
  /\ flagsRaw (parseArgs fs) = flagsRaw fs
  /\ argsRaw (parseArgs fs) = argsRaw fs
  /\ commandsParsed (parseArgs fs) = true
  /\ argsParsed (parseArgs fs) = true.
Proof.
  intros Hp. destruct (parseArgs_sameArgs fs Hp) as (_ & A2 & A3 & _ & A5 & A6).
  split; [|done]. exact (parseArgs_tokens fs Hp).
Qed.

(** X18. [parseArgs] parses once: a second call returns the flag set of
    the first. *)
Theorem parsed_once fs : parseArgs (parseArgs fs) = parseArgs fs.
Proof.
  destruct (commandsParsed fs && argsParsed fs) eqn:Hp.
  - unfold parseArgs at 2. rewrite Hp. unfold parseArgs. rewrite Hp. done.
  - destruct (parseArgs_sameArgs fs Hp) as (_ & _ & _ & _ & A5 & A6).
    unfold parseArgs at 1. rewrite A5, A6. done.
Qed.

(** An argument and the token after it, taken as its value. *)
Definition paired (a b : Arg) : Prop :=
  a_kind a = KindArg /\ a_kind b = KindArgval
  /\ a_dash a <> "" /\ HasPrefix (a_arg b) "-" = false
  /\ a_value a = trimQuotes (a_arg b) /\ a_value b = a_value a
  /\ a_parentID b = a_id a /\ a_indexTo a = a_indexTo b.

Lemma nameAndDash_kind a : a_kind (nameAndDash a) = a_kind a.
Proof. unfold nameAndDash. repeat case_match; done. Qed.

Lemma markUnset_fields a :
  a_kind (markUnset a) = a_kind a /\ a_dash (markUnset a) = a_dash a
  /\ a_value (markUnset a) = a_value a /\ a_id (markUnset a) = a_id a
  /\ a_indexTo (markUnset a) = a_indexTo a.
Proof. unfold markUnset. case_match; done. Qed.

(** What a turn of the second loop of [parseArgs] does to the list. *)
Lemma parseArg_turn l m :
  parseArg l m = l
  \/ (exists arg arg',
        l !! m = Some arg /\ a_kind arg = KindArg /\ a_kind arg' = KindArg
        /\ parseArg l m = <[m := arg']> l)
  \/ (exists arg arg' next next',
        l !! m = Some arg /\ l !! S m = Some next
        /\ a_kind arg = KindArg /\ a_kind next = KindArg
        /\ paired arg' next'
        /\ parseArg l m = <[S m := next']> (<[m := arg']> l)).
Proof.
  unfold parseArg. destruct (l !! m) as [arg|] eqn:Hm; [|left; done].
  destruct (negb (Kind_eqb (a_kind arg) KindArg)) eqn:Ek; [left; done|].
  apply negb_false_iff, Kind_eqb_eq in Ek.
  destruct (isEmpty (a_dash (nameAndDash arg))) eqn:Ed.
  { right. left. exists arg. eexists. split; [done|]. split; [done|].
    split; [|reflexivity]. cbn. rewrite nameAndDash_kind. done. }
  destruct (hasEquals _).
  { right. left. exists arg. eexists. split; [done|]. split; [done|].
    split; [|reflexivity].
    destruct (markUnset_fields (takeValue (nameAndDash arg))) as (-> & _).
    cbn. rewrite nameAndDash_kind. done. }
  assert (a_kind (markUnset (nameAndDash arg)) = KindArg) as Hk.
  { destruct (markUnset_fields (nameAndDash arg)) as (-> & _).
    rewrite nameAndDash_kind. done. }
  destruct (l !! S m) as [nextArg|] eqn:Hn.
  2:{ right. left. exists arg. eexists. done. }
  destruct (Kind_eqb (a_kind nextArg) KindArg && negb (HasPrefix (a_arg nextArg) "-"))
    eqn:E.
  2:{ right. left. exists arg. eexists. done. }
  apply andb_prop in E as [E1 E2]. apply Kind_eqb_eq in E1.
  apply negb_true_iff in E2.
  right. right. exists arg. unfold takeNext. do 2 eexists. eexists.
  split; [done|]. split; [done|]. split; [done|]. split; [done|].
  split; [|reflexivity].
  set (arg1 := arg_indexTo _ _).
  destruct (markUnset_fields arg1) as (F1 & F2 & F3 & F4 & F5).
  unfold paired. rewrite F1, F2, F3, F4, F5. cbn.
  rewrite nameAndDash_kind. repeat split; try done.
  apply isEmpty_false. done.
Qed.

(** Every token marked as a value follows the argument it is the value of. *)
Definition valued (l : list Arg) : Prop :=
  forall j b, l !! j = Some b -> a_kind b = KindArgval ->
    exists i a, j = S i /\ l !! i = Some a /\ paired a b.

(** The list after the turns before [m]: from [m] on as at the start,
    but for a value at [m]. *)
Definition turned (l0 : list Arg) (m : nat) (l : list Arg) : Prop :=
  (forall j, (m < j)%nat -> l !! j = l0 !! j)
  /\ (l !! m = l0 !! m \/ exists b, l !! m = Some b /\ a_kind b = KindArgval)
  /\ valued l.

Lemma parseArg_turned l0 m l :
  (forall j a, l0 !! j = Some a -> a_kind a <> KindArgval) ->
  turned l0 m l -> turned l0 (S m) (parseArg l m).
Proof.
  intros H0 (Hb & Hm & Hv).
  assert (forall i a b, l !! i = Some a -> l !! S i = Some b -> paired a b ->
                        (i < m)%nat /\ (S i <= m)%nat) as Hlow.
  { intros i a b Hi Hsi Hp. destruct (decide (m < S i)%nat) as [Hlt|]; [|lia].
    rewrite Hb in Hsi by done. apply H0 in Hsi. destruct Hp as (_ & Hk & _). done. }
  destruct (parseArg_turn l m) as [->|[H|H]].
  - split; [intros; apply Hb; lia|]. split; [left; apply Hb; lia|done].
  - destruct H as (arg & arg' & Ha & Hk & Hk' & ->).
    assert (m < length l)%nat as Hlen by (eapply lookup_lt_Some; done).
    split; [intros j Hj; rewrite list_lookup_insert_ne by lia; apply Hb; lia|].
    split; [left; rewrite list_lookup_insert_ne by lia; apply Hb; lia|].
    intros j b Hj Hkb. destruct (decide (j = m)) as [->|Hne].
    { rewrite list_lookup_insert_eq in Hj by done. congruence. }
    rewrite list_lookup_insert_ne in Hj by done.
    destruct (Hv j b Hj Hkb) as (i & a & -> & Hi & Hp).
    exists i, a. split; [done|]. split; [|done].
    destruct (Hlow i a b Hi Hj Hp). rewrite list_lookup_insert_ne by lia. done.
  - destruct H as (arg & arg' & next & next' & Ha & Hn & Hk & Hkn & Hp & ->).
    assert (m < length l)%nat as Hlen by (eapply lookup_lt_Some; done).
    assert (S m < length l)%nat as Hlen' by (eapply lookup_lt_Some; done).
    split; [intros j Hj; rewrite !list_lookup_insert_ne by lia; apply Hb; lia|].
    split.
    { right. exists next'. rewrite list_lookup_insert_eq by (rewrite length_insert; done).
      split; [done|apply Hp]. }
    intros j b Hj Hkb. destruct (decide (j = S m)) as [->|Hne].
    { rewrite list_lookup_insert_eq in Hj by (rewrite length_insert; done).
      injection Hj as <-. exists m, arg'. split; [done|]. split; [|done].
      rewrite list_lookup_insert_ne by lia. rewrite list_lookup_insert_eq by done. done. }
    rewrite list_lookup_insert_ne in Hj by done.
    destruct (decide (j = m)) as [->|Hne'].
    { rewrite list_lookup_insert_eq in Hj by done. injection Hj as <-.
      destruct Hp as (Hp & _). congruence. }
    rewrite list_lookup_insert_ne in Hj by done.
    destruct (Hv j b Hj Hkb) as (i & a & -> & Hi & Hpa).
    exists i, a. split; [done|]. split; [|done].
    destruct (Hlow i a b Hi Hj Hpa). rewrite !list_lookup_insert_ne by lia. done.
Qed.

Lemma fold_turned l0 k : forall m l,
  (forall j a, l0 !! j = Some a -> a_kind a <> KindArgval) ->
  turned l0 m l -> turned l0 (m + k) (fold_left parseArg (seq m k) l).
Proof.
  induction k as [|k IH]; intros m l H0 H; simpl.
  - rewrite Nat.add_0_r. done.
  - replace (m + S k)%nat with (S m + k)%nat by lia.
    apply IH; [done|]. apply parseArg_turned; done.
Qed.

Lemma segments_valued fs : valued (segments fs).
Proof.
  unfold segments.
  set (l0 := imap _ _).
  assert (forall j a, l0 !! j = Some a -> a_kind a <> KindArgval) as H0.
  { intros j a Hj. unfold l0 in Hj. rewrite list_lookup_imap in Hj.
    destruct (argsRaw fs !! j) as [v|]; [|done]. injection Hj as <-.
    unfold newArg. repeat case_match; done. }
  apply (fold_turned l0 (length l0) 0%nat l0 H0).
  split; [done|]. split; [left; done|].
  intros j b Hj Hk. apply H0 in Hj. done.
Qed.

Lemma lookup_unflag (l l' : list Arg) j b' :
  map (arg_flagID 0) l' = map (arg_flagID 0) l -> l' !! j = Some b' ->
  exists b, l !! j = Some b /\ arg_flagID 0 b = arg_flagID 0 b'.
Proof.
  intros E Hj.
  assert (map (arg_flagID 0) l' !! j = map (arg_flagID 0) l !! j) as H by (rewrite E; done).
  rewrite !list_lookup_fmap, Hj in H. destruct (l !! j) as [b|]; [|done].
  exists b. split; [done|]. simpl in H. congruence.
Qed.

Lemma unflag_fields a a' :
  arg_flagID 0 a = arg_flagID 0 a' ->
  a_kind a = a_kind a' /\ a_dash a = a_dash a' /\ a_arg a = a_arg a'
  /\ a_value a = a_value a' /\ a_parentID a = a_parentID a' /\ a_id a = a_id a'
  /\ a_indexTo a = a_indexTo a' /\ a_name a = a_name a'
  /\ a_commandID a = a_commandID a'.
Proof.
  intros H.
  split; [exact (f_equal a_kind H)|]. split; [exact (f_equal a_dash H)|].
  split; [exact (f_equal a_arg H)|]. split; [exact (f_equal a_value H)|].
  split; [exact (f_equal a_parentID H)|]. split; [exact (f_equal a_id H)|].
  split; [exact (f_equal a_indexTo H)|]. split; [exact (f_equal a_name H)|].
  exact (f_equal a_commandID H).
Qed.

(** X19. A token that [parseArgs] marks as a value is the value of the
    argument right before it: that argument is a dashed one of kind
    ["arg"], its value is the token with its quotes trimmed, the value
    token has the same value, the id of the argument as parent and the same
    end of range; and the token does not start with a dash. *)
Theorem value_follows_argument fs j b :
  commandsParsed fs && argsParsed fs = false ->
  args (parseArgs fs) !! j = Some b ->
  a_kind b = KindArgval ->
  exists i a,
    j = S i /\ args (parseArgs fs) !! i = Some a
    /\ a_kind a = KindArg /\ a_dash a <> ""
    /\ HasPrefix (a_arg b) "-" = false
    /\ a_value a = trimQuotes (a_arg b) /\ a_value b = a_value a
    /\ a_parentID b = a_id a /\ a_indexTo a = a_indexTo b.
Proof.
  intros Hp Hj Hk. destruct (parseArgs_sameArgs fs Hp) as (E & _).
  destruct (lookup_unflag _ _ j b E Hj) as (b0 & Hj0 & Eb).
  apply unflag_fields in Eb as (B1 & B2 & B3 & B4 & B5 & B6 & B7 & _).
  destruct (segments_valued fs j b0 Hj0) as (i & a0 & -> & Hi0 & Hpair); [congruence|].
  assert (exists a, args (parseArgs fs) !! i = Some a
                    /\ arg_flagID 0 a0 = arg_flagID 0 a) as (a & Hi & Ea).
  { assert (map (arg_flagID 0) (segments fs) !! i
            = map (arg_flagID 0) (args (parseArgs fs)) !! i) as H by (rewrite E; done).
    rewrite !list_lookup_fmap, Hi0 in H.
    destruct (args (parseArgs fs) !! i) as [a|]; [|done].
    exists a. split; [done|]. simpl in H. congruence. }
  apply unflag_fields in Ea as (A1 & A2 & A3 & A4 & A5 & A6 & A7 & _).
  destruct Hpair as (P1 & P2 & P3 & P4 & P5 & P6 & P7 & P8).
  exists i, a. rewrite <- A1, <- A2, <- A4, <- A6, <- A7, <- B3, <- B4, <- B5, <- B7.
  done.
Qed.

(** What [parseCommands] and [parseArgs] leave of a flag: all but the
    command id and the arguments. *)
Definition declaration (f : Flag) : Flag := flag_args [] (flag_commandID 0 f).

Lemma alterFirst_commandID test c (l : list Flag) :
  map (flag_commandID 0) (alterFirst test (flag_commandID c) l)
  = map (flag_commandID 0) l.
Proof.
  induction l as [|x l IH]; simpl; [done|].
  destruct (test x); simpl; [done|]. rewrite IH. done.
Qed.

Lemma parseCommands_flags fs :
  map (flag_commandID 0) (flags (parseCommands fs)) = map (flag_commandID 0) (flags fs).
Proof.
  unfold parseCommands. cbn [flags].
  generalize (closeCommands (Z.of_nat (length (argsRaw fs)))
                (locateAll (argsRaw fs) (declareCommands fs))).
  intros cmds. generalize (flags fs). induction cmds as [|c cmds IH]; intros fl; simpl.
  - done.
  - rewrite IH. apply alterFirst_commandID.
Qed.

Lemma collect_flags_other k k' fs :
  k <> k' -> flags (collect k' fs) !! k = flags fs !! k.
Proof.
  intros Hne.
  assert (forall (g : Flag -> Flag) s, flags (onFlag k' g s) !! k = flags s !! k) as Hf.
  { intros g s. cbn [onFlag withFlags flags]. rewrite list_lookup_alter_ne; done. }
  assert (forall {A} (body : FlagSet -> A -> FlagSet) (l : list A),
            (forall s x, flags (body s x) !! k = flags s !! k) ->
            forall s, flags (fold_left body l s) !! k = flags s !! k) as Hfold.
  { intros A body l Hb. induction l as [|x l IH]; intros s; simpl; [done|].
    rewrite IH. apply Hb. }
  unfold collect. destruct (flags fs !! k') as [flag|]; [|done].
  destruct (f_kind flag); try done.
  - destruct (negb _).
    + destruct (lookupFlagByIndex _ _); [|done].
      apply Hfold. intros s p. destruct (args s !! p); [|done].
      destruct (matches _ _); [|done]. rewrite Hf. done.
    + apply Hfold. intros s p. destruct (args s !! p); [|done].
      destruct (_ && _); [|done]. rewrite Hf. done.
  - destruct (find _ _); [|done]. apply Hf.
Qed.

Lemma collect_declaration k fs :
  map declaration (flags (collect k fs)) = map declaration (flags fs).
Proof.
  assert (forall j (g : Flag -> Flag) s,
            (forall f, declaration (g f) = declaration f) ->
            map declaration (flags (onFlag j g s)) = map declaration (flags s)) as Hf.
  { intros j g s Hg. cbn [onFlag withFlags flags]. apply map_alter_same. done. }
  assert (forall {A} (body : FlagSet -> A -> FlagSet) (l : list A),
            (forall s x, map declaration (flags (body s x)) = map declaration (flags s)) ->
            forall s, map declaration (flags (fold_left body l s))
                      = map declaration (flags s)) as Hfold.
  { intros A body l Hb. induction l as [|x l IH]; intros s; simpl; [done|].
    rewrite IH. apply Hb. }
  unfold collect. destruct (flags fs !! k) as [flag|]; [|done].
  destruct (f_kind flag); try done.
  - destruct (negb _).
    + destruct (lookupFlagByIndex _ _); [|done].
      apply Hfold. intros s p. destruct (args s !! p); [|done].
      destruct (matches _ _); [|done]. rewrite Hf; done.
    + apply Hfold. intros s p. destruct (args s !! p); [|done].
      destruct (_ && _); [|done]. rewrite Hf; done.
  - destruct (find _ _); [|done]. apply Hf. done.
Qed.

Lemma commanded_declaration fs :
  map declaration (flags (commanded fs)) = map declaration (flags fs).
Proof.
  unfold commanded. destruct (commandsParsed fs); [done|].
  pose proof (parseCommands_flags fs) as H.
  apply (f_equal (map (flag_args []))) in H. rewrite !map_map in H. exact H.
Qed.

Lemma parseArgs_declaration fs :
  map declaration (flags (parseArgs fs)) = map declaration (flags fs).
Proof.
  unfold parseArgs. destruct (commandsParsed fs && argsParsed fs); [done|].
  fold (commanded fs). cbn [flags]. rewrite <- (commanded_declaration fs).
  set (s0 := withArgs _ (commanded fs)).
  change (flags (commanded fs)) with (flags s0).
  generalize (seq 0 (length (flags s0))). intros ks. generalize s0.
  induction ks as [|k ks IH]; intros s; simpl; [done|].
  rewrite IH. apply collect_declaration.
Qed.

Lemma WF_parseArgs fs : WF fs -> WF (parseArgs fs).
Proof.
  pose proof (parseArgs_declaration fs) as H.
  assert (map f_id (flags (parseArgs fs)) = map f_id (flags fs)) as E1.
  { apply (f_equal (map f_id)) in H. rewrite !map_map in H. exact H. }
  assert (map f_fieldIndex (flags (parseArgs fs)) = map f_fieldIndex (flags fs)) as E2.
  { apply (f_equal (map f_fieldIndex)) in H. rewrite !map_map in H. exact H. }
  intros (W1 & W2 & W3). unfold WF. rewrite E1, E2. split; [done|]. split; [done|].
  apply Forall_forall. intros f Hf.
  assert (In (f_id f) (map f_id (flags (parseArgs fs)))) as Hin.
  { apply in_map. apply list_elem_of_In. done. }
  rewrite E1 in Hin. apply in_map_iff in Hin as (g & <- & Hg).
  rewrite Forall_forall in W3. apply W3, list_elem_of_In. done.
Qed.

(** X20. The two passes over the arguments keep the declarations:
    [parseCommands] changes of a flag its command id only, [parseArgs] its
    command id and its arguments only; so the ids and the field indexes of
    the flags stay one per flag. *)
Theorem declarations_kept fs :
  map (flag_commandID 0) (flags (parseCommands fs)) = map (flag_commandID 0) (flags fs)
  /\ map declaration (flags (parseArgs fs)) = map declaration (flags fs)
  /\ (WF fs -> WF (parseArgs fs)).
Proof.
  split; [apply parseCommands_flags|]. split; [apply parseArgs_declaration|].
  apply WF_parseArgs.
Qed.

(** The argument at [i] is outside every command and has the short or the
    long name of the flag. *)
Definition holds (fs : FlagSet) (flag : Flag) (i : nat) : bool :=
  match args fs !! i with
  | Some a => Z.eqb (a_commandID a) (-1) && matches flag a
  | None => false
  end.

Lemma holds_sameArgs s s' flag i : sameArgs s s' -> holds s' flag i = holds s flag i.
Proof.
  intros (E & _). unfold holds.
  assert (map (arg_flagID 0) (args s') !! i = map (arg_flagID 0) (args s) !! i) as H
    by (rewrite E; done).
  rewrite !list_lookup_fmap in H.
  destruct (args s' !! i) as [a'|], (args s !! i) as [a|]; try done.
  simpl in H. assert (arg_flagID 0 a' = arg_flagID 0 a) as H' by congruence.
  apply unflag_fields in H' as (_ & _ & _ & _ & _ & _ & _ & H1 & H2).
  unfold matches. rewrite H1, H2. done.
Qed.

Lemma flag_args_same f : flag_args (f_args f) f = f.
Proof. destruct f; done. Qed.

(** The body of the loop over the arguments for a top-level flag. *)
Definition gather (k : nat) (flag : Flag) (fs : FlagSet) (i : nat) : FlagSet :=
  match args fs !! i with
  | Some arg =>
      if Z.eqb (a_commandID arg) (-1) && matches flag arg then
        onFlag k (fun flag => flag_args (f_args flag ++ [i]) flag)
          (onArg i (arg_flagID (f_id flag)) fs)
      else fs
  | None => fs
  end.

Lemma gather_holds k flag fs i :
  gather k flag fs i
  = if holds fs flag i
    then onFlag k (fun flag => flag_args (f_args flag ++ [i]) flag)
           (onArg i (arg_flagID (f_id flag)) fs)
    else fs.
Proof. unfold gather, holds. destruct (args fs !! i); done. Qed.

Lemma collect_top_fold k s flag is_ : forall cur acc,
  flags cur !! k = Some (flag_args acc flag) -> sameArgs s cur ->
  flags (fold_left (gather k flag) is_ cur) !! k
  = Some (flag_args (acc ++ List.filter (holds s flag) is_) flag)
  /\ sameArgs s (fold_left (gather k flag) is_ cur).
Proof.
  induction is_ as [|i is_ IH]; intros cur acc Hk Hs; simpl.
  { rewrite app_nil_r. done. }
  rewrite gather_holds, (holds_sameArgs s cur flag i Hs).
  destruct (holds s flag i); [|apply IH; done].
  replace (acc ++ i :: List.filter (holds s flag) is_)%list
    with ((acc ++ [i]) ++ List.filter (holds s flag) is_)%list
    by (rewrite <- app_assoc; done).
  apply IH.
  - cbn [onFlag onArg withFlags withArgs flags].
    rewrite list_lookup_alter_eq, Hk. done.
  - eapply sameArgs_trans; [exact Hs|].
    eapply sameArgs_trans; [apply sameArgs_onArg|apply sameArgs_onFlag].
Qed.

Lemma collect_top k s flag :
  flags s !! k = Some flag -> f_kind flag = KindArg -> f_parentID flag = -1 ->
  flags (collect k s) !! k
  = Some (flag_args (f_args flag ++ List.filter (holds s flag) (seq 0 (length (args s))))
            flag).
Proof.
  intros Hk Hkind Hpar. unfold collect. rewrite Hk, Hkind, Hpar. cbn [Z.eqb negb].
  apply (collect_top_fold k s flag); [|apply sameArgs_refl].
  rewrite flag_args_same. done.
Qed.

Lemma collects_other k ks : forall s,
  ~ In k ks -> flags (fold_left (fun s k' => collect k' s) ks s) !! k = flags s !! k.
Proof.
  induction ks as [|k' ks IH]; intros s Hk; simpl; [done|].
  rewrite IH by (intros H; apply Hk; right; done).
  apply collect_flags_other. intros ->. apply Hk. left. done.
Qed.

Lemma lookup_commandID (l l' : list Flag) k f :
  map (flag_commandID 0) l' = map (flag_commandID 0) l -> l !! k = Some f ->
  exists f', l' !! k = Some f' /\ flag_commandID 0 f' = flag_commandID 0 f.
Proof.
  intros E Hk.
  assert (map (flag_commandID 0) l' !! k = map (flag_commandID 0) l !! k) as H
    by (rewrite E; done).
  rewrite !list_lookup_fmap, Hk in H. destruct (l' !! k) as [f'|]; [|done].
  exists f'. split; [done|]. simpl in H. congruence.
Qed.

(** X21. The arguments of a top-level flag.  After [parseArgs], a flag of
    kind ["arg"] without parent holds, after the arguments it had, the
    positions of the arguments that are outside every command and whose
    name is its short or its long name: all of them, once each, in the
    order of the tokens. *)
Theorem top_level_arguments fs k flag :
  commandsParsed fs && argsParsed fs = false ->
  flags fs !! k = Some flag ->
  f_kind flag = KindArg ->
  f_parentID flag = -1 ->
  exists flag',
    flags (parseArgs fs) !! k = Some flag'
    /\ f_args flag'
       = (f_args flag
          ++ List.filter
               (fun i => match args (parseArgs fs) !! i with
                         | Some a => Z.eqb (a_commandID a) (-1) && matches flag a
                         | None => false
                         end)
               (seq 0 (length (argsRaw fs))))%list.
Proof.
  intros Hp Hk Hkind Hpar.
  assert (exists f0, flags (commanded fs) !! k = Some f0
                     /\ flag_commandID 0 f0 = flag_commandID 0 flag) as (f0 & Hk0 & E0).
  { unfold commanded. destruct (commandsParsed fs); [by exists flag|].
    apply (lookup_commandID (flags fs)); [apply parseCommands_flags|done]. }
  assert (f_kind f0 = KindArg /\ f_parentID f0 = -1 /\ f_args f0 = f_args flag
          /\ f_short f0 = f_short flag /\ f_long f0 = f_long flag)
    as (K0 & P0 & A0 & S0 & L0).
  { rewrite <- Hkind, <- Hpar.
    split; [exact (f_equal f_kind E0)|]. split; [exact (f_equal f_parentID E0)|].
    split; [exact (f_equal f_args E0)|]. split; [exact (f_equal f_short E0)|].
    exact (f_equal f_long E0). }
  unfold parseArgs. rewrite Hp. fold (commanded fs).
  destruct (commanded_rest fs) as (_ & R2 & _). rewrite R2. fold (segments fs).
  set (s0 := withArgs (segments fs) (commanded fs)). cbn [flags args].
  assert (k < length (flags s0))%nat as Hlen by (eapply lookup_lt_Some; exact Hk0).
  assert (seq 0 (length (flags s0))
          = (seq 0 k ++ k :: seq (S k) (length (flags s0) - S k))%list) as ->.
  { replace (length (flags s0)) with (k + S (length (flags s0) - S k))%nat at 1 by lia.
    rewrite seq_app. done. }
  rewrite fold_left_app. cbn [fold_left].
  set (s1 := fold_left (fun s k' => collect k' s) (seq 0 k) s0).
  set (s2 := collect k s1).
  set (s3 := fold_left (fun s k' => collect k' s) (seq (S k) _) s2).
  assert (sameArgs s0 s1) as H01 by (apply sameArgs_fold; intros; apply collect_sameArgs).
  assert (sameArgs s1 s3) as H13.
  { eapply sameArgs_trans; [apply collect_sameArgs|].
    apply sameArgs_fold. intros. apply collect_sameArgs. }
  assert (flags s1 !! k = Some f0) as Hk1.
  { unfold s1. rewrite collects_other; [done|]. rewrite in_seq. lia. }
  assert (flags s3 !! k = flags s2 !! k) as ->.
  { unfold s3. apply collects_other. rewrite in_seq. lia. }
  unfold s2. rewrite (collect_top k s1 f0 Hk1 K0 P0).
  eexists. split; [reflexivity|]. cbn [flag_args f_args]. rewrite A0. f_equal.
  assert (length (args s1) = length (argsRaw fs)) as ->.
  { destruct H01 as (E & _). apply (f_equal (@length Arg)) in E.
    rewrite !length_map in E. rewrite E. cbn [s0 withArgs args].
    pose proof (segments_length fs) as H. exact H. }
  apply filter_ext. intros i. rewrite <- (holds_sameArgs s1 s3 f0 i H13).
  unfold holds, matches. rewrite S0, L0. done.
Qed.

(** The third loop of [parseArgs] seen from the flag at [k]: the turns
    before its own leave it as it is, its own turn is [collect k] on a flag
    set [s1], and the turns after leave it as that made it. *)
Lemma parseArgs_at fs k :
  commandsParsed fs && argsParsed fs = false ->
  (k < length (flags (commanded fs)))%nat ->
  exists s1,
    sameArgs (withArgs (segments fs) (commanded fs)) s1
    /\ (forall j, (k <= j)%nat -> flags s1 !! j = flags (commanded fs) !! j)
    /\ (forall j, (j < k)%nat -> flags (parseArgs fs) !! j = flags s1 !! j)
    /\ flags (parseArgs fs) !! k = flags (collect k s1) !! k
    /\ map (arg_flagID 0) (args (parseArgs fs)) = map (arg_flagID 0) (args s1)
    /\ commands s1 = commands (parseArgs fs)
    /\ map declaration (flags s1) = map declaration (flags (commanded fs)).
Proof.
  intros Hp Hlen. unfold parseArgs. rewrite Hp. fold (commanded fs).
  destruct (commanded_rest fs) as (_ & R2 & _). rewrite R2. fold (segments fs).
  set (s0 := withArgs (segments fs) (commanded fs)). cbn [flags args commands].
  change (flags (commanded fs)) with (flags s0) in *.
  assert (seq 0 (length (flags s0))
          = (seq 0 k ++ k :: seq (S k) (length (flags s0) - S k))%list) as ->.
  { replace (length (flags s0)) with (k + S (length (flags s0) - S k))%nat at 1 by lia.
    rewrite seq_app. done. }
  rewrite fold_left_app. cbn [fold_left].
  set (s1 := fold_left (fun s k' => collect k' s) (seq 0 k) s0).
  set (s2 := collect k s1).
  set (s3 := fold_left (fun s k' => collect k' s) (seq (S k) _) s2).
  exists s1.
  assert (sameArgs s0 s1) as H01 by (apply sameArgs_fold; intros; apply collect_sameArgs).
  assert (sameArgs s1 s3) as (H13 & _ & _ & H13c & _).
  { eapply sameArgs_trans; [apply collect_sameArgs|].
    apply sameArgs_fold. intros. apply collect_sameArgs. }
  split; [done|]. split.
  { intros j Hj. unfold s1. apply collects_other. rewrite in_seq. lia. }
  split.
  { intros j Hj. unfold s3. rewrite collects_other by (rewrite in_seq; lia).
    unfold s2. apply collect_flags_other. lia. }
  split.
  { unfold s3. apply collects_other. rewrite in_seq. lia. }
  split; [done|]. split; [done|].
  unfold s1. generalize (seq 0 k). intros ks. generalize s0.
  induction ks as [|k' ks IH]; intros s; simpl; [done|].
  rewrite IH. apply collect_declaration.
Qed.

Lemma unflag_commandID (l l' : list Arg) i :
  map (arg_flagID 0) l' = map (arg_flagID 0) l ->
  (a_commandID <$> l' !! i) = (a_commandID <$> l !! i)
  /\ (a_name <$> l' !! i) = (a_name <$> l !! i).
Proof.
  intros E.
  assert (map (arg_flagID 0) l' !! i = map (arg_flagID 0) l !! i) as H by (rewrite E; done).
  rewrite !list_lookup_fmap in H.
  destruct (l' !! i) as [a'|], (l !! i) as [a|]; try done.
  simpl in *. assert (arg_flagID 0 a' = arg_flagID 0 a) as H' by congruence.
  apply unflag_fields in H' as (_ & _ & _ & _ & _ & _ & _ & H1 & H2).
  rewrite H1, H2. done.
Qed.

(** X22. The arguments of a command.  After [parseArgs], a flag of kind
    ["command"] whose command is found holds, after the arguments it had,
    the positions of the arguments that carry the id of that command, in the
    order of the tokens; a command that is not found holds what it had. *)
Theorem command_arguments fs k flag :
  commandsParsed fs && argsParsed fs = false ->
  flags fs !! k = Some flag ->
  f_kind flag = KindCommand ->
  exists flag',
    flags (parseArgs fs) !! k = Some flag'
    /\ f_args flag'
       = (f_args flag
          ++ match List.find
                     (fun cmd => negb (Z.eqb (c_argID cmd) (-1))
                                 && Z.eqb (c_flagID cmd) (f_id flag))
                     (commands (parseArgs fs)) with
             | Some cmd =>
                 List.filter
                   (fun i => match args (parseArgs fs) !! i with
                             | Some a => Z.eqb (a_commandID a) (c_id cmd)
                             | None => false
                             end)
                   (seq 0 (length (argsRaw fs)))
             | None => []
             end)%list.
Proof.
  intros Hp Hk Hkind.
  assert (exists f0, flags (commanded fs) !! k = Some f0
                     /\ flag_commandID 0 f0 = flag_commandID 0 flag) as (f0 & Hk0 & E0).
  { unfold commanded. destruct (commandsParsed fs); [by exists flag|].
    apply (lookup_commandID (flags fs)); [apply parseCommands_flags|done]. }
  assert (f_kind f0 = KindCommand /\ f_args f0 = f_args flag /\ f_id f0 = f_id flag)
    as (K0 & A0 & I0).
  { rewrite <- Hkind. split; [exact (f_equal f_kind E0)|].
    split; [exact (f_equal f_args E0)|exact (f_equal f_id E0)]. }
  destruct (parseArgs_at fs k Hp) as (s1 & H01 & Hge & _ & Hat & Hargs & Hcmds & _).
  { eapply lookup_lt_Some. exact Hk0. }
  assert (flags s1 !! k = Some f0) as Hk1 by (rewrite Hge by lia; done).
  rewrite Hat. unfold collect. rewrite Hk1, K0, Hcmds, I0.
  destruct (find _ _) as [cmd|]; [|exists f0; rewrite app_nil_r; done].
  cbn [onFlag withFlags flags]. rewrite list_lookup_alter_eq, Hk1.
  eexists. split; [reflexivity|]. cbn [flag_args f_args]. rewrite A0. f_equal.
  assert (length (args s1) = length (argsRaw fs)) as ->.
  { destruct H01 as (E & _). apply (f_equal (@length Arg)) in E.
    rewrite !length_map in E. rewrite E. apply segments_length. }
  apply filter_ext. intros i.
  destruct (unflag_commandID (args s1) (args (parseArgs fs)) i Hargs) as [E _].
  destruct (args (parseArgs fs) !! i) as [a'|], (args s1 !! i) as [a|]; try done.
  simpl in E. congruence.
Qed.

(** The body of the loop over the arguments of the parent, for a flag
    under a command. *)
Definition gatherUnder (k : nat) (flag : Flag) (fs : FlagSet) (p : nat) : FlagSet :=
  match args fs !! p with
  | Some pArg =>
      if matches flag pArg then
        onFlag k (fun flag => flag_args (f_args flag ++ [p])
                                (flag_commandID (a_commandID pArg) flag))
          (onArg p (arg_flagID (f_id flag)) fs)
      else fs
  | None => fs
  end.

(** The argument at [i] has the short or the long name of the flag. *)
Definition named_as (fs : FlagSet) (flag : Flag) (i : nat) : bool :=
  match args fs !! i with
  | Some a => matches flag a
  | None => false
  end.

Lemma named_as_sameArgs s s' flag i :
  sameArgs s s' -> named_as s' flag i = named_as s flag i.
Proof.
  intros (E & _). unfold named_as.
  destruct (unflag_commandID (args s) (args s') i E) as [_ H].
  destruct (args s' !! i) as [a'|], (args s !! i) as [a|]; try done.
  simpl in H. unfold matches. congruence.
Qed.

Lemma gatherUnder_fold k s flag ps : forall cur acc x,
  flags cur !! k = Some (flag_args acc (flag_commandID x flag)) -> sameArgs s cur ->
  exists y,
    flags (fold_left (gatherUnder k flag) ps cur) !! k
    = Some (flag_args (acc ++ List.filter (named_as s flag) ps) (flag_commandID y flag)).
Proof.
  induction ps as [|p ps IH]; intros cur acc x Hk Hs; simpl.
  { exists x. rewrite app_nil_r. done. }
  assert (named_as s flag p
          = match args cur !! p with Some a => matches flag a | None => false end) as ->.
  { rewrite <- (named_as_sameArgs s cur flag p Hs). done. }
  unfold gatherUnder at 2. destruct (args cur !! p) as [pArg|]; [|eauto].
  destruct (matches flag pArg); [|eauto].
  replace (acc ++ p :: List.filter (named_as s flag) ps)%list
    with ((acc ++ [p]) ++ List.filter (named_as s flag) ps)%list
    by (rewrite <- app_assoc; done).
  apply (IH _ _ (a_commandID pArg)).
  - cbn [onFlag onArg withFlags withArgs flags].
    rewrite list_lookup_alter_eq, Hk. done.
  - eapply sameArgs_trans; [exact Hs|].
    eapply sameArgs_trans; [apply sameArgs_onArg|apply sameArgs_onFlag].
Qed.

Lemma find_fieldIndex (l : list Flag) p x :
  NoDup (map f_fieldIndex l) -> l !! p = Some x ->
  List.find (fun v => Index_eqb (f_fieldIndex v) (f_fieldIndex x)) l = Some x.
Proof.
  revert p. induction l as [|y l IH]; intros p Hn Hp; [done|].
  simpl in Hn. apply NoDup_cons in Hn as [Hy Hn].
  destruct p as [|p]; simpl in *.
  - injection Hp as ->. rewrite Index_eqb_refl. done.
  - destruct (Index_eqb (f_fieldIndex y) (f_fieldIndex x)) eqn:E.
    + exfalso. apply Hy. apply Index_eqb_eq in E. rewrite E.
      apply list_elem_of_In, in_map, list_elem_of_In.
      eapply list_elem_of_lookup_2. done.
    + eapply IH; done.
Qed.

Lemma lookup_declaration (l l' : list Flag) k f :
  map declaration l' = map declaration l -> l !! k = Some f ->
  exists f', l' !! k = Some f' /\ declaration f' = declaration f.
Proof.
  intros E Hk.
  assert (map declaration l' !! k = map declaration l !! k) as H by (rewrite E; done).
  rewrite !list_lookup_fmap, Hk in H. destruct (l' !! k) as [f'|]; [|done].
  exists f'. split; [done|]. simpl in H. congruence.
Qed.

(** X23. The arguments of a flag under a command.  After [parseArgs], a
    flag of kind ["arg"] declared after its parent holds, after the
    arguments it had, those of the arguments of its parent whose name is its
    short or its long name, in their order: a flag under a command takes
    arguments of that command only. *)
Theorem nested_arguments fs k flag p parent :
  commandsParsed fs && argsParsed fs = false ->
  NoDup (map f_fieldIndex (flags fs)) ->
  flags fs !! k = Some flag ->
  f_kind flag = KindArg ->
  f_parentID flag <> -1 ->
  f_parentIndex flag <> [] ->
  flags fs !! p = Some parent ->
  f_fieldIndex parent = f_parentIndex flag ->
  (p < k)%nat ->
  exists flag' parent',
    flags (parseArgs fs) !! k = Some flag'
    /\ flags (parseArgs fs) !! p = Some parent'
    /\ f_args flag'
       = (f_args flag
          ++ List.filter
               (fun i => match args (parseArgs fs) !! i with
                         | Some a => matches flag a
                         | None => false
                         end)
               (f_args parent'))%list.
Proof.
  intros Hp Hnd Hk Hkind Hpar Hidx Hpp Hfi Hlt.
  assert (exists f0, flags (commanded fs) !! k = Some f0
                     /\ flag_commandID 0 f0 = flag_commandID 0 flag) as (f0 & Hk0 & E0).
  { unfold commanded. destruct (commandsParsed fs); [by exists flag|].
    apply (lookup_commandID (flags fs)); [apply parseCommands_flags|done]. }
  assert (f_kind f0 = KindArg /\ f_parentID f0 = f_parentID flag
          /\ f_args f0 = f_args flag /\ f_parentIndex f0 = f_parentIndex flag
          /\ f_short f0 = f_short flag /\ f_long f0 = f_long flag)
    as (K0 & P0 & A0 & I0 & S0 & L0).
  { rewrite <- Hkind.
    split; [exact (f_equal f_kind E0)|]. split; [exact (f_equal f_parentID E0)|].
    split; [exact (f_equal f_args E0)|]. split; [exact (f_equal f_parentIndex E0)|].
    split; [exact (f_equal f_short E0)|exact (f_equal f_long E0)]. }
  destruct (parseArgs_at fs k Hp) as (s1 & H01 & Hge & Hbefore & Hat & Hargs & _ & Hdecl).
  { eapply lookup_lt_Some. exact Hk0. }
  rewrite commanded_declaration in Hdecl.
  assert (flags s1 !! k = Some f0) as Hk1 by (rewrite Hge by lia; done).
  destruct (lookup_declaration (flags fs) (flags s1) p parent Hdecl Hpp)
    as (ps1 & Hp1 & Ed).
  assert (f_fieldIndex ps1 = f_fieldIndex parent) as Efi by exact (f_equal f_fieldIndex Ed).
  assert (NoDup (map f_fieldIndex (flags s1))) as Hnd1.
  { pose proof Hdecl as Hd2.
    apply (f_equal (map f_fieldIndex)) in Hd2. rewrite !map_map in Hd2.
    assert (map f_fieldIndex (flags s1) = map f_fieldIndex (flags fs)) as -> by exact Hd2.
    done. }
  assert (lookupFlagByIndex s1 (f_parentIndex f0) = Some ps1) as Hlook.
  { unfold lookupFlagByIndex. rewrite I0.
    assert (isNil (f_parentIndex flag) = false) as ->
      by (destruct (f_parentIndex flag); done).
    rewrite <- Hfi, <- Efi. apply (find_fieldIndex _ p); done. }
  assert (negb (Z.eqb (f_parentID f0) (-1)) = true) as Hneg.
  { apply negb_true_iff, Z.eqb_neq. congruence. }
  destruct (gatherUnder_fold k s1 f0 (f_args ps1) s1 (f_args f0) (f_commandID f0))
    as (y & Hy); [destruct f0; done|apply sameArgs_refl|].
  exists (flag_args (f_args f0 ++ List.filter (named_as s1 f0) (f_args ps1))
            (flag_commandID y f0)), ps1.
  split.
  { rewrite Hat. unfold collect. rewrite Hk1, K0, Hneg, Hlook. exact Hy. }
  split; [rewrite Hbefore by done; done|].
  cbn [flag_args f_args]. rewrite A0. f_equal. apply filter_ext. intros i.
  unfold named_as.
  destruct (unflag_commandID (args s1) (args (parseArgs fs)) i Hargs) as [_ E].
  destruct (args (parseArgs fs) !! i) as [a'|], (args s1 !! i) as [a|]; try done.
  simpl in E. unfold matches. rewrite S0, L0. congruence.
Qed.

(** *** FlagByName and FlagArgs *)

(** The test of [FlagByName]'s inner loop. *)
Definition named (cur : Z) (name : string) (flag : Flag) : bool :=
  negb (negb (Z.eqb (f_parentID flag) cur) || negb (String.eqb (f_name flag) name)).

Lemma named_true cur name flag :
  named cur name flag = true <-> f_parentID flag = cur /\ f_name flag = name.
Proof.
  unfold named. rewrite negb_true_iff, orb_false_iff, !negb_false_iff.
  rewrite Z.eqb_eq, String.eqb_eq. done.
Qed.

(** The flag [walk] ends at has the last name of the path, and as parent
    the flag of the name before it, or the start. *)
Lemma walk_sound fl names : forall cur res f,
  walk fl names cur res = Some f ->
  (names = [] /\ res = Some f)
  \/ exists ns n, names = (ns ++ [n])%list /\ In f fl /\ f_name f = n
       /\ match last ns with
          | None => f_parentID f = cur
          | Some pn => exists g, In g fl /\ f_name g = pn /\ f_parentID f = f_id g
          end.
Proof.
  induction names as [|x names IH]; intros cur res f H; simpl in H.
  { left. done. }
  right. fold (named cur x) in H.
  destruct (find (named cur x) fl) as [h|] eqn:Eh; [|done].
  apply find_some in Eh as [Hin Hh]. apply named_true in Hh as [Hp Hn].
  destruct (IH _ _ _ H) as [[-> [= <-]]|(ns & n & -> & Hf & Hfn & Hl)].
  - exists [], x. done.
  - exists (x :: ns), n. split; [done|]. split; [done|]. split; [done|].
    destruct ns as [|y ns].
    + simpl in Hl. simpl. exists h. done.
    + change (last (x :: y :: ns)) with (last (y :: ns)).
      destruct (last (y :: ns)) eqn:E; [exact Hl|]. apply last_None in E. done.
Qed.

Lemma splitFrom_nonempty sep s : forall skip cur, splitFrom sep s skip cur <> [].
Proof.
  induction s as [|a s IH]; intros skip cur; cbn [splitFrom]; [done|].
  destruct skip; [|apply IH]. destruct (String.prefix sep (String a s)); [done|apply IH].
Qed.

(** X24. [FlagByName] returns nothing for the empty name; and the flag
    it returns for a path is a flag of the set whose field name is the last
    name of the path and whose parent is, for a single name, none and
    otherwise a flag with the name before the last. *)
Theorem FlagByName_sound fs name f :
  FlagByName fs "" = None
  /\ (FlagByName fs name = Some f ->
      exists ns n,
        Split name "." = (ns ++ [n])%list /\ In f (flags fs) /\ f_name f = n
        /\ match last ns with
           | None => f_parentID f = -1
           | Some pn => exists g, In g (flags fs) /\ f_name g = pn
                                  /\ f_parentID f = f_id g
           end).
Proof.
  split; [done|]. unfold FlagByName. destruct (isEmpty name); [done|].
  intros H. destruct (walk_sound _ _ _ _ _ H) as [[E _]|H']; [|exact H'].
  exfalso. exact (splitFrom_nonempty _ _ _ _ E).
Qed.

Lemma prefix_dot a r : String.prefix "." (String a r) = Ascii.eqb a ".".
Proof.
  cbn [String.prefix]. destruct (ascii_dec "." a) as [<-|Hne].
  - destruct r; reflexivity.
  - symmetry. apply Ascii.eqb_neq. congruence.
Qed.

Lemma Index_none a s c :
  Index (String a s) c = -1 -> Ascii.eqb a c = false /\ Index s c = -1.
Proof.
  cbn [Index]. destruct (Ascii.eqb a c); [done|]. intros H. split; [done|].
  pose proof (Index_ge s c). destruct (Z.eqb_spec (Index s c) (-1)); lia.
Qed.

Lemma splitFrom_dotfree s : forall cur,
  Index s "." = -1 ->
  splitFrom "." s 0 cur = [string_of_list_ascii (List.rev cur ++ list_ascii_of_string s)].
Proof.
  induction s as [|a s IH]; intros cur H; cbn [splitFrom].
  - simpl. rewrite app_nil_r. done.
  - apply Index_none in H as [Ha Hs]. rewrite prefix_dot, Ha, IH by done.
    simpl. rewrite <- app_assoc. done.
Qed.

Lemma split_snoc n p : forall cur,
  Index n "." = -1 ->
  splitFrom "." (p +:+ String "." n) 0 cur = (splitFrom "." p 0 cur ++ [n])%list.
Proof.
  induction p as [|a p IH]; intros cur Hn.
  - change ("" +:+ String "." n) with (String "." n). cbn [splitFrom].
    rewrite prefix_dot. cbn [Ascii.eqb Bool.eqb String.length Nat.pred app].
    rewrite splitFrom_dotfree by done. simpl.
    rewrite string_of_list_ascii_of_string. done.
  - change (String a p +:+ String "." n) with (String a (p +:+ String "." n)).
    cbn [splitFrom]. rewrite !prefix_dot.
    destruct (Ascii.eqb a "."); cbn [String.length Nat.pred]; rewrite IH by done; done.
Qed.

Lemma find_first {A} (test : A -> bool) (l : list A) k x :
  l !! k = Some x -> test x = true ->
  (forall j y, (j < k)%nat -> l !! j = Some y -> test y = false) ->
  List.find test l = Some x.
Proof.
  revert k. induction l as [|y l IH]; intros k Hk Hx Hfirst; [done|].
  destruct k as [|k]; simpl in *.
  - injection Hk as ->. rewrite Hx. done.
  - rewrite (Hfirst 0%nat y) by (done || lia).
    apply (IH k); [done|done|]. intros j z Hj Hz. apply (Hfirst (S j)); [lia|done].
Qed.

Lemma walk_snoc fl n : forall ns cur res g,
  (forall r, res = Some r -> cur = f_id r) ->
  walk fl ns cur res = Some g ->
  walk fl (ns ++ [n]) cur res = walk fl [n] (f_id g) (Some g).
Proof.
  induction ns as [|x ns IH]; intros cur res g Hres H.
  - simpl in H. rewrite (Hres g H), H. done.
  - cbn [walk app] in *. destruct (find _ fl) as [h|]; [|done].
    apply IH; [|done]. intros r [= <-]. done.
Qed.

(** X25. A flag is found again by its path.  A flag that is the first of
    its name under its parent, with a name that holds no dot, is what
    [FlagByName] returns for its name when it has no parent, and for the
    path of its parent followed by a dot and its name when [FlagByName]
    returns its parent for that path. *)
Theorem found_by_path fs k f :
  flags fs !! k = Some f ->
  Index (f_name f) "." = -1 ->
  (forall j g, (j < k)%nat -> flags fs !! j = Some g ->
               f_parentID g = f_parentID f -> f_name g <> f_name f) ->
  (f_parentID f = -1 -> f_name f <> "" -> FlagByName fs (f_name f) = Some f)
  /\ (forall path g, FlagByName fs path = Some g -> f_parentID f = f_id g ->
                     FlagByName fs (path +:+ "." +:+ f_name f) = Some f).
Proof.
  intros Hk Hdot Hfirst.
  assert (forall cur res, f_parentID f = cur ->
            walk (flags fs) [f_name f] cur res = Some f) as Hstep.
  { intros cur res Hcur. cbn [walk]. fold (named cur (f_name f)).
    rewrite (find_first _ _ k f Hk); [done|apply named_true; done|].
    intros j y Hj Hy. destruct (named cur (f_name f) y) eqn:E; [|done].
    apply named_true in E as [E1 E2]. exfalso.
    apply (Hfirst j y Hj Hy); congruence. }
  split.
  - intros Hpar Hne. unfold FlagByName.
    apply isEmpty_false in Hne. rewrite Hne.
    unfold Split. rewrite splitFrom_dotfree by done. simpl.
    rewrite string_of_list_ascii_of_string. apply (Hstep (-1) None). done.
  - intros path g Hg Hpar. unfold FlagByName in *.
    destruct (isEmpty path) eqn:Ep; [done|].
    assert (isEmpty (path +:+ "." +:+ f_name f) = false) as ->.
    { destruct path; done. }
    unfold Split in *. change ("." +:+ f_name f) with (String "." (f_name f)).
    rewrite split_snoc by done.
    rewrite (walk_snoc _ _ _ (-1) None g); [|done|done].
    apply (Hstep (f_id g) (Some g)). done.
Qed.

Lemma parseArg_dash l i arg arg' :
  l !! i = Some arg -> a_kind arg = KindArg ->
  parseArg l i !! i = Some arg' ->
  a_dash arg' = a_dash (nameAndDash arg).
Proof.
  intros Hl Hk. pose proof (lookup_lt_Some _ _ _ Hl) as Hlt.
  unfold parseArg. rewrite Hl, Hk. cbn [Kind_eqb negb].
  destruct (isEmpty _).
  { rewrite list_lookup_insert_eq by done. intros [= <-]. done. }
  destruct (hasEquals _).
  { rewrite list_lookup_insert_eq by done. intros [= <-].
    destruct (markUnset_fields (takeValue (nameAndDash arg))) as (_ & -> & _). done. }
  assert (a_dash (markUnset (nameAndDash arg)) = a_dash (nameAndDash arg)) as E.
  { destruct (markUnset_fields (nameAndDash arg)) as (_ & -> & _). done. }
  destruct (l !! S i) as [nextArg|].
  2:{ rewrite list_lookup_insert_eq by done. intros [= <-]. done. }
  destruct (_ && _).
  2:{ rewrite list_lookup_insert_eq by done. intros [= <-]. done. }
  unfold takeNext. rewrite list_lookup_insert_ne by lia.
  rewrite list_lookup_insert_eq by done. intros [= <-].
  set (arg1 := arg_indexTo _ _).
  destruct (markUnset_fields arg1) as (_ & -> & _). done.
Qed.

Lemma nameAndDash_dash arg d c s :
  d = "-" \/ d = "--" -> a_arg arg = d +:+ String c s ->
  Ascii.eqb c dash = false ->
  a_dash (nameAndDash arg) = d.
Proof.
  intros Hd Ha Hc. unfold nameAndDash. cbn [a_arg arg_name]. rewrite Ha.
  unfold HasPrefix.
  destruct Hd as [-> | ->].
  - change ("-" +:+ String c s) with (String "-" (String c s)).
    cbn [String.prefix].
    destruct (ascii_dec "-" "-") as [_|]; [|done].
    destruct (ascii_dec "-" c) as [<-|_]; [done|].
    destruct s; done.
  - change ("--" +:+ String c s) with (String "-" (String "-" (String c s))).
    cbn [String.prefix].
    destruct (ascii_dec "-" "-") as [_|]; [|done]. done.
Qed.

(** X26. [FlagArgs] writes an argument of a command as it was given.  For
    a token made of one or two dashes and a name, the text is the token
    itself when the token is bare or has [=] and a value that is not empty
    and starts with no quote; and for a value given as the next token it is
    the token, [=] and that value, quotes trimmed. *)
Theorem token_rendered l i arg d c n :
  l !! i = Some arg -> a_kind arg = KindArg ->
  d = "-" \/ d = "--" ->
  isName (String c n) = true -> Ascii.eqb c dash = false ->
  (forall w, a_arg arg = d +:+ String c n +:+ String equals w ->
             tailClean (String equals w) = true ->
             trimQuotes w = w -> w <> "" ->
             exists arg', parseArg l i !! i = Some arg' /\ commandArg arg' = a_arg arg)
  /\ (a_arg arg = d +:+ String c n ->
      a_hasEq arg = false -> a_value arg = "" ->
      match l !! S i with
      | Some next =>
          Kind_eqb (a_kind next) KindArg && negb (HasPrefix (a_arg next) "-") = false
      | None => True
      end ->
      exists arg', parseArg l i !! i = Some arg' /\ commandArg arg' = a_arg arg)
  /\ (forall next, a_arg arg = d +:+ String c n ->
        l !! S i = Some next -> a_kind next = KindArg ->
        HasPrefix (a_arg next) "-" = false ->
        trimQuotes (a_arg next) <> "" ->
        exists arg', parseArg l i !! i = Some arg'
                     /\ commandArg arg'
                        = a_arg arg +:+ "=" +:+ trimQuotes (a_arg next)).
Proof.
  intros Hl Hk Hd Hn Hc.
  assert (TrimLeft (String c n) dash = String c n) as Etrim.
  { cbn [TrimLeft]. rewrite Hc. done. }
  assert (forall arg' v s,
            a_arg arg = d +:+ String c s ->
            parseArg l i !! i = Some arg' -> a_name arg' = String c n ->
            a_kind arg' = KindArg -> a_value arg' = v ->
            commandArg arg'
            = if isEmpty v then d +:+ String c n
              else (d +:+ String c n) +:+ "=" +:+ v) as Hshow.
  { intros arg' v s Ha Hp Hname Hkind Hv. unfold commandArg.
    rewrite Hkind, Hname, Hv. cbn [Kind_eqb isEmpty String.eqb negb].
    rewrite (parseArg_dash l i arg arg' Hl Hk Hp).
    rewrite (nameAndDash_dash arg d c s Hd Ha Hc).
    destruct (isEmpty v); done. }
  repeat split.
  - intros w Ha Hclean Hq Hw.
    destruct (parseArg_equals l i arg d _ w Hl Hk Hd Hn Ha Hclean)
      as (arg' & Hp & H1 & H2 & _ & _ & H5 & _).
    exists arg'. split; [done|].
    rewrite (Hshow arg' w _ Ha Hp); [|congruence|done|congruence].
    apply isEmpty_false in Hw. rewrite Hw, Ha, append_assoc. done.
  - intros Ha Heq Hv Hnext.
    destruct (parseArg_bare l i arg d _ Hl Hk Hd Hn Ha Heq Hnext)
      as (arg' & Hp & H1 & H2 & _ & H4 & _).
    exists arg'. split; [done|].
    rewrite (Hshow arg' "" n Ha Hp); [|congruence|done|congruence]. done.
  - intros next Ha Hnx Hkn Hpre Hv.
    destruct (parseArg_next l i arg next d _ Hl Hk Hd Hn Ha Hnx Hkn Hpre)
      as (arg' & next' & Hp & _ & H1 & H2 & _).
    exists arg'. split; [done|].
    assert (a_kind arg' = KindArg) as Hk'.
    { destruct (parseArg_turn l i) as [E|[H|H]].
      - rewrite E in Hp. congruence.
      - destruct H as (a0 & a1 & _ & _ & Hk1 & E). rewrite E in Hp.
        rewrite list_lookup_insert_eq in Hp by (eapply lookup_lt_Some; done). congruence.
      - destruct H as (a0 & a1 & n0 & n1 & _ & _ & _ & _ & Hpair & E). rewrite E in Hp.
        rewrite list_lookup_insert_ne in Hp by lia.
        rewrite list_lookup_insert_eq in Hp by (eapply lookup_lt_Some; done).
        destruct Hpair as (Hk1 & _). congruence. }
    rewrite (Hshow arg' (trimQuotes (a_arg next)) n Ha Hp); [|congruence|done|done].
    apply isEmpty_false in Hv. rewrite Hv, Ha. done.
Qed.

(** *** New *)










End FlagSet.

Arguments VBool {float64}.
Arguments VFloat {float64}.
Arguments VInt {float64}.
Arguments VUint {float64}.
Arguments VString {float64}.
Arguments Scalar {float64}.
Arguments Slice {float64}.
Arguments mkStruct {float64}.
Arguments FieldByIndex {float64}.
Arguments CanSet {float64}.
Arguments mkFlagSet {float64}.
Arguments flags {float64}.
Arguments flagsRaw {float64}.
Arguments args {float64}.
Arguments commands {float64}.
Arguments mkOptions {float64}.
Arguments Parsed {float64}.
Arguments parseArgs {float64}.
Arguments parseCommands {float64}.
Arguments Errors {float64}.
Arguments WF {float64}.
Arguments isArgument {float64}.
Arguments hasArgument {float64}.

(** ** Concrete flag sets *)

(** The runs below have no flag of a float type: the float type is the unit
    type and no string parses as a float. *)
Definition noFloat (s : string) : option unit := None.

(** Modelled from the spec: the package-level [supportedFlagTypes], which
    is declared beside [Flag] and not in [flagset.go].  The value types of
    section 6, and the struct type of a command, as [checkFlags] is run on
    the command flags as well. *)
Definition supported : list string :=
  ["bool"; "float64"; "int"; "int64"; "uint"; "uint64"; "string";
   "[]bool"; "[]float64"; "[]int"; "[]int64"; "[]uint"; "[]uint64"; "[]string";
   "struct"].

(** The flag [structFieldToFlag] makes of a field with a [short] and a
    [long] tag, with the id and the indexes that [structToFlags] gives it. *)
Definition argField (id : Z) (name short long valueType : string)
    (index parentIndex : list nat) : Flag :=
  mkFlag id name short long "" "" false "" "" "" valueType ByNone KindArg
    index parentIndex (-1) (-1) [] None.

(** The flag of a field of a struct type with a [command] tag. *)
Definition commandField (id : Z) (name command : string)
    (index parentIndex : list nat) : Flag :=
  mkFlag id name "" "" command "" false "" "" "" "struct" ByNone KindCommand
    index parentIndex (-1) (-1) [] None.

Definition withEnv (env : string) (f : Flag) : Flag :=
  mkFlag (f_id f) (f_name f) (f_short f) (f_long f) (f_command f)
    (f_description f) (f_required f) env (f_delimiter f) (f_valueDefault f)
    (f_valueType f) (f_valueBy f) (f_kind f) (f_fieldIndex f) (f_parentIndex f)
    (f_parentID f) (f_commandID f) (f_args f) (f_err f).

Definition withDefault (v : string) (f : Flag) : Flag :=
  mkFlag (f_id f) (f_name f) (f_short f) (f_long f) (f_command f)
    (f_description f) (f_required f) (f_env f) (f_delimiter f) v
    (f_valueType f) (f_valueBy f) (f_kind f) (f_fieldIndex f) (f_parentIndex f)
    (f_parentID f) (f_commandID f) (f_args f) (f_err f).

Definition withDelimiter (v : string) (f : Flag) : Flag :=
  mkFlag (f_id f) (f_name f) (f_short f) (f_long f) (f_command f)
    (f_description f) (f_required f) (f_env f) v (f_valueDefault f)
    (f_valueType f) (f_valueBy f) (f_kind f) (f_fieldIndex f) (f_parentIndex f)
    (f_parentID f) (f_commandID f) (f_args f) (f_err f).

Definition required (f : Flag) : Flag :=
  mkFlag (f_id f) (f_name f) (f_short f) (f_long f) (f_command f)
    (f_description f) true (f_env f) (f_delimiter f) (f_valueDefault f)
    (f_valueType f) (f_valueBy f) (f_kind f) (f_fieldIndex f) (f_parentIndex f)
    (f_parentID f) (f_commandID f) (f_args f) (f_err f).

(** A struct whose fields all hold the zero value of the type their flag
    declares and can all be set. *)
Definition zeroed (fields : list Flag) : Struct unit :=
  mkStruct
    (fun idx =>
       match List.find (fun f => Index_eqb (f_fieldIndex f) idx) fields with
       | Some f =>
           match zero unit tt (f_valueType f) with
           | Some z => z
           | None => Slice []
           end
       | None => Slice []
       end)
    (fun _ => true).

(** [New] on a zeroed struct, in an environment. *)
Definition run (env : string -> option string) (fields : list Flag)
    (raw : list string) : FlagSet unit + error :=
  New unit tt noFloat env supported (mkOptions (zeroed fields) fields raw).

(** The flag set as [parseArgs] leaves it, before the loops of [New]. *)
Definition segmented (fields : list Flag) (raw : list string) : FlagSet unit :=
  match structToFlags supported fields with
  | inl fl => parseArgs (mkFlagSet fl (zeroed fields) [] raw false [] false)
  | inr _ => mkFlagSet [] (zeroed fields) [] raw false [] false
  end.

Definition noEnv (name : string) : option string := None.

(** What a run leaves in some fields, the errors it reports, and the
    source of each flag. *)
Definition outcome (r : FlagSet unit + error) (indexes : list (list nat))
  : list (value unit) * list error * list ValueBy + error :=
  match r with
  | inl fs =>
      inl (map (FieldByIndex (flagsRaw fs)) indexes, Errors fs,
           map f_valueBy (flags fs))
  | inr e => inr e
  end.

Definition WFb (fs : FlagSet unit) : bool :=
  bool_decide (NoDup (map f_id (flags fs)))
  && bool_decide (NoDup (map f_fieldIndex (flags fs)))
  && forallb (fun f => Z.leb 0 (f_id f)) (flags fs).

Lemma WFb_WF fs : WFb fs = true -> WF fs.
Proof.
  unfold WFb, WF. intros H.
  apply andb_prop in H as [H H3]. apply andb_prop in H as [H1 H2].
  apply bool_decide_eq_true in H1, H2.
  split; [done|]. split; [done|].
  apply Forall_forall. intros f Hf. rewrite forallb_forall in H3.
  apply Z.leb_le, H3, list_elem_of_In. done.
Qed.

(** *** Runs of [New] *)

Example run_scalar_twice :
  outcome (run noEnv [argField 0 "N" "n" "num" "int" [0%nat] []] ["-n=1"; "--num=2"])
    [[0%nat]]
  = inl ([Scalar (VInt 2)], [], [ByArg]).
Proof. vm_compute. reflexivity. Qed.

Example run_bool :
  outcome (run noEnv [argField 0 "B" "b" "bool" "bool" [0%nat] []] ["--bool"])
    [[0%nat]]
  = inl ([Scalar (VBool true)], [], [ByArg]).
Proof. vm_compute. reflexivity. Qed.

Example run_bool_empty :
  outcome (run noEnv [argField 0 "B" "b" "bool" "bool" [0%nat] []] ["--bool="])
    [[0%nat]]
  = inl ([Scalar (VBool false)], ["argument --bool needs a value"], [ByArg]).
Proof. vm_compute. reflexivity. Qed.

Example run_string_next :
  outcome (run noEnv [argField 0 "S" "s" "str" "string" [0%nat] []] ["--str"; "value"])
    [[0%nat]]
  = inl ([Scalar (VString "value")], [], [ByArg]).
Proof. vm_compute. reflexivity. Qed.

Example run_list :
  outcome
    (run noEnv [withDelimiter "," (argField 0 "L" "l" "list" "[]int" [0%nat] [])]
       ["-l=1, 2,,3"; "--list"; "4"])
    [[0%nat]]
  = inl ([Slice [VInt 1; VInt 2; VInt 3; VInt 4]], [], [ByArg]).
Proof. vm_compute. reflexivity. Qed.

Example run_commands :
  outcome
    (run noEnv
       [commandField 0 "A" "cmdA" [0%nat] [];
        argField 1 "X" "" "x" "int" [0%nat; 0%nat] [0%nat];
        commandField 2 "B" "cmdB" [1%nat] [];
        argField 3 "X" "" "x" "int" [1%nat; 0%nat] [1%nat]]
       ["cmdA"; "--x=1"; "cmdB"; "--x=2"])
    [[0%nat; 0%nat]; [1%nat; 0%nat]]
  = inl ([Scalar (VInt 1); Scalar (VInt 2)], [], [ByNone; ByArg; ByNone; ByArg]).
Proof. vm_compute. reflexivity. Qed.

Example run_env :
  outcome
    (run (fun name => if String.eqb name "NUM" then Some "5" else None)
       [withDefault "7" (withEnv "NUM" (argField 0 "N" "n" "num" "int" [0%nat] []))]
       [])
    [[0%nat]]
  = inl ([Scalar (VInt 5)], [], [ByEnv]).
Proof. vm_compute. reflexivity. Qed.

Example run_default :
  outcome
    (run noEnv
       [withDefault "7" (withEnv "NUM" (argField 0 "N" "n" "num" "int" [0%nat] []))]
       [])
    [[0%nat]]
  = inl ([Scalar (VInt 7)], [], [ByDefault]).
Proof. vm_compute. reflexivity. Qed.

Example run_required :
  outcome
    (run noEnv
       [required (argField 0 "N" "n" "num" "int" [0%nat] []);
        commandField 1 "A" "a" [1%nat] [];
        required (argField 2 "X" "x" "" "int" [1%nat; 0%nat] [1%nat])]
       [])
    []
  = inl ([], ["argument -n is required"], [ByNone; ByNone; ByNone]).
Proof. vm_compute. reflexivity. Qed.

(** *** Where the code departs from the specification *)



(** The token [--str=] followed by a pair of double quotes. *)
Definition emptyQuoted : string := "--str=" +:+ String dquote (String dquote "").

(** C4 as stated fails: [--str=] and a pair of quotes on a string flag is no
    error; the flag is resolved by the argument to the empty string. *)
Lemma value_or_error_counterexample :
  outcome (run noEnv [argField 0 "S" "s" "str" "string" [0%nat] []] [emptyQuoted])
    [[0%nat]]
  = inl ([Scalar (VString "")], [], [ByArg]).
Proof. vm_compute. reflexivity. Qed.

(** The token [--name=] followed by [a] in two pairs of double quotes. *)
Definition twiceQuoted : string :=
  "--name=" +:+ String dquote (String dquote ("a" +:+ String dquote (String dquote ""))).

(** C9 as stated fails: of two pairs of quotes both are taken off, not
    exactly one. *)
Lemma quotes_trimmed_counterexample :
  match run noEnv [argField 0 "Name" "" "name" "string" [0%nat] []] [twiceQuoted] with
  | inl fs =>
      a_value <$> args fs !! 0%nat = Some "a"
      /\ FieldByIndex (flagsRaw fs) [0%nat] = Scalar (VString "a")
      /\ "a" <> String dquote ("a" +:+ String dquote "")
  | inr _ => False
  end.
Proof. vm_compute. repeat split; [reflexivity..|discriminate]. Qed.

(** The fields [X], [Cmd] with [Y] inside, and [Z]: [X] and [Z] are both
    top-level and both declare the short name [x]; so does [Y], under
    [Cmd]. *)
Definition duplicated : list Flag :=
  [argField 0 "X" "x" "" "int" [0%nat] [];
   commandField 1 "Cmd" "cmd" [1%nat] [];
   argField 2 "Y" "x" "" "int" [1%nat; 0%nat] [1%nat];
   argField 3 "Z" "x" "" "int" [2%nat] []].

(** C7 fails on the code.  [checkFlags] keeps one declaration per name,
    the last one seen: after [Y], the short name [x] is remembered with the
    parent of [Y], and [Z] passes.  Without [Cmd] and [Y] in between, the
    same [X] and [Z] are refused. *)
Theorem duplicate_accepted :
  checkFlags supported duplicated = []
  /\ match run noEnv duplicated [] with inl _ => True | inr _ => False end
  /\ checkFlags supported
       [argField 0 "X" "x" "" "int" [0%nat] []; argField 3 "Z" "x" "" "int" [2%nat] []]
     = ["short argument x in Z field is already defined in X field"].
Proof. vm_compute. repeat split; reflexivity. Qed.

(** The commands [a], with [b] inside, and [c]; and [foo], with [bar]
    inside, and [foo] inside [bar]. *)
Definition nested : list Flag :=
  [commandField 0 "A" "a" [0%nat] [];
   commandField 1 "B" "b" [0%nat; 0%nat] [0%nat];
   commandField 2 "C" "c" [1%nat] []].

Definition nestedTwice : list Flag :=
  [commandField 0 "A" "foo" [0%nat] [];
   commandField 1 "B" "bar" [0%nat; 0%nat] [0%nat];
   commandField 2 "C" "foo" [0%nat; 0%nat; 0%nat] [0%nat; 0%nat]].

Definition located (fs : FlagSet unit) : list (string * Z * Z) :=
  map (fun c => (c_command c, c_parentID c, c_argID c)) (commands fs).

(** C8 fails on the code.  A nested command is accepted once any command
    has been found before it, its parent or not: on [c b a] the command [b]
    is found at 1 and its parent [a] at 2; on [foo foo] the inner [foo] is
    found at 1 and its parent [bar] nowhere. *)
Theorem nested_before_parent :
  located (segmented nested ["c"; "b"; "a"]) = [("a", -1, 2); ("b", 0, 1); ("c", -1, 0)]
  /\ located (segmented nestedTwice ["foo"; "foo"])
     = [("foo", -1, 0); ("bar", 0, -1); ("foo", 1, 1)].
Proof. vm_compute. split; reflexivity. Qed.

(** *** The theorems at concrete flag sets *)

(** The loops of [New] on a flag set, with no float type. *)
Definition resolved (env : string -> option string) (fs : FlagSet unit) : FlagSet unit :=
  resolution unit tt noFloat env supported fs.

Definition numEnv (name : string) : option string :=
  if String.eqb name "NUM" then Some "5" else None.

Definition emptyEnv (name : string) : option string :=
  if String.eqb name "NUM" then Some "" else None.

Definition numField : Flag := argField 0 "N" "n" "num" "int" [0%nat] [].
Definition numFlag : Flag := withDefault "7" (withEnv "NUM" numField).

(** [precedence] on a flag with a variable and a default, no argument: the
    variable wins. *)
Lemma precedence_witness :
  exists flag',
    flags (resolved numEnv (segmented [numFlag] [])) !! 0%nat = Some flag'
    /\ f_valueBy flag' = ByEnv
    /\ FieldByIndex (flagsRaw (resolved numEnv (segmented [numFlag] []))) [0%nat]
       = Scalar (VInt 5).
Proof.
  refine (precedence unit tt noFloat numEnv supported (segmented [numFlag] []) 0%nat
            numFlag _ _ _ _ _).
  - apply WFb_WF. vm_compute. reflexivity.
  - vm_compute. reflexivity.
  - reflexivity.
  - reflexivity.
  - reflexivity.
Defined.

(** [rolled_back] on [-n=abc] for a flag of type [int]. *)
Lemma rolled_back_witness :
  FieldByIndex (flagsRaw (resolved noEnv (segmented [numField] ["-n=abc"]))) [0%nat]
  = Scalar (VInt 0)
  /\ In "failed to parse 'abc' as int"
       (Errors (resolved noEnv (segmented [numField] ["-n=abc"]))).
Proof.
  refine (rolled_back unit tt noFloat noEnv supported (segmented [numField] ["-n=abc"])
            0%nat (flag_args [0%nat] numField) 0%nat (Scalar (VInt 0)) _ _ _ _ _ _
            (flag_valueBy ByArg (flag_args [0%nat] numField))
            (mkArg 0 "-n=abc" "n" "abc" "-" true false false KindArg 0 (-1) (-1) 0 1
               (Some "failed to parse 'abc' as int"))
            "failed to parse 'abc' as int" _ _ _ _).
  - apply WFb_WF. vm_compute. reflexivity.
  - vm_compute. reflexivity.
  - reflexivity.
  - reflexivity.
  - reflexivity.
  - reflexivity.
  - vm_compute. reflexivity.
  - reflexivity.
  - vm_compute. reflexivity.
  - reflexivity.
Defined.


(** [empty_env] on a flag of type [int] whose variable is set to the empty
    string. *)
Lemma empty_env_witness :
  setFlag unit noFloat supported (segmented [withEnv "NUM" numField] []) 0 ""
  = (segmented [withEnv "NUM" numField] [], None)
  /\ exists flag',
       flags (resolved emptyEnv (segmented [withEnv "NUM" numField] [])) !! 0%nat
       = Some flag'
       /\ f_valueBy flag' = ByEnv
       /\ FieldByIndex (flagsRaw (resolved emptyEnv (segmented [withEnv "NUM" numField] [])))
            [0%nat]
          = Scalar (VInt 0).
Proof.
  destruct (empty_env unit tt noFloat emptyEnv supported
              (segmented [withEnv "NUM" numField] []) 0%nat (withEnv "NUM" numField))
    as [H1 H2].
  - apply WFb_WF. vm_compute. reflexivity.
  - vm_compute. reflexivity.
  - reflexivity.
  - reflexivity.
  - reflexivity.
  - vm_compute. tauto.
  - split; [exact H1|].
    destruct H2 as (_ & H3 & flag' & H4 & H5 & _); [reflexivity..|].
    exists flag'. split; [exact H4|]. split; [exact H5|]. exact H3.
Defined.






(** The flag set as the first loop of [parseArgs] leaves it: one argument
    for each token, none of them segmented yet. *)
Definition tokens (fields : list Flag) (raw : list string) : FlagSet unit :=
  mkFlagSet fields (zeroed fields)
    (imap (fun i v => newArg [] (Z.of_nat i) v) raw) raw false [] false.

(** The turn of segmentation of the first argument and its turn on the
    first flag. *)
Definition turn (fields : list Flag) (raw : list string) : FlagSet unit :=
  applyArg unit noFloat supported 0
    (withArgs unit (parseArg (args (tokens fields raw)) 0) (tokens fields raw)) 0.

Definition boolField : Flag := argField 0 "B" "b" "bool" "bool" [0%nat] [].
Definition strField : Flag := argField 0 "S" "s" "str" "string" [0%nat] [].

Local Ltac given :=
  first [ apply WFb_WF; vm_compute; reflexivity
        | vm_compute; reflexivity
        | left; reflexivity
        | right; reflexivity ].

(** [value_or_error] on [--bool] and [--bool=] for a flag of type [bool],
    on [-n] for a flag of type [int], and on [--str] and [--str=] with a
    pair of quotes for a flag of type [string]. *)
Lemma value_or_error_witness :
  (exists arg', args (turn [boolField] ["--bool"]) !! 0%nat = Some arg'
                /\ a_err arg' = None /\ a_value arg' = "true"
                /\ FieldByIndex (flagsRaw (turn [boolField] ["--bool"])) [0%nat]
                   = Scalar (VBool true))
  /\ (exists arg', args (turn [boolField] ["--bool="]) !! 0%nat = Some arg'
                   /\ a_name arg' = "bool" /\ a_err arg' = Some (needsValue arg'))
  /\ (exists arg', args (turn [numField] ["-n"]) !! 0%nat = Some arg'
                   /\ a_name arg' = "n" /\ a_err arg' = Some (needsValue arg'))
  /\ (exists arg', args (turn [strField] ["--str"]) !! 0%nat = Some arg'
                   /\ a_name arg' = "str" /\ a_err arg' = Some (needsValue arg'))
  /\ (exists arg', args (turn [strField] [emptyQuoted]) !! 0%nat = Some arg'
                   /\ a_err arg' = None /\ a_value arg' = ""
                   /\ FieldByIndex (flagsRaw (turn [strField] [emptyQuoted])) [0%nat]
                      = Scalar (VString "")).
Proof.
  split; [|split; [|split; [|split]]].
  - destruct (value_or_error unit noFloat supported (tokens [boolField] ["--bool"])
                0%nat 0%nat boolField (newArg [] 0 "--bool") "--" "bool")
      as (H & _); [given..|].
    apply H; [split; [reflexivity|exact I]|reflexivity].
  - destruct (value_or_error unit noFloat supported (tokens [boolField] ["--bool="])
                0%nat 0%nat boolField (newArg [] 0 "--bool=") "--" "bool")
      as (_ & H & _); [given..|].
    apply H; [left; reflexivity|reflexivity].
  - destruct (value_or_error unit noFloat supported (tokens [numField] ["-n"])
                0%nat 0%nat numField (newArg [] 0 "-n") "-" "n")
      as (_ & _ & H & _); [given..|].
    apply H; [left; split; [reflexivity|exact I]|reflexivity..].
  - destruct (value_or_error unit noFloat supported (tokens [strField] ["--str"])
                0%nat 0%nat strField (newArg [] 0 "--str") "--" "str")
      as (_ & _ & _ & H & _); [given..|].
    apply H; [split; [reflexivity|exact I]|reflexivity].
  - destruct (value_or_error unit noFloat supported (tokens [strField] [emptyQuoted])
                0%nat 0%nat strField (newArg [] 0 emptyQuoted) "--" "str")
      as (_ & _ & _ & _ & H); [given..|].
    apply H; [right; left; reflexivity|reflexivity].
Defined.

(** The value [a] in a pair of double quotes, and with one quote in front. *)
Definition quoted : string := String dquote ("a" +:+ String dquote "").
Definition halfQuoted : string := String dquote "a".

(** [quotes_trimmed] on [--name=] followed by [a] in quotes, on [--name=]
    followed by a quote and [a], and on [--name] followed by the token [a]
    in quotes. *)
Lemma quotes_trimmed_witness :
  (exists arg', parseArg [newArg [] 0 ("--name=" +:+ quoted)] 0 !! 0%nat = Some arg'
                /\ a_value arg' = "a")
  /\ (exists arg', parseArg [newArg [] 0 ("--name=" +:+ halfQuoted)] 0 !! 0%nat = Some arg'
                   /\ a_value arg' = "a")
  /\ (exists arg' next',
        parseArg [newArg [] 0 "--name"; newArg [] 1 quoted] 0 !! 0%nat = Some arg'
        /\ parseArg [newArg [] 0 "--name"; newArg [] 1 quoted] 0 !! 1%nat = Some next'
        /\ a_kind next' = KindArgval
        /\ a_value arg' = "a" /\ a_value next' = "a").
Proof.
  split; [|split].
  - destruct (quotes_trimmed [newArg [] 0 ("--name=" +:+ quoted)] 0%nat
                (newArg [] 0 ("--name=" +:+ quoted)) "--" "name" dquote
                ("a" +:+ String dquote ""))
      as (_ & H & _); [given..|].
    apply (H "a"); reflexivity.
  - destruct (quotes_trimmed [newArg [] 0 ("--name=" +:+ halfQuoted)] 0%nat
                (newArg [] 0 ("--name=" +:+ halfQuoted)) "--" "name" dquote "a")
      as (H & _); [given..|].
    destruct H as (arg' & H1 & H2 & _); [reflexivity..|].
    exists arg'. split; [exact H1|exact H2].
  - destruct (quotes_trimmed [newArg [] 0 "--name"; newArg [] 1 quoted] 0%nat
                (newArg [] 0 "--name") "--" "name" dquote ("a" +:+ String dquote ""))
      as (_ & _ & H); [given..|].
    destruct (H (newArg [] 1 quoted)) as (arg' & next' & H1 & H2 & H3 & H4 & H5 & _);
      [reflexivity..|].
    exists arg', next'. repeat split; assumption.
Defined.

(** *** The further properties at concrete flag sets *)

Definition oneNumber : FlagSet unit := segmented [numField] [].
Definition oneBool : FlagSet unit := segmented [boolField] [].
Definition strAt1 : Flag := argField 1 "S" "s" "str" "string" [1%nat] [].
Definition twoFields : FlagSet unit := segmented [numField; strAt1] [].
Definition intsField : Flag := argField 0 "L" "l" "list" "[]int" [0%nat] [].
Definition oneList : FlagSet unit := segmented [intsField] [].

(** [failure_writes_nothing] on a value that does not parse and on an id
    that no flag has. *)
Lemma failure_writes_nothing_witness :
  (setFlag unit noFloat supported oneNumber 0 "abc").1 = oneNumber
  /\ (unsetFlag unit tt supported oneNumber 7).1 = oneNumber.
Proof.
  split.
  - apply (proj1 (failure_writes_nothing unit tt noFloat supported oneNumber 0)
             "abc" "failed to parse 'abc' as int").
    vm_compute. reflexivity.
  - apply (proj2 (failure_writes_nothing unit tt noFloat supported oneNumber 7)
             "no flag for id 7").
    vm_compute. reflexivity.
Defined.

(** [writes_one_field] on a call for the first of two flags, seen from the
    field of the second. *)
Lemma writes_one_field_witness :
  flags (setFlag unit noFloat supported twoFields 0 "5").1 = flags twoFields
  /\ FieldByIndex (flagsRaw (setFlag unit noFloat supported twoFields 0 "5").1) [1%nat]
     = FieldByIndex (flagsRaw twoFields) [1%nat]
  /\ FieldByIndex (flagsRaw (unsetFlag unit tt supported twoFields 0).1) [1%nat]
     = FieldByIndex (flagsRaw twoFields) [1%nat].
Proof.
  destruct (writes_one_field unit tt noFloat supported twoFields 0 "5" [1%nat])
    as [(A1 & _ & _ & _ & _ & A6) (_ & _ & _ & _ & _ & B6)].
  - intros flag H. vm_compute in H. injection H as <-. discriminate.
  - split; [exact A1|]. split; [exact A6|exact B6].
Defined.

(** [bool_words_only] on the value [1]. *)
Lemma bool_words_only_witness :
  (setFlag unit noFloat supported oneBool 0 "1").2
  = Some "failed to parse '1' as bool".
Proof.
  destruct (bool_words_only unit noFloat supported oneBool 0 "1" boolField) as [H _].
  - vm_compute. reflexivity.
  - reflexivity.
  - reflexivity.
  - exact H.
Defined.

(** [integers_in_range] on the largest element a list of [int] takes. *)
Lemma integers_in_range_witness :
  exists n,
    - 2 ^ 31 <= n < 2 ^ 31
    /\ FieldByIndex (flagsRaw (setFlag unit noFloat supported oneList 0 "2147483647").1)
         [0%nat]
       = Slice [VInt n].
Proof.
  destruct (integers_in_range unit noFloat supported oneList 0 "2147483647" intsField
              true 32)
    as (n & H1 & _ & H3).
  - vm_compute. reflexivity.
  - reflexivity.
  - right. right. right. right. left. reflexivity.
  - reflexivity.
  - vm_compute. reflexivity.
  - exists n. split; [exact H1|exact H3].
Defined.

(** [scalar_overwritten] on [1] and then [2]. *)
Lemma scalar_overwritten_witness :
  FieldByIndex
    (flagsRaw (setFlag unit noFloat supported
                 (setFlag unit noFloat supported oneNumber 0 "1").1 0 "2").1) [0%nat]
  = FieldByIndex (flagsRaw (setFlag unit noFloat supported oneNumber 0 "2").1) [0%nat].
Proof.
  destruct (scalar_overwritten unit noFloat supported oneNumber 0 "1" "2" numField)
    as [_ H].
  - vm_compute. reflexivity.
  - reflexivity.
  - vm_compute. tauto.
  - reflexivity.
  - apply H. vm_compute. reflexivity.
Defined.

(** [unset_undoes_set] on a list that took [5]. *)
Lemma unset_undoes_set_witness :
  (unsetFlag unit tt supported (setFlag unit noFloat supported oneList 0 "5").1 0).2 = None
  /\ FieldByIndex
       (flagsRaw (unsetFlag unit tt supported
                    (setFlag unit noFloat supported oneList 0 "5").1 0).1) [0%nat]
     = Slice [].
Proof.
  destruct (unset_undoes_set unit tt noFloat supported oneList 0 "5" intsField (Slice []))
    as (H1 & H2 & _).
  - vm_compute. reflexivity.
  - reflexivity.
  - reflexivity.
  - split; [exact H1|exact H2].
Defined.

Definition shortX : Flag := argField 0 "X" "x" "" "int" [0%nat] [].
Definition shortZ : Flag := argField 3 "Z" "x" "" "int" [2%nat] [].
Definition complexField : Flag := argField 0 "T" "t" "" "complex128" [0%nat] [].

(** [errors_are_faults] on two top-level flags with the short name [x]. *)
Lemma errors_are_faults_witness :
  exists i v,
    [shortX; shortZ] !! i = Some v
    /\ faulty supported [shortX; shortZ] i v
         "short argument x in Z field is already defined in X field".
Proof.
  apply (errors_are_faults supported [shortX; shortZ]).
  vm_compute. left. reflexivity.
Defined.

(** [faults_reported] on a field of a type that is not supported. *)
Lemma faults_reported_witness :
  In (invalidType supported "complex128") (checkFlags supported [complexField]).
Proof.
  apply (proj1 (faults_reported supported [complexField] complexField
                  (or_introl eq_refl))).
  vm_compute. reflexivity.
Defined.

(** [same_scope_refused] on two top-level flags with the short name [x]. *)
Lemma same_scope_refused_witness :
  exists e es, checkFlags supported [shortX; shortZ] = e :: es.
Proof.
  destruct (checkFlags supported [shortX; shortZ]) as [|e es] eqn:E.
  - exfalso.
    apply (same_scope_refused supported ShortName [shortX; shortZ] 0 1 shortX shortZ).
    + lia.
    + reflexivity.
    + reflexivity.
    + reflexivity.
    + discriminate.
    + intros w [<-|[<-|[]]] _; reflexivity.
    + exact E.
  - exists e, es. reflexivity.
Defined.

(** Two commands with a flag of the same name each. *)
Definition cmdFields : list Flag :=
  [commandField 0 "A" "cmdA" [0%nat] [];
   argField 1 "X" "" "x" "int" [0%nat; 0%nat] [0%nat];
   commandField 2 "B" "cmdB" [1%nat] [];
   argField 3 "X" "" "x" "int" [1%nat; 0%nat] [1%nat]].

(** The flags [structToFlags] makes of field declarations. *)
Definition linked (fields : list Flag) : list Flag :=
  match structToFlags supported fields with
  | inl fl => fl
  | inr _ => []
  end.

Definition numberedb (fields : list Flag) : bool :=
  bool_decide (NoDup (map f_id fields))
  && bool_decide (NoDup (map f_fieldIndex fields))
  && forallb (fun f => Z.leb 0 (f_id f)) fields.

Lemma numberedb_numbered fields : numberedb fields = true -> numbered fields.
Proof.
  unfold numberedb, numbered. intros H.
  apply andb_prop in H as [H H3]. apply andb_prop in H as [H1 H2].
  apply bool_decide_eq_true in H1, H2.
  split; [done|]. split; [done|].
  apply Forall_forall. intros f Hf. rewrite forallb_forall in H3.
  apply Z.leb_le, H3, list_elem_of_In. done.
Qed.

(** [parents_linked] on the flag [X] under the command [A]. *)
Lemma parents_linked_witness :
  f_parentID (flag_parentID 0 (argField 1 "X" "" "x" "int" [0%nat; 0%nat] [0%nat])) = 0
  /\ lookupFlagByID unit
       (mkFlagSet (linked cmdFields) (zeroed cmdFields) [] [] false [] false) 0
     = Some (commandField 0 "A" "cmdA" [0%nat] []).
Proof.
  destruct (parents_linked unit supported cmdFields (linked cmdFields)
              (zeroed cmdFields) [])
    as [_ H].
  - apply numberedb_numbered. vm_compute. reflexivity.
  - vm_compute. reflexivity.
  - destruct (H 1%nat (flag_parentID 0 (argField 1 "X" "" "x" "int" [0%nat; 0%nat] [0%nat])))
      as [_ H2]; [vm_compute; reflexivity|].
    destruct (H2 (commandField 0 "A" "cmdA" [0%nat] [])) as [H3 H4];
      [vm_compute; reflexivity|].
    split; [exact H3|exact H4].
Defined.

Definition unknownFirst : FlagSet unit := segmented [numField] ["--unknown"; "-n=1"].

(** [unmatched_untouched] on a token that matches no flag. *)
Lemma unmatched_untouched_witness :
  args (resolved noEnv unknownFirst) !! 0%nat = args unknownFirst !! 0%nat.
Proof.
  apply (unmatched_untouched unit tt noFloat noEnv supported unknownFirst 0).
  intros flag Hin _ H0. vm_compute in Hin. destruct Hin as [<-|[]].
  vm_compute in H0. destruct H0 as [H0|[]]. discriminate.
Defined.

Definition cba : FlagSet unit := tokens nested ["c"; "b"; "a"].
Definition xc : FlagSet unit := tokens nested ["x"; "c"].
Definition commandC (argID to : Z) : Command := mkCommand 2 "c" 2 (-1) argID argID to.

(** [found_at_its_name] on the command [c] in [c b a]. *)
Lemma found_at_its_name_witness :
  argsRaw unit cba !! 0%nat = Some "c".
Proof.
  destruct (found_at_its_name unit cba (commandC 0 3)) as (_ & H & _).
  - vm_compute. right. right. left. reflexivity.
  - discriminate.
  - exact H.
Defined.

(** [one_command_per_token] on the command [c] in [c b a], twice. *)
Lemma one_command_per_token_witness : 2%nat = 2%nat.
Proof.
  apply (one_command_per_token unit cba 2 2 (commandC 0 3) (commandC 0 3)).
  - vm_compute. reflexivity.
  - vm_compute. reflexivity.
  - discriminate.
  - reflexivity.
Defined.

(** [top_level_found] on the command [c] in [x c]. *)
Lemma top_level_found_witness : c_argID (commandC 1 2) = 1.
Proof.
  apply (top_level_found unit xc 2 (commandC 1 2) 1).
  - vm_compute. reflexivity.
  - reflexivity.
  - intros q cq Hq Hn. destruct q as [|[|[|q]]]; vm_compute in Hq.
    + injection Hq as <-. discriminate.
    + injection Hq as <-. discriminate.
    + reflexivity.
    + discriminate.
  - reflexivity.
  - intros m Hm. destruct m as [|m]; [|lia]. discriminate.
Defined.

(** [found_range_closed] on the command [c] in [c b a]. *)
Lemma found_range_closed_witness : 0 <= c_indexTo (commandC 0 3) <= 3.
Proof.
  apply (found_range_closed unit cba (commandC 0 3)).
  - vm_compute. right. right. left. reflexivity.
  - discriminate.
Defined.

Definition strValue : FlagSet unit := tokens [strField] ["--str"; "value"].

(** [one_argument_per_token] on [--str value]. *)
Lemma one_argument_per_token_witness :
  map (fun a => (a_id a, a_arg a)) (args (parseArgs strValue))
  = [(0, "--str"); (1, "value")].
Proof.
  destruct (one_argument_per_token unit strValue) as (H & _).
  - reflexivity.
  - exact H.
Defined.

(** [value_follows_argument] on the token [value] in [--str value]. *)
Lemma value_follows_argument_witness :
  exists a, args (parseArgs strValue) !! 0%nat = Some a /\ a_value a = "value".
Proof.
  destruct (value_follows_argument unit strValue 1
              (mkArg 1 "value" "" "value" "" false false false KindArgval
                 (-1) (-1) 0 1 2 None))
    as (i & a & Hi & Ha & _ & _ & _ & Hv & _).
  - reflexivity.
  - vm_compute. reflexivity.
  - reflexivity.
  - injection Hi as <-. exists a. split; [exact Ha|exact Hv].
Defined.

Definition threeTokens : FlagSet unit := tokens [numField] ["-n=1"; "x"; "--num=2"].

(** [top_level_arguments] on [-n=1 x --num=2]. *)
Lemma top_level_arguments_witness :
  exists flag', flags (parseArgs threeTokens) !! 0%nat = Some flag'
                /\ f_args flag' = [0%nat; 2%nat].
Proof.
  destruct (top_level_arguments unit threeTokens 0 numField) as (flag' & H1 & H2).
  - reflexivity.
  - reflexivity.
  - reflexivity.
  - reflexivity.
  - exists flag'. split; [exact H1|]. rewrite H2. vm_compute. reflexivity.
Defined.

Definition twoCommands : FlagSet unit :=
  tokens (linked cmdFields) ["cmdA"; "--x=1"; "cmdB"; "--x=2"].

(** [command_arguments] on the command [cmdA] in [cmdA --x=1 cmdB --x=2]. *)
Lemma command_arguments_witness :
  exists flag', flags (parseArgs twoCommands) !! 0%nat = Some flag'
                /\ f_args flag' = [0%nat; 1%nat].
Proof.
  destruct (command_arguments unit twoCommands 0 (commandField 0 "A" "cmdA" [0%nat] []))
    as (flag' & H1 & H2).
  - reflexivity.
  - vm_compute. reflexivity.
  - reflexivity.
  - exists flag'. split; [exact H1|]. rewrite H2. vm_compute. reflexivity.
Defined.

(** [nested_arguments] on the flag [X] under [cmdB] in
    [cmdA --x=1 cmdB --x=2]. *)
Lemma nested_arguments_witness :
  exists flag', flags (parseArgs twoCommands) !! 3%nat = Some flag'
                /\ f_args flag' = [3%nat].
Proof.
  destruct (nested_arguments unit twoCommands 3
              (flag_parentID 2 (argField 3 "X" "" "x" "int" [1%nat; 0%nat] [1%nat]))
              2 (commandField 2 "B" "cmdB" [1%nat] []))
    as (flag' & parent' & H1 & H2 & H3).
  - reflexivity.
  - apply (bool_decide_unpack _). vm_compute. exact I.
  - vm_compute. reflexivity.
  - reflexivity.
  - discriminate.
  - discriminate.
  - vm_compute. reflexivity.
  - reflexivity.
  - lia.
  - exists flag'. split; [exact H1|]. rewrite H3.
    vm_compute in H2. injection H2 as <-. vm_compute. reflexivity.
Defined.

Definition twoScopes : FlagSet unit := segmented (linked cmdFields) [].

(** [FlagByName_sound] on the path [B.X]. *)
Lemma FlagByName_sound_witness :
  exists f, FlagByName unit twoScopes "B.X" = Some f /\ f_name f = "X"
            /\ f_parentID f = 2.
Proof.
  destruct (FlagByName unit twoScopes "B.X") as [f|] eqn:E; [|discriminate].
  destruct (FlagByName_sound unit twoScopes "B.X" f) as (_ & H).
  destruct (H E) as (ns & n & Hs & _ & Hn & _).
  exists f. split; [reflexivity|]. split.
  - rewrite Hn. vm_compute in Hs.
    destruct ns as [|x [|y ns]]; simpl in Hs.
    + discriminate.
    + injection Hs as _ <-. reflexivity.
    + destruct ns; discriminate.
  - vm_compute in E. injection E as <-. reflexivity.
Defined.

(** [found_by_path] on the flag [X] under the command [A]. *)
Lemma found_by_path_witness :
  FlagByName unit twoScopes "A.X"
  = Some (flag_parentID 0 (argField 1 "X" "" "x" "int" [0%nat; 0%nat] [0%nat])).
Proof.
  destruct (found_by_path unit twoScopes 1
              (flag_parentID 0 (argField 1 "X" "" "x" "int" [0%nat; 0%nat] [0%nat])))
    as (_ & H).
  - reflexivity.
  - reflexivity.
  - intros j g Hj Hg. destruct j as [|j]; [|lia].
    vm_compute in Hg. injection Hg as <-. discriminate.
  - eapply (H "A"); [vm_compute; reflexivity|reflexivity].
Defined.

(** [token_rendered] on the token [--name=v]. *)
Lemma token_rendered_witness :
  exists arg', parseArg [newArg [] 0 "--name=v"] 0 !! 0%nat = Some arg'
               /\ commandArg arg' = "--name=v".
Proof.
  destruct (token_rendered [newArg [] 0 "--name=v"] 0 (newArg [] 0 "--name=v")
              "--" "n" "ame") as (H & _).
  - reflexivity.
  - reflexivity.
  - right. reflexivity.
  - reflexivity.
  - reflexivity.
  - apply (H "v"); [reflexivity|reflexivity|reflexivity|discriminate].
Defined.
